(** * The food-ordering storefront: seeding script and image-URL normaliser

    A shallow embedding of the seeding script [seed] (the batch job that
    clears the remote store and recreates categories, customizations, menu
    items and their join records, uploading every image with a bounded
    retry) and of [getImageUrl] from [components/MenuCard.tsx].

    The remote document/file store, the network and the URL parser are not
    part of the repository: they appear as an environment ([Env]) whose
    answers are indexed by the number of requests issued so far, and as an
    explicit [World] threaded through a small state-and-exception monad. *)

From Stdlib Require Import NArith Ascii.
From stdpp Require Import gmap strings list fin_maps pretty sorting.


(** ** JavaScript string primitives used by the sources *)

Module JS.

(** [!!s] for a string: only the empty string is falsy. *)
Definition truthy (s : string) : bool :=
  match s with
  | EmptyString => false
  | String _ _ => true
  end.

(** [s.startsWith(p)] *)
Definition startsWith (s p : string) : bool := String.prefix p s.

(** [s.includes(p)] *)
Fixpoint includes (s p : string) : bool :=
  String.prefix p s ||
  match s with
  | EmptyString => false
  | String _ s' => includes s' p
  end.

(** [s.split(c)] for a one-character separator [c]; the result is never
    empty (["".split(".")] is [[""]]). *)
Fixpoint split (c : Ascii.ascii) (s : string) : list string :=
  match s with
  | EmptyString => [EmptyString]
  | String a s' =>
      if Ascii.eqb a c then EmptyString :: split c s'
      else match split c s' with
           | [] => [String a EmptyString]
           | w :: ws => String a w :: ws
           end
  end.

(** [arr.pop()]: the last element, [undefined] on the empty array. *)
Definition pop (l : list string) : option string := last l.

Definition lower_ascii (a : Ascii.ascii) : Ascii.ascii :=
  let n := Ascii.N_of_ascii a in
  if ((65 <=? n) && (n <=? 90))%N then Ascii.ascii_of_N (n + 32) else a.

(** [s.toLowerCase()] on the ASCII range, which is all a URL path holds. *)
Fixpoint toLowerCase (s : string) : string :=
  match s with
  | EmptyString => EmptyString
  | String a s' => String (lower_ascii a) (toLowerCase s')
  end.

End JS.

(** ** Plain objects used as lookup tables

    [categoryMap], [customizationMap] and [menuMap] are plain objects
    ([{}]), read and written by computed key.  Such an object has the
    properties assigned to it, and behind them the members it inherits
    from [Object.prototype]: a read of [table[key]] finds those too, and
    an assignment to the key [__proto__] reaches the inherited setter,
    which ignores a string, so that no property is made. *)

Module Table.

(** The own properties of a table are a [gmap]: the keys assigned so far,
    each with its string. *)

(** The member names of [Object.prototype] (ECMAScript, with Annex B). *)
Definition inherited : list string :=
  ["constructor"; "hasOwnProperty"; "isPrototypeOf"; "propertyIsEnumerable";
   "toLocaleString"; "toString"; "valueOf"; "__proto__";
   "__defineGetter__"; "__defineSetter__"; "__lookupGetter__";
   "__lookupSetter__"].

(** What a read of [table[key]] yields: a string that was assigned, a
    member inherited under that name (a function, or the prototype object
    itself under [__proto__]), or [undefined]. *)
Inductive value :=
| Str (s : string)
| Member (name : string)
| Undefined.

(** [table[key]] *)
Definition get (table : gmap string string) (key : string) : value :=
  match table !! key with
  | Some s => Str s
  | None => if bool_decide (key ∈ inherited) then Member key else Undefined
  end.

(** [table[key] = s], for a string [s] *)
Definition set (key s : string) (table : gmap string string) : gmap string string :=
  if bool_decide (key = "__proto__") then table else <[key := s]> table.

(** [!!v]: functions and objects are truthy, [undefined] is not. *)
Definition truthy (v : value) : bool :=
  match v with
  | Str s => JS.truthy s
  | Member _ => true
  | Undefined => false
  end.

(** [Object.keys(table).length] *)
Definition keys_length (table : gmap string string) : nat := size table.

End Table.

(** ** Configuration

    [appwriteConfig] is declared in the [appwrite] module of the
    application; only the fields the two sources read are kept, and the
    record is a parameter throughout. *)

Record AppwriteConfig := {
  endpoint : string;
  projectId : string;
  databaseId : string;
  bucketId : string;
  categoriesCollectionId : string;
  customizationsCollectionId : string;
  menuCollectionId : string;
  menuCustomizationsCollectionId : string;
}.

(** ** components/MenuCard.tsx *)

Module MenuCard.
Section WithConfig.
Variable appwriteConfig : AppwriteConfig.

Definition getImageUrl (url : string) : string :=
  if negb (JS.truthy url) then ""
  else if JS.startsWith url "http://" || JS.startsWith url "https://" then url
  else if JS.includes url "/storage/buckets/" then
    url +:+ "?project=" +:+ projectId appwriteConfig
  else if (0 <? String.length url)%nat && negb (JS.includes url "/") then
    endpoint appwriteConfig +:+ "/storage/buckets/" +:+ bucketId appwriteConfig
      +:+ "/files/" +:+ url +:+ "/view?project=" +:+ projectId appwriteConfig
  else url +:+ "?project=" +:+ projectId appwriteConfig.

(** What the card shows in its image slot. *)
Inductive Slot :=
| Image (uri : string)
| PlaceholderGlyph.

(** The conditional [imageUrl && !imageError ? <Image/> : <View/>] of the
    component body; [imageError] is the component's state flag. *)
Definition imageSlot (image_url : string) (imageError : bool) : Slot :=
  let imageUrl := getImageUrl image_url in
  if JS.truthy imageUrl && negb imageError then Image imageUrl
  else PlaceholderGlyph.

End WithConfig.
End MenuCard.

(** ** The seeding script: data model *)

(** A JavaScript [number] of the dataset; the seeder only copies them. *)
Definition number := QArith_base.Q.

Module Category.
Record t := { name : string; description : string }.
End Category.

Module Customization.
Record t := { name : string; price : number; type : string }.
End Customization.

Module MenuItem.
Record t := {
  name : string;
  description : string;
  image_url : string;
  price : number;
  rating : number;
  calories : number;
  protein : number;
  category_name : string;
  customizations : list string;
}.
End MenuItem.

Module DummyData.
Record t := {
  categories : list Category.t;
  customizations : list Customization.t;
  menu : list MenuItem.t;
}.
End DummyData.

(** The field set sent with a menu-item [createDocument]. *)
Module MenuDoc.
Record t := {
  name : string;
  description : string;
  image_url : string;
  price : number;
  rating : number;
  calories : number;
  protein : number;
  categories : Table.value;
}.
End MenuDoc.

(** The field set of a menu_customizations join record. *)
Module LinkDoc.
Record t := { menu : string; customizations : Table.value }.
End LinkDoc.

Inductive Payload :=
| DCategory (cat : Category.t)
| DCustomization (cus : Customization.t)
| DMenu (m : MenuDoc.t)
| DLink (l : LinkDoc.t).

(** A stored document: the [$id] the store assigned and its fields. *)
Record Document := { doc_id : string; doc_data : Payload }.

(** The object handed to [storage.createFile]. *)
Module FileObj.
Record t := { name : string; type : string; size : N; uri : string }.
End FileObj.

Inductive Permission := ReadAny | WriteAny.

Record StoredFile := {
  file_id : string;
  file_obj : FileObj.t;
  file_permissions : list Permission;
}.

(** ** The environment: remote store, network, platform *)

Inductive Body :=
| BodyRejects
| BodyNull
| BodyBlob (size : N) (type : string).

Record Response := {
  ok : bool;
  status : N;
  statusText : string;
  body : Body;
}.

Inductive FetchResult :=
| FetchRejects
| FetchResponds (r : Response).

Inductive Error :=
| InvalidImageUrl (imageUrl : string)
| HttpError (status : N) (statusText : string)
| EmptyImageData
| NetworkError
| InvalidURL (imageUrl : string)
| StoreError (request : nat)
| CategoryNotFound (category_name : string).

Inductive Request :=
| ListDocuments (collectionId : string)
| DeleteDocument (collectionId id : string)
| CreateDocument (collectionId : string) (data : Payload)
| ListFiles (bucket : string)
| DeleteFile (bucket id : string)
| CreateFile (bucket : string) (file : FileObj.t)
| Fetch (url : string).

Inductive Level := log | warn | error.

(** One constructor per console line of the script. *)
Inductive Message :=
| ClearedCollection (collectionId : string)
| ErrorClearingCollection (collectionId : string) (e : Error)
| ClearedStorage
| ErrorClearingStorage (e : Error)
| UploadingImage (attempt retries : nat) (imageUrl : string)
| FileInfo (filename type : string) (size : N)
| ImageUploaded (filename : string)
| UploadAttemptFailed (attempt : nat) (e : Error)
| AllUploadAttemptsFailed (imageUrl : string)
| UsingOriginalUrl (imageUrl : string)
| WaitingBeforeRetry (delay : N)
| StartingSeeding
| ClearingExistingData
| CreatingCategories
| CategoryCreated (name : string)
| FailedCategory (name : string) (e : Error)
| CreatingCustomizations
| CustomizationCreated (name : string)
| FailedCustomization (name : string) (e : Error)
| CreatingMenuItems
| ProcessingMenuItem (position total : nat) (name : string)
| MenuItemCreated (name : string)
| AddingCustomizations (name : string)
| CustomizationNotFound (cusName : string)
| MenuCustomizationLinked (name cusName : string)
| FailedMenuCustomization (cusName : string) (e : Error)
| FailedMenuItem (name : string) (e : Error)
| SeedingCompleted
| Summary
| SummaryCategories (n : nat)
| SummaryCustomizations (n : nat)
| SummaryMenuItems (n : nat)
| SeedingFailed (e : Error).

(** What an observer of a run sees, in order: console lines, requests
    (numbered as they are issued) and timer waits. *)
Inductive Event :=
| Console (lvl : Level) (m : Message)
| Issued (n : nat) (r : Request)
| Sleep (ms : N).

(** Everything the script does not decide itself.  Answers are indexed by
    the number of requests issued before, so that two requests of the same
    shape may fare differently. *)
Record Env := {
  (** does the store reject its [n]-th request? *)
  store_rejects : nat -> bool;
  (** the identifier the store gives to the [k]-th object it creates *)
  unique_id : nat -> string;
  (** the outcome of [fetch(url)] issued as request [n] *)
  fetch : nat -> string -> FetchResult;
  (** [new URL(u).pathname]; [None] when the constructor throws *)
  pathname : string -> option string;
  (** [storage.getFileView(bucketId, fileId).toString()] *)
  getFileView : string -> string -> string;
  (** [Date.now()] and [Math.random().toString(36).substr(2, 9)] *)
  now : nat -> N;
  random : nat -> string;
  (** of promises running together that reject with these errors, in the
      order they were started: the position of the one that settles first *)
  settles_first : list Error -> nat;
}.

(** The remote store (of the one database [databaseId] names) together
    with the bookkeeping of the run. *)
Record World := {
  documents : gmap string (list Document);
  files : gmap string (list StoredFile);
  created : nat;
  requests : nat;
  trace : list Event;
}.

(** [blob.type || 'image/jpeg'] *)
Definition type_or_default (type : string) : string :=
  if JS.truthy type then type else "image/jpeg".

(** ** A monad for the script: state plus exceptions

    A computation takes the world and leaves a completion (a value, or a
    thrown error) with the world as it is then; an exception does not undo
    what was done before it. *)

Inductive Completion (A : Type) :=
| Return (a : A)
| Throw (e : Error).
Arguments Return {A} a.
Arguments Throw {A} e.

Definition M (A : Type) : Type := World -> Completion A * World.

Definition ret {A} (a : A) : M A := fun w => (Return a, w).

Definition bind {A B} (m : M A) (k : A -> M B) : M B :=
  fun w =>
    match m w with
    | (Return a, w') => k a w'
    | (Throw e, w') => (Throw e, w')
    end.

Definition throw {A} (e : Error) : M A := fun w => (Throw e, w).

(** [try { m } catch (e) { h e }] *)
Definition try_catch {A} (m : M A) (h : Error -> M A) : M A :=
  fun w =>
    match m w with
    | (Return a, w') => (Return a, w')
    | (Throw e, w') => h e w'
    end.

Declare Scope seed_scope.
Delimit Scope seed_scope with seed.
Notation "'let*' x ':=' m 'in' k" := (bind m (fun x => k))
  (at level 10, x name, m at level 100, k at level 200) : seed_scope.
Notation "m ';;' k" := (bind m (fun _ => k))
  (at level 100, k at level 200, right associativity) : seed_scope.
Open Scope seed_scope.

(** [when b m]: a one-armed [if]. *)
Definition when (b : bool) (m : M unit) : M unit := if b then m else ret tt.

(** [for (const x of xs) body], the loop carrying the table it fills. *)
Fixpoint for_of {A T} (body : T -> A -> M T) (xs : list A) (s : T) : M T :=
  match xs with
  | [] => ret s
  | x :: xs' => let* s' := body s x in for_of body xs' s'
  end.

(** [for (let i = i0; i < ...; i++) { const x = xs[i]; body }] *)
Fixpoint for_index {A T} (body : nat -> T -> A -> M T) (i : nat) (xs : list A)
    (s : T) : M T :=
  match xs with
  | [] => ret s
  | x :: xs' => let* s' := body i s x in for_index body (S i) xs' s'
  end.

(** The promises of [ms] are started one after the other, each whatever
    becomes of the others, and run together; [start_all ms] gives what
    each of them settles to, with the world once all of them have. *)
Fixpoint start_all {A} (ms : list (M A)) (w : World)
    : list (Completion A) * World :=
  match ms with
  | [] => ([], w)
  | m :: ms' =>
      let (c, w1) := m w in
      let (cs, w2) := start_all ms' w1 in
      (c :: cs, w2)
  end.

Definition rejection {A} (c : Completion A) : option Error :=
  match c with
  | Throw e => Some e
  | Return _ => None
  end.

Definition fulfilment {A} (c : Completion A) : option A :=
  match c with
  | Return a => Some a
  | Throw _ => None
  end.

(** [Promise.all(ms)]: fulfilled with all the values when every promise
    is; rejected, when some are, with the rejection that settles first,
    which is for the environment to say.  The requests of [ms] are all
    issued by then; the world is taken once they have all settled, the
    script doing nothing to the store in between. *)
Definition promise_all {A} (env : Env) (ms : list (M A)) : M (list A) :=
  fun w =>
    let (cs, w') := start_all ms w in
    match omap rejection cs with
    | [] => (Return (omap fulfilment cs), w')
    | e :: errs =>
        (Throw (default e ((e :: errs) !! settles_first env (e :: errs))), w')
    end.

(** World updates *)

Definition add_event (e : Event) (w : World) : World :=
  {| documents := documents w; files := files w; created := created w;
     requests := requests w; trace := trace w ++ [e] |}.

Definition observe (e : Event) : M unit := fun w => (Return tt, add_event e w).

Definition console (lvl : Level) (m : Message) : M unit := observe (Console lvl m).

(** [await new Promise(resolve => setTimeout(resolve, ms))] *)
Definition sleep (ms : N) : M unit := observe (Sleep ms).

(** Issue a request: it is written to the trace under the next number. *)
Definition count_request (w : World) : World :=
  {| documents := documents w; files := files w; created := created w;
     requests := S (requests w); trace := trace w |}.

Definition issue (r : Request) : M nat :=
  fun w => (Return (requests w), count_request (add_event (Issued (requests w) r) w)).

Definition docs_of (w : World) (collectionId : string) : list Document :=
  default [] (documents w !! collectionId).

Definition files_of (w : World) (bucket : string) : list StoredFile :=
  default [] (files w !! bucket).

Definition set_docs (collectionId : string) (l : list Document) (w : World) : World :=
  {| documents := <[collectionId := l]> (documents w); files := files w;
     created := created w; requests := requests w; trace := trace w |}.

Definition set_files (bucket : string) (l : list StoredFile) (w : World) : World :=
  {| documents := documents w; files := <[bucket := l]> (files w);
     created := created w; requests := requests w; trace := trace w |}.

Definition count_created (w : World) : World :=
  {| documents := documents w; files := files w; created := S (created w);
     requests := requests w; trace := trace w |}.

Section Script.
Variable appwriteConfig : AppwriteConfig.
Variable env : Env.

(** *** The store's operations, as the SDK exposes them *)

(** A request to the store either is rejected (the SDK call throws) or
    goes through. *)
Definition store_call (r : Request) : M unit :=
  let* n := issue r in
  if store_rejects env n then throw (StoreError n) else ret tt.

(** The listing is taken to be complete: the script passes no query and
    relies on getting every document. *)
Definition listDocuments (collectionId : string) : M (list Document) :=
  store_call (ListDocuments collectionId);;
  fun w => (Return (docs_of w collectionId), w).

Definition deleteDocument (collectionId id : string) : M unit :=
  store_call (DeleteDocument collectionId id);;
  fun w => (Return tt,
            set_docs collectionId
              (filter (fun d => doc_id d ≠ id) (docs_of w collectionId)) w).

(** [databases.createDocument(db, collectionId, ID.unique(), data)] *)
Definition createDocument (collectionId : string) (data : Payload) : M Document :=
  store_call (CreateDocument collectionId data);;
  fun w =>
    let doc := {| doc_id := unique_id env (created w); doc_data := data |} in
    (Return doc,
     count_created (set_docs collectionId (docs_of w collectionId ++ [doc]) w)).

Definition listFiles (bucket : string) : M (list StoredFile) :=
  store_call (ListFiles bucket);;
  fun w => (Return (files_of w bucket), w).

Definition deleteFile (bucket id : string) : M unit :=
  store_call (DeleteFile bucket id);;
  fun w => (Return tt,
            set_files bucket
              (filter (fun f => file_id f ≠ id) (files_of w bucket)) w).

(** [storage.createFile(bucket, ID.unique(), fileObj, permissions)] *)
Definition createFile (bucket : string) (fileObj : FileObj.t)
    (permissions : list Permission) : M StoredFile :=
  store_call (CreateFile bucket fileObj);;
  fun w =>
    let file := {| file_id := unique_id env (created w); file_obj := fileObj;
                   file_permissions := permissions |} in
    (Return file,
     count_created (set_files bucket (files_of w bucket ++ [file]) w)).

(** [await fetch(url, ...)]: the 30 s abort and a network failure both
    reject the promise. *)
Definition fetch_image (url : string) : M Response :=
  let* n := issue (Fetch url) in
  match fetch env n url with
  | FetchRejects => throw NetworkError
  | FetchResponds r => ret r
  end.

(** [Date.now()] and the random tag, read at the current request count. *)
Definition date_now : M N := fun w => (Return (now env (requests w)), w).
Definition random_tag : M string := fun w => (Return (random env (requests w)), w).

(** *** clearAll, clearStorage (lines 36-69) *)

Definition clearAll (collectionId : string) : M unit :=
  try_catch
    (let* list := listDocuments collectionId in
     promise_all env
       (map (fun doc => deleteDocument collectionId (doc_id doc)) list);;
     console log (ClearedCollection collectionId))
    (fun e =>
       console error (ErrorClearingCollection collectionId e);;
       throw e).

Definition clearStorage : M unit :=
  try_catch
    (let* list := listFiles (bucketId appwriteConfig) in
     promise_all env
       (map (fun file => deleteFile (bucketId appwriteConfig) (file_id file)) list);;
     console log ClearedStorage)
    (fun e =>
       console error (ErrorClearingStorage e);;
       throw e).

(** *** uploadImageToStorage (lines 71-156) *)

(** [urlPath.split('.').pop()?.toLowerCase() || 'jpg'] *)
Definition extension_of (urlPath : string) : string :=
  match JS.pop (JS.split "."%char urlPath) with
  | Some last =>
      let lower := JS.toLowerCase last in
      if JS.truthy lower then lower else "jpg"
  | None => "jpg"
  end.

(** The body of the [try] block: one attempt. *)
Definition upload_attempt (imageUrl : string) (attempt retries : nat) : M string :=
  console log (UploadingImage attempt retries imageUrl);;
  when (negb (JS.truthy imageUrl) || negb (JS.startsWith imageUrl "http"))
    (throw (InvalidImageUrl imageUrl));;
  let* response := fetch_image imageUrl in
  when (negb (ok response))
    (throw (HttpError (status response) (statusText response)));;
  let* blob :=
    match body response with
    | BodyRejects => throw NetworkError
    | BodyNull => throw EmptyImageData
    | BodyBlob size type =>
        if (size =? 0)%N then throw EmptyImageData else ret (size, type)
    end in
  let* urlPath :=
    match pathname env imageUrl with
    | Some p => ret p
    | None => throw (InvalidURL imageUrl)
    end in
  let extension := extension_of urlPath in
  let* t := date_now in
  let* r := random_tag in
  let filename := pretty t +:+ "-" +:+ r +:+ "." +:+ extension in
  let fileObj :=
    {| FileObj.name := filename;
       FileObj.type := if JS.truthy (snd blob) then snd blob else "image/jpeg";
       FileObj.size := fst blob;
       FileObj.uri := imageUrl |} in
  console log (FileInfo filename (FileObj.type fileObj) (FileObj.size fileObj));;
  let* file :=
    createFile (bucketId appwriteConfig) fileObj [ReadAny; WriteAny] in
  let viewUrl := getFileView env (bucketId appwriteConfig) (file_id file) in
  console log (ImageUploaded filename);;
  ret viewUrl.

(** The [catch] block of one attempt: [Some v] when the function returns
    [v] from it, [None] when control goes round the loop again. *)
Definition upload_recover (imageUrl : string) (attempt retries : nat)
    (e : Error) : M (option string) :=
  console error (UploadAttemptFailed attempt e);;
  if (attempt =? retries)%nat then
    console error (AllUploadAttemptsFailed imageUrl);;
    console log (UsingOriginalUrl imageUrl);;
    ret (Some imageUrl)
  else
    let delay := (2 ^ N.of_nat attempt * 1000)%N in
    console log (WaitingBeforeRetry delay);;
    sleep delay;;
    ret None.

(** The [for (attempt; attempt <= retries; attempt++)] loop; [fuel]
    bounds the iterations still to run, and [retries] of them are
    enough from [attempt = 1]. *)
Fixpoint upload_loop (imageUrl : string) (retries fuel attempt : nat) : M string :=
  match fuel with
  | 0 => ret imageUrl
  | S fuel' =>
      if (attempt <=? retries)%nat then
        let* r :=
          try_catch
            (let* viewUrl := upload_attempt imageUrl attempt retries in
             ret (Some viewUrl))
            (upload_recover imageUrl attempt retries) in
        match r with
        | Some v => ret v
        | None => upload_loop imageUrl retries fuel' (S attempt)
        end
      else ret imageUrl
  end.

Definition uploadImageToStorage (imageUrl : string) (retries : nat) : M string :=
  upload_loop imageUrl retries retries 1.

(** *** seed (lines 158-291) *)

(** [!table[key]]: nothing is found under the key, own or inherited, or
    the empty string is. *)
Definition missing (table : gmap string string) (key : string) : bool :=
  negb (Table.truthy (Table.get table key)).

(** Lines 173-187 and 192-210: one iteration of each creation loop. *)
Definition create_category (categoryMap : gmap string string)
    (cat : Category.t) : M (gmap string string) :=
  try_catch
    (let* doc :=
       createDocument (categoriesCollectionId appwriteConfig) (DCategory cat) in
     let categoryMap' := Table.set (Category.name cat) (doc_id doc) categoryMap in
     console log (CategoryCreated (Category.name cat));;
     ret categoryMap')
    (fun e =>
       console error (FailedCategory (Category.name cat) e);;
       throw e).

Definition create_customization (customizationMap : gmap string string)
    (cus : Customization.t) : M (gmap string string) :=
  try_catch
    (let* doc :=
       createDocument (customizationsCollectionId appwriteConfig)
         (DCustomization
            {| Customization.name := Customization.name cus;
               Customization.price := Customization.price cus;
               Customization.type := Customization.type cus |}) in
     let customizationMap' :=
       Table.set (Customization.name cus) (doc_id doc) customizationMap in
     console log (CustomizationCreated (Customization.name cus));;
     ret customizationMap')
    (fun e =>
       console error (FailedCustomization (Customization.name cus) e);;
       throw e).

(** Lines 251-272: one iteration of the customization-link loop. *)
Definition link_customization (customizationMap : gmap string string)
    (item : MenuItem.t) (doc : Document) (cusName : string) : M unit :=
  try_catch
    (if missing customizationMap cusName then
       console warn (CustomizationNotFound cusName)
     else
       createDocument (menuCustomizationsCollectionId appwriteConfig)
         (DLink {| LinkDoc.menu := doc_id doc;
                   LinkDoc.customizations :=
                     Table.get customizationMap cusName |});;
       console log (MenuCustomizationLinked (MenuItem.name item) cusName))
    (fun e => console error (FailedMenuCustomization cusName e)).

(** Lines 249-273: the join records of one menu item. *)
Definition link_customizations (customizationMap : gmap string string)
    (item : MenuItem.t) (doc : Document) : M unit :=
  when (0 <? length (MenuItem.customizations item))%nat
    (console log (AddingCustomizations (MenuItem.name item));;
     for_of (fun _ cusName => link_customization customizationMap item doc cusName)
       (MenuItem.customizations item) tt).

(** Lines 217-278: one iteration of the menu loop. *)
Definition create_menu_item (categoryMap customizationMap : gmap string string)
    (total i : nat) (menuMap : gmap string string) (item : MenuItem.t)
    : M (gmap string string) :=
  console log (ProcessingMenuItem (i + 1) total (MenuItem.name item));;
  try_catch
    (let* uploadedImageUrl := uploadImageToStorage (MenuItem.image_url item) 3 in
     when (missing categoryMap (MenuItem.category_name item))
       (throw (CategoryNotFound (MenuItem.category_name item)));;
     let* doc :=
       createDocument (menuCollectionId appwriteConfig)
         (DMenu
            {| MenuDoc.name := MenuItem.name item;
               MenuDoc.description := MenuItem.description item;
               MenuDoc.image_url := uploadedImageUrl;
               MenuDoc.price := MenuItem.price item;
               MenuDoc.rating := MenuItem.rating item;
               MenuDoc.calories := MenuItem.calories item;
               MenuDoc.protein := MenuItem.protein item;
               MenuDoc.categories :=
                 Table.get categoryMap (MenuItem.category_name item) |}) in
     let menuMap' := Table.set (MenuItem.name item) (doc_id doc) menuMap in
     console log (MenuItemCreated (MenuItem.name item));;
     link_customizations customizationMap item doc;;
     ret menuMap')
    (fun e =>
       console error (FailedMenuItem (MenuItem.name item) e);;
       throw e).

Definition seed (data : DummyData.t) : M unit :=
  try_catch
    (console log StartingSeeding;;
     console log ClearingExistingData;;
     clearAll (categoriesCollectionId appwriteConfig);;
     clearAll (customizationsCollectionId appwriteConfig);;
     clearAll (menuCollectionId appwriteConfig);;
     clearAll (menuCustomizationsCollectionId appwriteConfig);;
     clearStorage;;
     console log CreatingCategories;;
     let* categoryMap := for_of create_category (DummyData.categories data) ∅ in
     console log CreatingCustomizations;;
     let* customizationMap :=
       for_of create_customization (DummyData.customizations data) ∅ in
     console log CreatingMenuItems;;
     let* menuMap :=
       for_index
         (create_menu_item categoryMap customizationMap
            (length (DummyData.menu data)))
         0 (DummyData.menu data) ∅ in
     console log SeedingCompleted;;
     console log Summary;;
     console log (SummaryCategories (Table.keys_length categoryMap));;
     console log (SummaryCustomizations (Table.keys_length customizationMap));;
     console log (SummaryMenuItems (Table.keys_length menuMap)))
    (fun e =>
       console error (SeedingFailed e);;
       throw e).

End Script.

(** ** Vocabulary of the properties *)

(** [name] is not the name of a member inherited from [Object.prototype]:
    a table has something under it only if it was assigned. *)
Definition plain (name : string) : Prop := name ∉ Table.inherited.

(** [url] carries a full network scheme. *)
Definition has_scheme (url : string) : Prop :=
  ∃ rest, url = "http://" +:+ rest ∨ url = "https://" +:+ rest.

(** [part] occurs somewhere in [url]. *)
Definition contains (url part : string) : Prop :=
  ∃ before after, url = before +:+ part +:+ after.

(** [url] with the access-project query parameter appended. *)
Definition with_project (cfg : AppwriteConfig) (url : string) : string :=
  url +:+ "?project=" +:+ projectId cfg.

(** The view URL of a bare file id. *)
Definition view_of_file (cfg : AppwriteConfig) (fileId : string) : string :=
  endpoint cfg +:+ "/storage/buckets/" +:+ bucketId cfg +:+ "/files/"
    +:+ fileId +:+ "/view?project=" +:+ projectId cfg.


Definition sample_config : AppwriteConfig :=
  {| endpoint := "https://cloud.example/v1";
     projectId := "proj";
     databaseId := "db";
     bucketId := "assets";
     categoriesCollectionId := "categories";
     customizationsCollectionId := "customizations";
     menuCollectionId := "menu";
     menuCustomizationsCollectionId := "menu_customizations" |}.

(** The attempts of an upload and the waits between them, as they show
    in a trace: [inl k] for the start of attempt [k], [inr ms] for a wait
    of [ms] milliseconds. *)
Definition attempt_or_wait (e : Event) : option (nat + N) :=
  match e with
  | Console log (UploadingImage attempt _ _) => Some (inl attempt)
  | Sleep ms => Some (inr ms)
  | _ => None
  end.

Definition schedule_of (t : list Event) : list (nat + N) := omap attempt_or_wait t.

(** The failures an upload reports, attempt by attempt. *)
Definition reported_failure (e : Event) : option (nat * Error) :=
  match e with
  | Console error (UploadAttemptFailed attempt err) => Some (attempt, err)
  | _ => None
  end.

Definition failures_of (t : list Event) : list (nat * Error) := omap reported_failure t.

Definition request_of (e : Event) : option Request :=
  match e with
  | Issued _ r => Some r
  | _ => None
  end.

(** The requests of a trace, in the order of their issue. *)
Definition requests_of (t : list Event) : list Request := omap request_of t.

(** The phases of a seed run, and the phase each request belongs to. *)
Inductive Phase := Clearing | Categories | Customizations | MenuItems.

Definition phase_of (r : Request) : Phase :=
  match r with
  | ListDocuments _ | DeleteDocument _ _ | ListFiles _ | DeleteFile _ _ => Clearing
  | CreateDocument _ (DCategory _) => Categories
  | CreateDocument _ (DCustomization _) => Customizations
  | CreateDocument _ (DMenu _) | CreateDocument _ (DLink _)
  | CreateFile _ _ | Fetch _ => MenuItems
  end.

(** All the requests of [t] belong to phase [p]. *)
Definition in_phase (p : Phase) (t : list Event) : Prop :=
  Forall (fun r => phase_of r = p) (requests_of t).

(** The requests whose failure the script does not absorb: everything but
    the image fetch, the file upload and the creation of a join record. *)
Definition fatal (r : Request) : bool :=
  match r with
  | Fetch _ | CreateFile _ _ | CreateDocument _ (DLink _) => false
  | _ => true
  end.

Definition is_delete (r : Request) : bool :=
  match r with
  | DeleteDocument _ _ | DeleteFile _ _ => true
  | _ => false
  end.

(** A run that ended in [c] with the events [t] aborted at its first fatal
    rejection: whenever the store rejected a fatal request of [t], the run
    threw, and what was issued after it can only be further deletions of
    the fan-out the rejected deletion belongs to. *)
Definition aborts_at_first_fatal {A} (env : Env) (c : Completion A)
    (t : list Event) : Prop :=
  ∀ t1 n r t2,
    t = t1 ++ Issued n r :: t2 → fatal r = true → store_rejects env n = true →
    (∃ e, c = Throw e) ∧
    Forall (fun r' => is_delete r = true ∧ is_delete r' = true) (requests_of t2).

(** The two together: a stretch of the run that stays in phase [p]. *)
Definition phase_run {A} (env : Env) (p : Phase) (c : Completion A)
    (t : list Event) : Prop :=
  in_phase p t ∧ aborts_at_first_fatal env c t.

(** What a single request [r] leaves in the trace: itself, and an
    exception when the store rejects it. *)
Definition one_request {A} (env : Env) (r : Request) (c : Completion A)
    (t : list Event) : Prop :=
  ∃ n, t = [Issued n r] ∧ (store_rejects env n = true → ∃ e, c = Throw e).

(** What a fan-out of deletions leaves in the trace: deletions only, none
    of them rejected when the whole resolves. *)
Definition deletions {A} (env : Env) (c : Completion A) (t : list Event) : Prop :=
  Forall (fun r => is_delete r = true) (requests_of t) ∧
  ((∃ a, c = Return a) → ∀ n r, Issued n r ∈ t → store_rejects env n = false).

(** Requests that belong to [p] and that the script survives the failure of. *)
Definition harmless (p : Phase) (t : list Event) : Prop :=
  in_phase p t ∧ Forall (fun r => fatal r = false) (requests_of t).

Definition rank (p : Phase) : nat :=
  match p with
  | Clearing => 0
  | Categories => 1
  | Customizations => 2
  | MenuItems => 3
  end.

(** [r'] belongs to the phase of [r] or to a later one. *)
Definition not_before (r r' : Request) : Prop :=
  rank (phase_of r) ≤ rank (phase_of r').

(** The requests of [t] come phase after phase: none is followed by a
    request of an earlier phase. *)
Definition in_sequence (t : list Event) : Prop :=
  StronglySorted not_before (requests_of t).

(** A stretch of the run that starts in phase [p] and only moves on. *)
Definition runs_from {A} (env : Env) (p : Phase) (c : Completion A)
    (t : list Event) : Prop :=
  in_sequence t ∧
  Forall (fun r => rank p ≤ rank (phase_of r)) (requests_of t) ∧
  aborts_at_first_fatal env c t.

(** The listing requests of a trace. *)
Definition listing_of (e : Event) : option Request :=
  match e with
  | Issued _ (ListDocuments c) => Some (ListDocuments c)
  | Issued _ (ListFiles b) => Some (ListFiles b)
  | _ => None
  end.

Definition listings_of (t : list Event) : list Request := omap listing_of t.

(** The listings a complete clear phase issues. *)
Definition clear_listings (cfg : AppwriteConfig) : list Request :=
  [ListDocuments (categoriesCollectionId cfg);
   ListDocuments (customizationsCollectionId cfg);
   ListDocuments (menuCollectionId cfg);
   ListDocuments (menuCustomizationsCollectionId cfg);
   ListFiles (bucketId cfg)].


(** [m] never throws. *)
Definition never_throws {A} (m : M A) : Prop := ∀ w, ∃ a, (m w).1 = Return a.

(** What the image host serves for [url] when fetched as request [n]: the
    size and type of a non-empty blob under a success status. *)
Definition served (env : Env) (url : string) (n : nat) : option (N * string) :=
  match fetch env n url with
  | FetchResponds r =>
      if ok r then
        match body r with
        | BodyBlob size type => if (size =? 0)%N then None else Some (size, type)
        | _ => None
        end
      else None
  | FetchRejects => None
  end.

Definition defined {X} (o : option X) : bool :=
  match o with
  | Some _ => true
  | None => false
  end.

(** An attempt whose fetch is request [n] goes through: the URL is valid,
    the image is served, the URL parses, and the store takes the file (its
    request [n + 1]). *)
Definition attempt_ok (env : Env) (url : string) (n : nat) : bool :=
  JS.truthy url && JS.startsWith url "http" &&
  defined (served env url n) &&
  defined (pathname env url) &&
  negb (store_rejects env (S n)).

(** The file such an attempt stores, but for its name. *)
Definition stored_as (env : Env) (url : string) (n k : nat) (f : StoredFile) : Prop :=
  file_id f = unique_id env k ∧
  FileObj.uri (file_obj f) = url ∧
  Some (FileObj.size (file_obj f), FileObj.type (file_obj f))
  = prod_map id type_or_default <$> served env url n ∧
  file_permissions f = [ReadAny; WriteAny].

(** [w'] holds the same documents and files as [w], and the store has
    created nothing in between. *)
Definition same_store (w w' : World) : Prop :=
  documents w' = documents w ∧ files w' = files w ∧ created w' = created w.

(** The customization names of an item that resolve, each with the
    identifier it resolves to. *)
Definition resolvable (customizationMap : gmap string string)
    (names : list string) : list (string * Table.value) :=
  omap (fun cusName =>
          if missing customizationMap cusName then None
          else Some (cusName, Table.get customizationMap cusName))
    names.

(** Of requests numbered from [n] on, one per element of [l]: the
    elements whose request the store accepts, and those it rejects. *)
Fixpoint accepted {X} (env : Env) (n : nat) (l : list X) : list X :=
  match l with
  | [] => []
  | x :: l' =>
      if store_rejects env n then accepted env (S n) l'
      else x :: accepted env (S n) l'
  end.

Fixpoint rejected {X} (env : Env) (n : nat) (l : list X) : list X :=
  match l with
  | [] => []
  | x :: l' =>
      if store_rejects env n then x :: rejected env (S n) l'
      else rejected env (S n) l'
  end.

(** The join record of a menu document and a resolved customization. *)
Definition link_of (menu_id : string) (p : string * Table.value) : Payload :=
  DLink {| LinkDoc.menu := menu_id; LinkDoc.customizations := p.2 |}.

Definition warning_of (e : Event) : option string :=
  match e with
  | Console warn (CustomizationNotFound cusName) => Some cusName
  | _ => None
  end.

Definition link_failure_of (e : Event) : option string :=
  match e with
  | Console error (FailedMenuCustomization cusName _) => Some cusName
  | _ => None
  end.

(** The menu items whose record the run asked the store to create. *)
Definition menu_creation_of (e : Event) : option string :=
  match e with
  | Issued _ (CreateDocument _ (DMenu m)) => Some (MenuDoc.name m)
  | _ => None
  end.

Definition menu_creations (t : list Event) : list string := omap menu_creation_of t.

(** A run asked for the records of [L] if it completed, and for those of
    an initial part of [L] if it threw. *)
Definition creates_upto {A} (L : list string) (c : Completion A)
    (t : list Event) : Prop :=
  menu_creations t `prefix_of` L ∧ ((∃ a, c = Return a) → menu_creations t = L).

(** A run threw, having asked for records of an initial part of [L] only. *)
Definition fails_within {A} (L : list string) (c : Completion A)
    (t : list Event) : Prop :=
  (∃ e, c = Throw e) ∧ menu_creations t `prefix_of` L.

(** [m], run from any world, appends to the trace events [t] that, with
    its completion, satisfy [P]. *)
Definition emits {A} (m : M A) (P : Completion A → list Event → Prop) : Prop :=
  ∀ w, ∃ t, trace (m w).2 = trace w ++ t ∧ P (m w).1 t.

(** ** The logical content of the store

    What the store holds once the identifiers it assigned are looked
    through: every reference of a record is replaced by what it refers
    to, and a stored file counts for the image it is a copy of. *)

Inductive ImageRef :=
| Hosted (uri : string) (size : N) (type : string)
| Linked (url : string).

Module LogicalMenu.
Record t := {
  name : string;
  description : string;
  price : number;
  rating : number;
  calories : number;
  protein : number;
  category : Category.t;
  image : ImageRef;
}.
End LogicalMenu.

Module Logical.
Record t := {
  categories : list Category.t;
  customizations : list Customization.t;
  menu : list LogicalMenu.t;
  links : list (string * string);
  files : list (string * N * string);
}.
End Logical.

Definition file_represents (f : StoredFile) (l : string * N * string) : Prop :=
  FileObj.uri (file_obj f) = l.1.1 ∧
  FileObj.size (file_obj f) = l.1.2 ∧
  FileObj.type (file_obj f) = l.2.

Definition image_represents (cfg : AppwriteConfig) (env : Env) (w : World)
    (image_url : string) (img : ImageRef) : Prop :=
  match img with
  | Hosted uri size type =>
      ∃ f, f ∈ files_of w (bucketId cfg) ∧
           image_url = getFileView env (bucketId cfg) (file_id f) ∧
           file_represents f (uri, size, type)
  | Linked url => image_url = url
  end.

Definition menu_represents (cfg : AppwriteConfig) (env : Env) (w : World)
    (d : Document) (lm : LogicalMenu.t) : Prop :=
  ∃ m cd,
    doc_data d = DMenu m ∧
    MenuDoc.name m = LogicalMenu.name lm ∧
    MenuDoc.description m = LogicalMenu.description lm ∧
    MenuDoc.price m = LogicalMenu.price lm ∧
    MenuDoc.rating m = LogicalMenu.rating lm ∧
    MenuDoc.calories m = LogicalMenu.calories lm ∧
    MenuDoc.protein m = LogicalMenu.protein lm ∧
    cd ∈ docs_of w (categoriesCollectionId cfg) ∧
    MenuDoc.categories m = Table.Str (doc_id cd) ∧
    doc_data cd = DCategory (LogicalMenu.category lm) ∧
    image_represents cfg env w (MenuDoc.image_url m) (LogicalMenu.image lm).

(** A join record stands for the pair of the names of the menu item and
    of the customization it refers to. *)
Definition link_represents (cfg : AppwriteConfig) (w : World) (d : Document)
    (l : string * string) : Prop :=
  ∃ lk md m cd c,
    doc_data d = DLink lk ∧
    md ∈ docs_of w (menuCollectionId cfg) ∧
    doc_id md = LinkDoc.menu lk ∧
    doc_data md = DMenu m ∧
    MenuDoc.name m = l.1 ∧
    cd ∈ docs_of w (customizationsCollectionId cfg) ∧
    LinkDoc.customizations lk = Table.Str (doc_id cd) ∧
    doc_data cd = DCustomization c ∧
    Customization.name c = l.2.

(** The store of [w] holds the logical content [L], under identifiers
    that are unique within each collection and the bucket. *)
Definition represents (cfg : AppwriteConfig) (env : Env) (w : World)
    (L : Logical.t) : Prop :=
  doc_data <$> docs_of w (categoriesCollectionId cfg)
  = DCategory <$> Logical.categories L ∧
  doc_data <$> docs_of w (customizationsCollectionId cfg)
  = DCustomization <$> Logical.customizations L ∧
  Forall2 (menu_represents cfg env w) (docs_of w (menuCollectionId cfg))
    (Logical.menu L) ∧
  Forall2 (link_represents cfg w) (docs_of w (menuCustomizationsCollectionId cfg))
    (Logical.links L) ∧
  Forall2 file_represents (files_of w (bucketId cfg)) (Logical.files L) ∧
  NoDup (doc_id <$> docs_of w (categoriesCollectionId cfg)) ∧
  NoDup (doc_id <$> docs_of w (customizationsCollectionId cfg)) ∧
  NoDup (doc_id <$> docs_of w (menuCollectionId cfg)) ∧
  NoDup (doc_id <$> docs_of w (menuCustomizationsCollectionId cfg)) ∧
  NoDup (file_id <$> files_of w (bucketId cfg)).

(** *** The logical content a dataset stands for *)

(** The element a name-to-id table built over [xs] ends up pointing to:
    the last one of that name. *)
Definition named {X} (name_of : X → string) (xs : list X) (name : string) : option X :=
  last (filter (fun x => name_of x = name) xs).

(** An image can be copied to the bucket: an attempt on it goes through. *)
Definition uploadable (env : Env) (url : string) : bool := attempt_ok env url 0.

Definition expected_file (env : Env) (item : MenuItem.t)
    : option (string * N * string) :=
  if uploadable env (MenuItem.image_url item) then
    (fun p => (MenuItem.image_url item, p.1, type_or_default p.2))
      <$> served env (MenuItem.image_url item) 0
  else None.

Definition expected_image (env : Env) (item : MenuItem.t) : ImageRef :=
  match expected_file env item with
  | Some (uri, size, type) => Hosted uri size type
  | None => Linked (MenuItem.image_url item)
  end.

Definition expected_menu (env : Env) (cats : list Category.t) (item : MenuItem.t)
    : option LogicalMenu.t :=
  (fun c =>
     {| LogicalMenu.name := MenuItem.name item;
        LogicalMenu.description := MenuItem.description item;
        LogicalMenu.price := MenuItem.price item;
        LogicalMenu.rating := MenuItem.rating item;
        LogicalMenu.calories := MenuItem.calories item;
        LogicalMenu.protein := MenuItem.protein item;
        LogicalMenu.category := c;
        LogicalMenu.image := expected_image env item |})
    <$> named Category.name cats (MenuItem.category_name item).

(** The customization names of an item that the dataset has. *)
Definition resolvable_names (custs : list Customization.t) (item : MenuItem.t)
    : list string :=
  filter (fun c => c ∈ Customization.name <$> custs) (MenuItem.customizations item).

Definition expected_links (custs : list Customization.t) (item : MenuItem.t)
    : list (string * string) :=
  (fun c => (MenuItem.name item, c)) <$> resolvable_names custs item.

Definition expected (env : Env) (data : DummyData.t) : Logical.t :=
  {| Logical.categories := DummyData.categories data;
     Logical.customizations := DummyData.customizations data;
     Logical.menu :=
       omap (expected_menu env (DummyData.categories data)) (DummyData.menu data);
     Logical.links :=
       DummyData.menu data ≫= expected_links (DummyData.customizations data);
     Logical.files := omap (expected_file env) (DummyData.menu data) |}.

(** The document counts of a seeded store. *)
Definition seeded_counts (cfg : AppwriteConfig) (data : DummyData.t) (w : World)
    : Prop :=
  length (docs_of w (categoriesCollectionId cfg))
  = length (DummyData.categories data) ∧
  length (docs_of w (customizationsCollectionId cfg))
  = length (DummyData.customizations data) ∧
  length (docs_of w (menuCollectionId cfg)) = length (DummyData.menu data) ∧
  length (docs_of w (menuCustomizationsCollectionId cfg))
  = length (DummyData.menu data
              ≫= resolvable_names (DummyData.customizations data)).

(** The identifiers [ids] were assigned by the store, each once, before
    its [k]-th creation. *)
Definition identified (env : Env) (k : nat) (ids : list string) : Prop :=
  ∃ js, ids = unique_id env <$> js ∧ NoDup js ∧ Forall (fun j => j < k) js.

(** A table built over [xs] and the documents created for them. *)
Definition table_of {X} (env : Env) (name_of : X → string) (mk : X → Payload)
    (xs : list X) (table : gmap string string) (docs : list Document) : Prop :=
  doc_data <$> docs = mk <$> xs ∧
  ∀ name,
    match named name_of xs name with
    | Some x =>
        ∃ id, table !! name = Some id ∧ id ≠ "" ∧
              {| doc_id := id; doc_data := mk x |} ∈ docs
    | None => table !! name = None
    end.

(** From [w] to [w'] the store created one document, [data], in the
    collection [c], and nothing else changed. *)
Definition creates (env : Env) (c : string) (data : Payload) (w w' : World) : Prop :=
  docs_of w' c
  = docs_of w c ++ [{| doc_id := unique_id env (created w); doc_data := data |}] ∧
  (∀ c', c' ≠ c → docs_of w' c' = docs_of w c') ∧
  files w' = files w ∧
  created w' = S (created w).

(** The store in the course of the menu phase, the items [done] having
    been processed: the category and customization documents are those of
    the earlier phases, and the menu, join and file records stand for what
    [done] stands for. *)
Definition menu_phase (cfg : AppwriteConfig) (env : Env)
    (cats : list Category.t) (custs : list Customization.t)
    (Dcat Dcus : list Document) (done : list MenuItem.t) (w : World) : Prop :=
  docs_of w (categoriesCollectionId cfg) = Dcat ∧
  docs_of w (customizationsCollectionId cfg) = Dcus ∧
  Forall2 (menu_represents cfg env w) (docs_of w (menuCollectionId cfg))
    (omap (expected_menu env cats) done) ∧
  Forall2 (link_represents cfg w) (docs_of w (menuCustomizationsCollectionId cfg))
    (done ≫= expected_links custs) ∧
  Forall2 file_represents (files_of w (bucketId cfg))
    (omap (expected_file env) done) ∧
  identified env (created w) (doc_id <$> docs_of w (menuCollectionId cfg)) ∧
  identified env (created w)
    (doc_id <$> docs_of w (menuCustomizationsCollectionId cfg)) ∧
  identified env (created w) (file_id <$> files_of w (bucketId cfg)).

(** ** Vocabulary of the further properties *)

(** The attempts [attempt], [attempt + 1], ... of [k] rounds of the retry
    loop, with the wait that follows each of them but the last. *)
Fixpoint backoff (attempt k : nat) : list (nat + N) :=
  match k with
  | 0 => []
  | S k' =>
      inl attempt ::
      match k' with
      | 0 => []
      | S _ => inr (2 ^ N.of_nat attempt * 1000)%N :: backoff (S attempt) k'
      end
  end.

(** The error an attempt reports when its fetch ends as [r] without a
    usable image: the status is looked at before the body. *)
Definition fetch_error (r : FetchResult) : Error :=
  match r with
  | FetchRejects => NetworkError
  | FetchResponds r =>
      if ok r then
        match body r with
        | BodyRejects => NetworkError
        | _ => EmptyImageData
        end
      else HttpError (status r) (statusText r)
  end.

(** Of requests numbered from [n] on, [k] of them: the number of the
    first one the store rejects. *)
Fixpoint first_rejected (env : Env) (n k : nat) : option nat :=
  match k with
  | 0 => None
  | S k' => if store_rejects env n then Some n else first_rejected env (S n) k'
  end.

(** Of requests numbered from [n] on, [k] of them: the errors of those
    the store rejects, in the order the requests were issued. *)
Fixpoint rejections (env : Env) (n k : nat) : list Error :=
  match k with
  | 0 => []
  | S k' =>
      if store_rejects env n then StoreError n :: rejections env (S n) k'
      else rejections env (S n) k'
  end.

(** How a fan-out of [k] requests numbered from [n] on ends: fulfilled
    when the store rejects none of them, and else with the rejection that
    settles first. *)
Definition fan_result {A} (env : Env) (n k : nat) (c : Completion A) : Prop :=
  match rejections env n k with
  | [] => ∃ a, c = Return a
  | e :: errs => c = Throw (default e ((e :: errs) !! settles_first env (e :: errs)))
  end.

(** Of requests numbered from [n] on, one per element of [l]: the
    elements before the first rejection. *)
Fixpoint accepted_prefix {X} (env : Env) (n : nat) (l : list X) : list X :=
  match l with
  | [] => []
  | x :: l' =>
      if store_rejects env n then [] else x :: accepted_prefix env (S n) l'
  end.

(** The documents the store makes of [xs], created one after the other
    from its [k]-th creation on. *)
Fixpoint created_from {X} (env : Env) (mk : X → Payload) (k : nat) (xs : list X)
    : list Document :=
  match xs with
  | [] => []
  | x :: xs' =>
      {| doc_id := unique_id env k; doc_data := mk x |}
        :: created_from env mk (S k) xs'
  end.

(** The name a record goes by in the lookup tables of the seeder. *)
Definition record_name (d : Document) : option string :=
  match doc_data d with
  | DCategory c => Some (Category.name c)
  | DCustomization c => Some (Customization.name c)
  | DMenu m => Some (MenuDoc.name m)
  | DLink _ => None
  end.

(** The identifier of the last of [docs] that goes by [name]. *)
Definition last_named (docs : list Document) (name : string) : option string :=
  doc_id <$> last (filter (fun d => record_name d = Some name) docs).

(** The own key a table gets from the assignments [table[name] = id]
    made for [docs]: none under [__proto__], which an assignment does not
    make an own property of. *)
Definition assigned (docs : list Document) (name : string) : option string :=
  if bool_decide (name = "__proto__") then None else last_named docs name.

(** How many own keys a table gets from assignments under [names], one
    after the other. *)
Definition counted (names : list string) : nat :=
  length (remove_dups (filter (fun name => name ≠ "__proto__") names)).

(** The name of a menu record and what it has for a category. *)
Definition category_ref (d : Document) : option (string * Table.value) :=
  match doc_data d with
  | DMenu m => Some (MenuDoc.name m, MenuDoc.categories m)
  | _ => None
  end.

(** A run that got past the clear phase issued exactly the listings [L]. *)
Definition cleared {A} (L : list Request) (c : Completion A) (t : list Event) : Prop :=
  (∃ n r, Issued n r ∈ t ∧ phase_of r ≠ Clearing) → listings_of t = L.

(** The record a request asks the store to create, by phase and name;
    join records, which have no name, are left out. *)
Definition asked_of (e : Event) : option (Phase * string) :=
  match e with
  | Issued _ (CreateDocument _ (DCategory c)) => Some (Categories, Category.name c)
  | Issued _ (CreateDocument _ (DCustomization c)) =>
      Some (Customizations, Customization.name c)
  | Issued _ (CreateDocument _ (DMenu m)) => Some (MenuItems, MenuDoc.name m)
  | _ => None
  end.

Definition asked (t : list Event) : list (Phase * string) := omap asked_of t.

(** The records a dataset calls for, in its order. *)
Definition wanted (data : DummyData.t) : list (Phase * string) :=
  ((fun c => (Categories, Category.name c)) <$> DummyData.categories data)
  ++ ((fun c => (Customizations, Customization.name c))
        <$> DummyData.customizations data)
  ++ ((fun m => (MenuItems, MenuItem.name m)) <$> DummyData.menu data).

(** A run asked for the records [L] if it completed, and for an initial
    part of [L] if it threw. *)
Definition asks_upto {A} (L : list (Phase * string)) (c : Completion A)
    (t : list Event) : Prop :=
  asked t `prefix_of` L ∧ ((∃ a, c = Return a) → asked t = L).

(** The error a console line of the script reports with the context of
    the step that failed. *)
Definition context_error (m : Message) : option Error :=
  match m with
  | ErrorClearingCollection _ e | ErrorClearingStorage e
  | FailedCategory _ e | FailedCustomization _ e | FailedMenuItem _ e => Some e
  | _ => None
  end.

(** Where an error that a run of [t] throws comes from: a fatal request
    of [t] that the store rejected, or a category name of [names] that
    did not resolve. *)
Definition origin (env : Env) (names : list string) (e : Error)
    (t : list Event) : Prop :=
  (∃ n r, e = StoreError n ∧ Issued n r ∈ t ∧ fatal r = true ∧
          store_rejects env n = true)
  ∨ (∃ name, e = CategoryNotFound name ∧ name ∈ names).

(** Whatever the run throws has such an origin. *)
Definition raises {A} (env : Env) (names : list string) (c : Completion A)
    (t : list Event) : Prop :=
  ∀ e, c = Throw e → origin env names e t.

(** ... and was last reported on the console with its context. *)
Definition reports {A} (env : Env) (names : list string) (c : Completion A)
    (t : list Event) : Prop :=
  ∀ e, c = Throw e →
       origin env names e t ∧
       ∃ t0 msg, t = t0 ++ [Console error msg] ∧ context_error msg = Some e.

(** A menu record stands for an item of the dataset: it carries the
    item's fields, refers to a category record of the store that goes by
    the item's category name, and shows the item's image, hot-linked or
    from a file of the bucket that is a copy of it. *)
Definition stands_for (cfg : AppwriteConfig) (env : Env) (w : World)
    (md : Document) (item : MenuItem.t) : Prop :=
  ∃ cat img,
    menu_represents cfg env w md
      {| LogicalMenu.name := MenuItem.name item;
         LogicalMenu.description := MenuItem.description item;
         LogicalMenu.price := MenuItem.price item;
         LogicalMenu.rating := MenuItem.rating item;
         LogicalMenu.calories := MenuItem.calories item;
         LogicalMenu.protein := MenuItem.protein item;
         LogicalMenu.category := cat;
         LogicalMenu.image := img |} ∧
    Category.name cat = MenuItem.category_name item ∧
    (img = Linked (MenuItem.image_url item)
     ∨ ∃ size type, img = Hosted (MenuItem.image_url item) size type).

(** A join record links an item of [items] to one of the customizations
    it lists, both by records of the store. *)
Definition links_item (cfg : AppwriteConfig) (w : World) (items : list MenuItem.t)
    (ld : Document) : Prop :=
  ∃ item cusName,
    item ∈ items ∧ cusName ∈ MenuItem.customizations item ∧
    link_represents cfg w ld (MenuItem.name item, cusName).

(** Every name that resolves in [table] resolves to a record of [docs]
    that goes by that name. *)
Definition table_sound {X} (name_of : X → string) (mk : X → Payload)
    (table : gmap string string) (docs : list Document) : Prop :=
  ∀ name, plain name → missing table name = false →
          ∃ x id, Table.get table name = Table.Str id ∧
                  {| doc_id := id; doc_data := mk x |} ∈ docs ∧
                  name_of x = name.

(** ** A sample environment and dataset, for running the script *)

Module Sample.

(** A small stand-in for [new URL(u).pathname]: what follows the
    authority, up to the query or fragment; ["/"] when nothing does. *)
Fixpoint after_scheme (u : string) : option string :=
  match u with
  | EmptyString => None
  | String _ u' =>
      if String.prefix "://" u then Some (String.substring 3 (String.length u) u)
      else after_scheme u'
  end.

Fixpoint from_slash (u : string) : string :=
  match u with
  | EmptyString => "/"
  | String a u' => if Ascii.eqb a "/" then u else from_slash u'
  end.

Fixpoint until_query (u : string) : string :=
  match u with
  | EmptyString => EmptyString
  | String a u' =>
      if Ascii.eqb a "?" || Ascii.eqb a "#" then EmptyString
      else String a (until_query u')
  end.

Definition path_of_url (u : string) : option string :=
  match after_scheme u with
  | Some rest => Some (until_query (from_slash rest))
  | None => None
  end.

Definition view (cfg : AppwriteConfig) (bucket fileId : string) : string :=
  endpoint cfg +:+ "/storage/buckets/" +:+ bucket +:+ "/files/" +:+ fileId
    +:+ "/view?project=" +:+ projectId cfg.

(** Every request goes through and every image is served. *)
Definition online : Env :=
  {| store_rejects := fun _ => false;
     unique_id := fun k => "id" +:+ pretty k;
     fetch := fun _ _ =>
       FetchResponds {| ok := true; status := 200; statusText := "OK";
                        body := BodyBlob 2048 "image/png" |};
     pathname := path_of_url;
     getFileView := view sample_config;
     now := fun n => (1700000000000 + N.of_nat n)%N;
     random := fun _ => "k3j9x0abq";
     settles_first := fun _ => 0 |}.

(** The image host answers 503 to everything. *)
Definition unavailable : Env :=
  {| store_rejects := fun _ => false;
     unique_id := fun k => "id" +:+ pretty k;
     fetch := fun _ _ =>
       FetchResponds {| ok := false; status := 503;
                        statusText := "Service Unavailable"; body := BodyNull |};
     pathname := path_of_url;
     getFileView := view sample_config;
     now := fun n => (1700000000000 + N.of_nat n)%N;
     random := fun _ => "k3j9x0abq";
     settles_first := fun _ => 0 |}.

(** The store rejects its second request, and only that one. *)
Definition second_rejected : Env :=
  {| store_rejects := fun n => (n =? 1)%nat;
     unique_id := fun k => "id" +:+ pretty k;
     fetch := fun _ _ =>
       FetchResponds {| ok := true; status := 200; statusText := "OK";
                        body := BodyBlob 2048 "image/png" |};
     pathname := path_of_url;
     getFileView := view sample_config;
     now := fun n => (1700000000000 + N.of_nat n)%N;
     random := fun _ => "k3j9x0abq";
     settles_first := fun _ => 0 |}.

Definition empty_world : World :=
  {| documents := ∅; files := ∅; created := 0; requests := 0; trace := [] |}.

(** A store left over from elsewhere: two documents in the categories
    collection. *)
Definition stale_world : World :=
  {| documents :=
       {[ "categories" :=
            [ {| doc_id := "old1";
                 doc_data := DCategory {| Category.name := "Soups";
                                          Category.description := "Hot" |} |};
              {| doc_id := "old2";
                 doc_data := DCategory {| Category.name := "Wraps";
                                          Category.description := "Cold" |} |} ] ]};
     files := ∅; created := 0; requests := 0; trace := [] |}.

(** A decimal literal of the dataset, in hundredths. *)
Definition hundredths (n : Z) : number := QArith_base.Qmake n 100.

Definition margherita : MenuItem.t :=
  {| MenuItem.name := "Margherita";
     MenuItem.description := "Tomato, mozzarella, basil";
     MenuItem.image_url := "https://cdn.example/img/pizza.png";
     MenuItem.price := hundredths 1299;
     MenuItem.rating := hundredths 450;
     MenuItem.calories := hundredths 70000;
     MenuItem.protein := hundredths 3000;
     MenuItem.category_name := "Pizzas";
     MenuItem.customizations := ["Extra Cheese"; "Olives"] |}.

Definition cheeseburger : MenuItem.t :=
  {| MenuItem.name := "Cheeseburger";
     MenuItem.description := "Beef, cheddar";
     MenuItem.image_url := "cheeseburger.png";
     MenuItem.price := hundredths 1099;
     MenuItem.rating := hundredths 430;
     MenuItem.calories := hundredths 85000;
     MenuItem.protein := hundredths 4000;
     MenuItem.category_name := "Burgers";
     MenuItem.customizations := ["Bacon"] |}.

(** An item of a category the dataset does not have. *)
Definition caesar : MenuItem.t :=
  {| MenuItem.name := "Caesar";
     MenuItem.description := "Romaine, parmesan";
     MenuItem.image_url := "https://cdn.example/img/salad.png";
     MenuItem.price := hundredths 899;
     MenuItem.rating := hundredths 410;
     MenuItem.calories := hundredths 35000;
     MenuItem.protein := hundredths 1200;
     MenuItem.category_name := "Salads";
     MenuItem.customizations := [] |}.

Definition categories : list Category.t :=
  [ {| Category.name := "Pizzas"; Category.description := "Wood-fired" |};
    {| Category.name := "Burgers"; Category.description := "Grilled" |} ].

Definition customizations : list Customization.t :=
  [ {| Customization.name := "Extra Cheese"; Customization.price := hundredths 150;
       Customization.type := "topping" |};
    {| Customization.name := "Bacon"; Customization.price := hundredths 200;
       Customization.type := "topping" |} ].

Definition data : DummyData.t :=
  {| DummyData.categories := categories;
     DummyData.customizations := customizations;
     DummyData.menu := [margherita; cheeseburger] |}.

(** The same with the stray item between the two. *)
Definition data_with_stray : DummyData.t :=
  {| DummyData.categories := categories;
     DummyData.customizations := customizations;
     DummyData.menu := [margherita; caesar; cheeseburger] |}.

(** The store rejects its first request, and only that one. *)
Definition listing_rejected : Env :=
  {| store_rejects := fun n => (n =? 0)%nat;
     unique_id := fun k => "id" +:+ pretty k;
     fetch := fun _ _ => FetchRejects;
     pathname := path_of_url;
     getFileView := view sample_config;
     now := fun n => (1700000000000 + N.of_nat n)%N;
     random := fun _ => "k3j9x0abq";
     settles_first := fun _ => 0 |}.

(** The image host answers 503 to everything and the store rejects its
    fourteenth request, which in a run on [data] from [empty_world] is
    the first join record. *)
Definition flaky : Env :=
  {| store_rejects := fun n => (n =? 13)%nat;
     unique_id := fun k => "id" +:+ pretty k;
     fetch := fun _ _ =>
       FetchResponds {| ok := false; status := 503;
                        statusText := "Service Unavailable"; body := BodyNull |};
     pathname := path_of_url;
     getFileView := view sample_config;
     now := fun n => (1700000000000 + N.of_nat n)%N;
     random := fun _ => "k3j9x0abq";
     settles_first := fun _ => 0 |}.

(** The store rejects its second and third requests, and the later of
    the two rejections settles first. *)
Definition later_settles_first : Env :=
  {| store_rejects := fun n => (n =? 1)%nat || (n =? 2)%nat;
     unique_id := fun k => "id" +:+ pretty k;
     fetch := fun _ _ => FetchRejects;
     pathname := path_of_url;
     getFileView := view sample_config;
     now := fun n => (1700000000000 + N.of_nat n)%N;
     random := fun _ => "k3j9x0abq";
     settles_first := fun _ => 1 |}.

(** The store accepts everything; the image host serves its images up to
    the fifteenth request of the session, and answers 503 from then on. *)
Definition host_goes_down : Env :=
  {| store_rejects := fun _ => false;
     unique_id := fun k => "id" +:+ pretty k;
     fetch := fun n _ =>
       if (n <? 15)%nat then
         FetchResponds {| ok := true; status := 200; statusText := "OK";
                          body := BodyBlob 2048 "image/png" |}
       else
         FetchResponds {| ok := false; status := 503;
                          statusText := "Service Unavailable"; body := BodyNull |};
     pathname := path_of_url;
     getFileView := view sample_config;
     now := fun n => (1700000000000 + N.of_nat n)%N;
     random := fun _ => "k3j9x0abq";
     settles_first := fun _ => 0 |}.

(** A bucket left over from elsewhere: two files. *)
Definition stale_bucket : World :=
  {| documents := ∅;
     files :=
       {[ "assets" :=
            [ {| file_id := "f1";
                 file_obj :=
                   {| FileObj.name := "a.png"; FileObj.type := "image/png";
                      FileObj.size := 10;
                      FileObj.uri := "https://cdn.example/a.png" |};
                 file_permissions := [ReadAny; WriteAny] |};
              {| file_id := "f2";
                 file_obj :=
                   {| FileObj.name := "b.png"; FileObj.type := "image/png";
                      FileObj.size := 20;
                      FileObj.uri := "https://cdn.example/b.png" |};
                 file_permissions := [ReadAny; WriteAny] |} ] ]};
     created := 0; requests := 0; trace := [] |}.

(** The dataset with a category name used twice. *)
Definition data_repeated : DummyData.t :=
  {| DummyData.categories :=
       categories
         ++ [ {| Category.name := "Pizzas"; Category.description := "Pan" |} ];
     DummyData.customizations := customizations;
     DummyData.menu := [margherita; cheeseburger] |}.

(** An item whose category and first customization go by names of
    members every object inherits; the dataset has no category and no
    customization of these names. *)
Definition special : MenuItem.t :=
  {| MenuItem.name := "Special";
     MenuItem.description := "Ask the chef";
     MenuItem.image_url := "special.png";
     MenuItem.price := hundredths 1499;
     MenuItem.rating := hundredths 480;
     MenuItem.calories := hundredths 60000;
     MenuItem.protein := hundredths 2500;
     MenuItem.category_name := "constructor";
     MenuItem.customizations := ["toString"; "Bacon"] |}.

Definition data_with_inherited : DummyData.t :=
  {| DummyData.categories := categories;
     DummyData.customizations := customizations;
     DummyData.menu := [margherita; special] |}.

End Sample.

(** * Properties *)

(** ** String primitives *)

Section Strings.

Lemma app_nil (s : string) : "" +:+ s = s.
Proof. reflexivity. Qed.

Lemma app_cons (a : ascii) (p s : string) :
  String a p +:+ s = String a (p +:+ s).
Proof. reflexivity. Qed.

Lemma prefix_iff (p s : string) :
  String.prefix p s = true ↔ ∃ rest, s = p +:+ rest.
Proof.
  revert s; induction p as [|a p IH]; intros s.
  - split; [intros _; by exists s | by destruct s].
  - destruct s as [|b s]; simpl.
    + split; [done | intros [r Hr]; discriminate].
    + destruct (ascii_dec a b) as [->|Hne].
      * rewrite IH. split; intros [r Hr]; exists r;
          rewrite app_cons in *; congruence.
      * split; [done | intros [r Hr]; rewrite app_cons in Hr; congruence].
Qed.

Lemma includes_iff (s p : string) :
  JS.includes s p = true ↔ contains s p.
Proof.
  unfold contains. induction s as [|a s IH]; cbn [JS.includes].
  - rewrite orb_false_r, prefix_iff. split.
    + intros [r Hr]. by exists "", r.
    + intros (b & c & Hbc). destruct b; [by exists c |]. discriminate.
  - rewrite orb_true_iff, prefix_iff, IH. split.
    + intros [[r Hr] | (b & c & Hbc)].
      * by exists "", r.
      * exists (String a b), c. by rewrite app_cons, Hbc.
    + intros (b & c & Hbc). destruct b as [|a' b].
      * left. by exists c.
      * right. exists b, c. rewrite app_cons in Hbc. congruence.
Qed.

Lemma startsWith_scheme (url : string) :
  JS.startsWith url "http://" || JS.startsWith url "https://" = true
  ↔ has_scheme url.
Proof.
  unfold JS.startsWith, has_scheme.
  rewrite orb_true_iff, !prefix_iff.
  split; [intros [[r Hr]|[r Hr]]; exists r; auto |].
  intros [r [Hr|Hr]]; [left | right]; by exists r.
Qed.

Lemma truthy_iff (s : string) : JS.truthy s = true ↔ s ≠ "".
Proof. by destruct s. Qed.

End Strings.

(** ** The image-URL normaliser *)

Section Normaliser.
Variable cfg : AppwriteConfig.

Lemma getImageUrl_scheme (url : string) :
  has_scheme url → MenuCard.getImageUrl cfg url = url.
Proof.
  intros H. pose proof H as H'. apply startsWith_scheme in H'.
  unfold MenuCard.getImageUrl. rewrite H'.
  destruct url; [destruct H as [r [H|H]]; discriminate | done].
Qed.

Lemma getImageUrl_no_scheme (url : string) :
  url ≠ "" → ¬ has_scheme url →
  MenuCard.getImageUrl cfg url =
    if JS.includes url "/storage/buckets/" then with_project cfg url
    else if JS.includes url "/" then with_project cfg url
    else view_of_file cfg url.
Proof.
  intros Hne Hs. unfold MenuCard.getImageUrl.
  destruct (JS.startsWith url "http://" || JS.startsWith url "https://") eqn:E.
  { apply startsWith_scheme in E. contradiction. }
  destruct url as [|a u]; [done |]. cbn [JS.truthy negb].
  destruct (JS.includes (String a u) "/storage/buckets/"); [done |].
  destruct (JS.includes (String a u) "/"); done.
Qed.

End Normaliser.




(** C10: for the empty image reference [getImageUrl] returns the empty
    string, and the card shows the placeholder glyph whatever the error
    flag is. *)
Theorem getImageUrl_empty_placeholder (cfg : AppwriteConfig) :
  MenuCard.getImageUrl cfg "" = "" ∧
  ∀ imageError, MenuCard.imageSlot cfg "" imageError = MenuCard.PlaceholderGlyph.
Proof. split; [reflexivity | intros imageError; reflexivity]. Qed.

(** ** The upload routine *)

Section Upload.
Variable cfg : AppwriteConfig.
Variable env : Env.

Ltac unfold_upload :=
  unfold upload_attempt, upload_recover, fetch_image, createFile, store_call,
    issue, console, sleep, observe, when, throw, ret, bind, date_now,
    random_tag, try_catch.

(** An attempt shows in the trace as one attempt line, no wait and no
    failure report, however it ends. *)
Lemma upload_attempt_schedule (url : string) (a n : nat) (w : World) :
  ∃ t, trace (upload_attempt cfg env url a n w).2 = trace w ++ t ∧
       schedule_of t = [inl a] ∧ failures_of t = [].
Proof.
  unfold_upload. simpl.
  repeat case_match; simplify_eq; simpl; rewrite <- ?app_assoc;
    (eexists; split; [reflexivity | split; reflexivity]).
Qed.

(** One round of the loop whose attempt throws. *)
Lemma upload_round_fails (url : string) (a n : nat) (w w1 : World) (e : Error) :
  upload_attempt cfg env url a n w = (Throw e, w1) →
  ∃ w2 t,
    try_catch (let* v := upload_attempt cfg env url a n in ret (Some v))
      (upload_recover url a n) w
    = (Return (if (a =? n)%nat then Some url else None), w2) ∧
    trace w2 = trace w ++ t ∧
    schedule_of t =
      inl a :: (if (a =? n)%nat then [] else [inr (2 ^ N.of_nat a * 1000)%N]) ∧
    failures_of t = [(a, e)].
Proof.
  intros Hw. destruct (upload_attempt_schedule url a n w) as (t & Ht & Hs & Hf).
  rewrite Hw in Ht. simpl in Ht.
  unfold try_catch, bind at 1. rewrite Hw.
  unfold upload_recover, console, sleep, observe, ret, bind. simpl.
  destruct (a =? n)%nat;
    eexists _, _; (split; [reflexivity |]); simpl; rewrite Ht, <- !app_assoc;
    (split; [reflexivity |]); unfold schedule_of, failures_of;
    rewrite !omap_app; fold (schedule_of t) (failures_of t);
    rewrite Hs, Hf; split; reflexivity.
Qed.

(** An invalid URL fails the attempt at the validation, with nothing but
    the attempt line written. *)
Lemma upload_attempt_invalid (url : string) (a n : nat) (w : World) :
  url = "" ∨ ¬ (∃ rest, url = "http" +:+ rest) →
  upload_attempt cfg env url a n w
  = (Throw (InvalidImageUrl url),
     add_event (Console log (UploadingImage a n url)) w).
Proof.
  intros H. unfold upload_attempt, JS.startsWith.
  assert (negb (JS.truthy url) || negb (String.prefix "http" url) = true) as ->.
  { destruct H as [-> | H]; [done |].
    destruct (String.prefix "http" url) eqn:E; [| by rewrite orb_true_r].
    apply prefix_iff in E. contradiction. }
  reflexivity.
Qed.

End Upload.

(** C1: when every attempt on an image URL fails, [uploadImageToStorage]
    makes exactly three attempts, waits 2^1 then 2^2 seconds between them
    (none after the last), throws nothing and returns the URL it was
    given. *)
Theorem upload_all_attempts_fail (cfg : AppwriteConfig) (env : Env)
    (url : string) (w : World) :
  (∀ attempt w0, ∃ e, (upload_attempt cfg env url attempt 3 w0).1 = Throw e) →
  ∃ w' t,
    uploadImageToStorage cfg env url 3 w = (Return url, w') ∧
    trace w' = trace w ++ t ∧
    schedule_of t
      = [inl 1; inr (2 ^ 1 * 1000)%N; inl 2; inr (2 ^ 2 * 1000)%N; inl 3] ∧
    (failures_of t).*1 = [1; 2; 3].
Proof.
  intros Hfail.
  assert (Hthrow : ∀ a w0, ∃ e w1, upload_attempt cfg env url a 3 w0 = (Throw e, w1)).
  { intros a w0. destruct (Hfail a w0) as [e He].
    exists e, (upload_attempt cfg env url a 3 w0).2.
    rewrite <- He. by destruct (upload_attempt cfg env url a 3 w0). }
  destruct (Hthrow 1 w) as (e1 & w1 & H1).
  destruct (upload_round_fails cfg env url 1 3 w w1 e1 H1) as (w2 & t1 & R1 & T1 & S1 & F1).
  destruct (Hthrow 2 w2) as (e2 & w3 & H2).
  destruct (upload_round_fails cfg env url 2 3 w2 w3 e2 H2) as (w4 & t2 & R2 & T2 & S2 & F2).
  destruct (Hthrow 3 w4) as (e3 & w5 & H3).
  destruct (upload_round_fails cfg env url 3 3 w4 w5 e3 H3) as (w6 & t3 & R3 & T3 & S3 & F3).
  exists w6, (t1 ++ t2 ++ t3). split; [| split; [| split]].
  - unfold uploadImageToStorage. cbn [upload_loop Nat.leb].
    unfold bind at 1. rewrite R1. cbn [Nat.eqb].
    unfold bind at 1. rewrite R2. cbn [Nat.eqb].
    unfold bind at 1. rewrite R3. reflexivity.
  - rewrite T3, T2, T1, <- !app_assoc. reflexivity.
  - unfold schedule_of in *. rewrite !omap_app, S1, S2, S3. reflexivity.
  - unfold failures_of in *. rewrite !omap_app, F1, F2, F3. reflexivity.
Qed.

Lemma upload_all_attempts_fail_witness :
  ∃ w' t,
    uploadImageToStorage sample_config Sample.unavailable
      "https://cdn.example/img/pizza.png" 3 Sample.empty_world = (Return "https://cdn.example/img/pizza.png", w') ∧
    trace w' = trace Sample.empty_world ++ t ∧
    schedule_of t
      = [inl 1; inr (2 ^ 1 * 1000)%N; inl 2; inr (2 ^ 2 * 1000)%N; inl 3] ∧
    (failures_of t).*1 = [1; 2; 3].
Proof.
  apply (upload_all_attempts_fail sample_config Sample.unavailable
           "https://cdn.example/img/pizza.png" Sample.empty_world).
  intros attempt w0. eexists. reflexivity.
Defined.

(** C5 (amended): an input that is empty or does not begin with [http]
    fails the validation of each attempt, no request at all is issued, and
    the routine returns the input unchanged without throwing. *)
Theorem upload_invalid_url (cfg : AppwriteConfig) (env : Env)
    (url : string) (w : World) :
  url = "" ∨ ¬ (∃ rest, url = "http" +:+ rest) →
  ∃ w' t,
    uploadImageToStorage cfg env url 3 w = (Return url, w') ∧
    trace w' = trace w ++ t ∧
    requests_of t = [] ∧
    failures_of t = [(1, InvalidImageUrl url); (2, InvalidImageUrl url);
                     (3, InvalidImageUrl url)] ∧
    requests w' = requests w ∧
    documents w' = documents w ∧
    files w' = files w.
Proof.
  intros H. unfold uploadImageToStorage. cbn [upload_loop Nat.leb].
  unfold try_catch, bind, upload_recover, console, sleep, observe, ret, bind.
  repeat (rewrite (upload_attempt_invalid cfg env url _ _ _ H); simpl).
  eexists _, _. split; [reflexivity |]. simpl. rewrite <- !app_assoc.
  split; [reflexivity |]. repeat split; reflexivity.
Qed.

Lemma upload_invalid_url_witness :
  ∃ w' t,
    uploadImageToStorage sample_config Sample.online "ftp://host/pizza.png" 3
      Sample.empty_world = (Return "ftp://host/pizza.png", w') ∧
    trace w' = trace Sample.empty_world ++ t ∧
    requests_of t = [] ∧
    failures_of t = [(1, InvalidImageUrl "ftp://host/pizza.png");
                     (2, InvalidImageUrl "ftp://host/pizza.png");
                     (3, InvalidImageUrl "ftp://host/pizza.png")] ∧
    requests w' = requests Sample.empty_world ∧
    documents w' = documents Sample.empty_world ∧
    files w' = files Sample.empty_world.
Proof.
  apply (upload_invalid_url sample_config Sample.online "ftp://host/pizza.png"
           Sample.empty_world).
  right. intros [rest Hrest]. discriminate Hrest.
Defined.

(** C5 as stated fails at an input that begins with [http] and with no
    network scheme: it passes the validation, and each of the three
    attempts issues a fetch. *)
Lemma upload_invalid_url_counterexample :
  let url := "httpx://h/a.png" in
  let r := uploadImageToStorage sample_config Sample.unavailable url 3
             Sample.empty_world in
  ¬ has_scheme url ∧
  r.1 = Return url ∧
  requests_of (trace r.2) = [Fetch url; Fetch url; Fetch url].
Proof.
  cbv zeta. split.
  - intros [rest [H | H]]; discriminate H.
  - split; vm_compute; reflexivity.
Qed.

(** ** The file extension of an upload *)

Section Extension.

Lemma split_no_separator (c : ascii) (s : string) :
  ¬ contains s (String c EmptyString) → JS.split c s = [s].
Proof.
  induction s as [|a s IH]; intros Hc; [done |]. cbn [JS.split].
  destruct (Ascii.eqb a c) eqn:E.
  - apply Ascii.eqb_eq in E as ->. exfalso. apply Hc. by exists "", s.
  - rewrite IH; [done |]. intros (b & d & ->). apply Hc.
    by exists (String a b), d.
Qed.

(** Without a dot in the path nothing is split off: the "extension" is
    the whole path in lower case, and the default is not taken. *)
Lemma extension_of_no_dot (urlPath : string) :
  urlPath ≠ "" → ¬ contains urlPath "." →
  extension_of urlPath = JS.toLowerCase urlPath.
Proof.
  intros Hne Hc. unfold extension_of. rewrite split_no_separator by done.
  cbn [JS.pop last]. by destruct urlPath.
Qed.

End Extension.

(** C6 (the code at the failing input): for an image whose URL path
    [/images/photo] has no extension, the extension computed is the whole
    path, not [jpg], and the file is stored under a name ending in
    [./images/photo]. *)
Theorem upload_extension_without_dot :
  pathname Sample.online "https://cdn.example/images/photo" = Some "/images/photo" ∧
  extension_of "/images/photo" = "/images/photo" ∧
  requests_of
    (trace (uploadImageToStorage sample_config Sample.online
              "https://cdn.example/images/photo" 3 Sample.empty_world).2)
  = [Fetch "https://cdn.example/images/photo";
     CreateFile "assets"
       {| FileObj.name := "1700000000001-k3j9x0abq./images/photo";
          FileObj.type := "image/png";
          FileObj.size := 2048;
          FileObj.uri := "https://cdn.example/images/photo" |}].
Proof. repeat split; vm_compute; reflexivity. Qed.

(** ** Reasoning about what a computation adds to the trace *)

Section Emits.
Context {A B : Type}.

Lemma emits_ret (a : A) (P : Completion A → list Event → Prop) :
  P (Return a) [] → emits (ret a) P.
Proof. intros H w. exists []. by rewrite app_nil_r. Qed.

Lemma emits_throw (e : Error) (P : Completion A → list Event → Prop) :
  P (Throw e) [] → emits (throw e) P.
Proof. intros H w. exists []. by rewrite app_nil_r. Qed.

Lemma emits_bind (m : M A) (k : A → M B) (P : Completion A → list Event → Prop)
    (Q : A → Completion B → list Event → Prop)
    (R : Completion B → list Event → Prop) :
  emits m P →
  (∀ a, emits (k a) (Q a)) →
  (∀ a t1 c t2, P (Return a) t1 → Q a c t2 → R c (t1 ++ t2)) →
  (∀ e t1, P (Throw e) t1 → R (Throw e) t1) →
  emits (bind m k) R.
Proof.
  intros Hm Hk Hok Herr w. unfold bind.
  destruct (Hm w) as (t1 & Ht1 & HP). destruct (m w) as [[a|e] w1]; simpl in *.
  - destruct (Hk a w1) as (t2 & Ht2 & HQ). exists (t1 ++ t2).
    rewrite Ht2, Ht1, app_assoc. eauto.
  - exists t1. eauto.
Qed.

Lemma emits_try_catch (m : M A) (h : Error → M A)
    (P : Completion A → list Event → Prop)
    (Q : Error → Completion A → list Event → Prop)
    (R : Completion A → list Event → Prop) :
  emits m P →
  (∀ e, emits (h e) (Q e)) →
  (∀ a t1, P (Return a) t1 → R (Return a) t1) →
  (∀ e t1 c t2, P (Throw e) t1 → Q e c t2 → R c (t1 ++ t2)) →
  emits (try_catch m h) R.
Proof.
  intros Hm Hh Hok Herr w. unfold try_catch.
  destruct (Hm w) as (t1 & Ht1 & HP). destruct (m w) as [[a|e] w1]; simpl in *.
  - exists t1. eauto.
  - destruct (Hh e w1) as (t2 & Ht2 & HQ). exists (t1 ++ t2).
    rewrite Ht2, Ht1, app_assoc. eauto.
Qed.

(** The same, the continuation being considered only where [m] has
    returned. *)
Lemma emits_bind_run (m : M A) (k : A → M B) (P : Completion A → list Event → Prop)
    (Q : A → Completion B → list Event → Prop)
    (R : Completion B → list Event → Prop) :
  emits m P →
  (∀ a w w1 t1, m w = (Return a, w1) → P (Return a) t1 → emits (k a) (Q a)) →
  (∀ a t1 c t2, P (Return a) t1 → Q a c t2 → R c (t1 ++ t2)) →
  (∀ e t1, P (Throw e) t1 → R (Throw e) t1) →
  emits (bind m k) R.
Proof.
  intros Hm Hk Hok Herr w. unfold bind.
  destruct (Hm w) as (t1 & Ht1 & HP). destruct (m w) as [[a|e] w1] eqn:E; simpl in *.
  - destruct (Hk a w w1 t1 E HP w1) as (t2 & Ht2 & HQ). exists (t1 ++ t2).
    rewrite Ht2, Ht1, app_assoc. eauto.
  - exists t1. eauto.
Qed.

Lemma emits_weaken (m : M A) (P Q : Completion A → list Event → Prop) :
  emits m P → (∀ c t, P c t → Q c t) → emits m Q.
Proof. intros Hm HPQ w. destruct (Hm w) as (t & ? & ?). eauto. Qed.

End Emits.

Lemma emits_observe (e : Event) (P : Completion unit → list Event → Prop) :
  P (Return tt) [e] → emits (observe e) P.
Proof. intros H w. by exists [e]. Qed.

Lemma emits_console (lvl : Level) (m : Message)
    (P : Completion unit → list Event → Prop) :
  P (Return tt) [Console lvl m] → emits (console lvl m) P.
Proof. apply emits_observe. Qed.

Lemma emits_when (b : bool) (m : M unit) (P : Completion unit → list Event → Prop) :
  (b = true → emits m P) → (b = false → P (Return tt) []) → emits (when b m) P.
Proof. destruct b; simpl; intros H1 H2; [auto | apply emits_ret; auto]. Qed.

(** A loop emits what its iterations emit, one after the other, as long as
    none throws. *)
Lemma emits_for_of {A T} (body : T → A → M T) (xs : list A)
    (I : list Event → Prop) :
  I [] →
  (∀ t1 t2, I t1 → I t2 → I (t1 ++ t2)) →
  (∀ s x, emits (body s x) (fun _ t => I t)) →
  ∀ s, emits (for_of body xs s) (fun _ t => I t).
Proof.
  intros Hnil Happ Hbody. induction xs as [|x xs IH]; intros s; simpl.
  - by apply emits_ret.
  - eapply emits_bind; [apply Hbody | intros s'; apply IH | |]; simpl; eauto.
Qed.

(** ** Lists of events *)

Lemma app_eq_at {X} (t1 t2 l1 l2 : list X) (x : X) :
  t1 ++ t2 = l1 ++ x :: l2 →
  (∃ l, t1 = l1 ++ x :: l ∧ l2 = l ++ t2) ∨ (∃ l, t2 = l ++ x :: l2 ∧ l1 = t1 ++ l).
Proof.
  intros H. apply app_eq_inv in H as [(k & -> & Hk) | (k & -> & ->)].
  - destruct k as [|y k]; simpl in Hk.
    + subst t2. right. exists []. by rewrite !app_nil_r.
    + left. exists k. by simplify_eq.
  - right. by exists k.
Qed.

Lemma requests_of_app (t1 t2 : list Event) :
  requests_of (t1 ++ t2) = requests_of t1 ++ requests_of t2.
Proof. apply omap_app. Qed.

Lemma requests_of_issued (t1 t2 : list Event) (n : nat) (r : Request) :
  requests_of (t1 ++ Issued n r :: t2) = requests_of t1 ++ r :: requests_of t2.
Proof. by rewrite requests_of_app. Qed.

Lemma in_phase_nil (p : Phase) : in_phase p [].
Proof. constructor. Qed.

Lemma in_phase_app (p : Phase) (t1 t2 : list Event) :
  in_phase p t1 → in_phase p t2 → in_phase p (t1 ++ t2).
Proof. unfold in_phase. rewrite requests_of_app. apply Forall_app_2. Qed.

Lemma in_phase_quiet (p : Phase) (t : list Event) :
  requests_of t = [] → in_phase p t.
Proof. unfold in_phase. intros ->. constructor. Qed.

(** ** Aborting at the first fatal rejection *)

Section Abort.
Variable env : Env.

Lemma aborts_quiet {A} (c : Completion A) (t : list Event) :
  requests_of t = [] → aborts_at_first_fatal env c t.
Proof.
  intros Hq t1 n r t2 ->. rewrite requests_of_issued in Hq.
  by destruct (requests_of t1).
Qed.

Lemma aborts_return_any {A B} (a : A) (c : Completion B) (t : list Event) :
  aborts_at_first_fatal env (Return a) t → aborts_at_first_fatal env c t.
Proof.
  intros H t1 n r t2 Ht Hf Hr. destruct (H t1 n r t2 Ht Hf Hr) as [[e He] _].
  discriminate.
Qed.

Lemma aborts_throw_any {A B} (e e' : Error) (t : list Event) :
  aborts_at_first_fatal env (Throw (A:=A) e) t →
  aborts_at_first_fatal env (Throw (A:=B) e') t.
Proof.
  intros H t1 n r t2 Ht Hf Hr. destruct (H t1 n r t2 Ht Hf Hr) as [_ Htail].
  split; [by exists e' | done].
Qed.

Lemma aborts_app_return {A B} (a : A) (c : Completion B) (t1 t2 : list Event) :
  aborts_at_first_fatal env (Return a) t1 →
  aborts_at_first_fatal env c t2 →
  aborts_at_first_fatal env c (t1 ++ t2).
Proof.
  intros H1 H2 l1 n r l2 Ht Hf Hr.
  apply app_eq_at in Ht as [(l & -> & ->) | (l & -> & ->)].
  - destruct (H1 l1 n r l eq_refl Hf Hr) as [[e He] _]. discriminate.
  - by apply (H2 l n r l2).
Qed.

Lemma aborts_app_quiet {A B} (e e' : Error) (t1 t2 : list Event) :
  aborts_at_first_fatal env (Throw (A:=A) e) t1 →
  requests_of t2 = [] →
  aborts_at_first_fatal env (Throw (A:=B) e') (t1 ++ t2).
Proof.
  intros H1 Hq l1 n r l2 Ht Hf Hr. split; [by exists e' |].
  apply app_eq_at in Ht as [(l & -> & ->) | (l & -> & ->)].
  - destruct (H1 l1 n r l eq_refl Hf Hr) as [_ Htail].
    by rewrite requests_of_app, Hq, app_nil_r.
  - rewrite requests_of_issued in Hq. by destruct (requests_of l).
Qed.

Lemma aborts_nonfatal {A} (c : Completion A) (t : list Event) :
  Forall (fun r => fatal r = false) (requests_of t) →
  aborts_at_first_fatal env c t.
Proof.
  intros H t1 n r t2 -> Hf Hr. rewrite requests_of_issued in H.
  apply Forall_elt in H. congruence.
Qed.

Lemma aborts_one_request {A} (r : Request) (c : Completion A) (t : list Event) :
  one_request env r c t → aborts_at_first_fatal env c t.
Proof.
  intros (n & -> & Hn) t1 n' r' t2 Ht Hf Hr.
  destruct t1 as [|x t1]; simplify_eq/=; [| by destruct t1].
  split; [auto | constructor].
Qed.

Lemma aborts_deletions {A} (c : Completion A) (t : list Event) :
  deletions env c t → aborts_at_first_fatal env c t.
Proof.
  intros [Hdel Hok] t1 n r t2 -> Hf Hr. rewrite requests_of_issued in Hdel.
  apply Forall_app in Hdel as [_ Hdel]. apply Forall_cons in Hdel as [Hr' Hdel].
  split.
  - destruct c as [a|e]; [| by exists e].
    rewrite (Hok (ex_intro _ a eq_refl) n r) in Hr; [done |].
    apply elem_of_app. right. left.
  - eapply Forall_impl; [exact Hdel | done].
Qed.

Lemma phase_run_app_return {A B} (p : Phase) (a : A) (c : Completion B)
    (t1 t2 : list Event) :
  phase_run env p (Return a) t1 → phase_run env p c t2 →
  phase_run env p c (t1 ++ t2).
Proof.
  intros [? ?] [? ?]. split; [by apply in_phase_app | by eapply aborts_app_return].
Qed.

Lemma phase_run_quiet {A} (p : Phase) (c : Completion A) (t : list Event) :
  requests_of t = [] → phase_run env p c t.
Proof. intros H. split; [by apply in_phase_quiet | by apply aborts_quiet]. Qed.

Lemma phase_run_rethrow {A B} (p : Phase) (e e' : Error) (t1 t2 : list Event) :
  phase_run env p (Throw (A:=A) e) t1 → requests_of t2 = [] →
  phase_run env p (Throw (A:=B) e') (t1 ++ t2).
Proof.
  intros [? ?] Hq. split.
  - apply in_phase_app; [done | by apply in_phase_quiet].
  - by eapply aborts_app_quiet.
Qed.

End Abort.

(** ** The phases of the script, function by function *)

Section Phases.
Variable cfg : AppwriteConfig.
Variable env : Env.

Local Ltac one_request_tac :=
  let w := fresh "w" in
  intros w;
  unfold listDocuments, deleteDocument, createDocument, listFiles, deleteFile,
    createFile, store_call, issue, throw, ret, bind;
  simpl;
  destruct (store_rejects env (requests w)) eqn:?; simpl;
  (eexists; split; [reflexivity |]);
  eexists; (split; [reflexivity |]); intros; eauto; congruence.

Lemma emits_listDocuments (c : string) :
  emits (listDocuments env c) (one_request env (ListDocuments c)).
Proof. one_request_tac. Qed.

Lemma emits_deleteDocument (c id : string) :
  emits (deleteDocument env c id) (one_request env (DeleteDocument c id)).
Proof. one_request_tac. Qed.

Lemma emits_createDocument (c : string) (data : Payload) :
  emits (createDocument env c data) (one_request env (CreateDocument c data)).
Proof. one_request_tac. Qed.

Lemma emits_listFiles (b : string) :
  emits (listFiles env b) (one_request env (ListFiles b)).
Proof. one_request_tac. Qed.

Lemma emits_deleteFile (b id : string) :
  emits (deleteFile env b id) (one_request env (DeleteFile b id)).
Proof. one_request_tac. Qed.

Lemma emits_createFile (b : string) (f : FileObj.t) (ps : list Permission) :
  emits (createFile env b f ps) (one_request env (CreateFile b f)).
Proof. one_request_tac. Qed.

Lemma emits_fetch_image (url : string) :
  emits (fetch_image env url) (fun _ t => ∃ n, t = [Issued n (Fetch url)]).
Proof.
  intros w. unfold fetch_image, issue, throw, ret, bind. simpl.
  exists [Issued (requests w) (Fetch url)].
  destruct (fetch env (requests w) url); simpl; eauto.
Qed.

(** *** Rules for a stretch within one phase *)

Lemma phase_one_request {A} (p : Phase) (r : Request) (m : M A) :
  phase_of r = p → emits m (one_request env r) → emits m (phase_run env p).
Proof.
  intros Hp Hm. eapply emits_weaken; [exact Hm |]. intros c t H. split.
  - destruct H as (n & -> & _). by repeat constructor.
  - by eapply aborts_one_request.
Qed.

Lemma phase_bind {A B} (p : Phase) (m : M A) (k : A → M B) :
  emits m (phase_run env p) → (∀ a, emits (k a) (phase_run env p)) →
  emits (bind m k) (phase_run env p).
Proof.
  intros Hm Hk. eapply emits_bind; [exact Hm | exact Hk | |].
  - intros a t1 c t2. apply phase_run_app_return.
  - intros e t1 [? ?]. split; [done | by eapply aborts_throw_any].
Qed.

Lemma phase_console (p : Phase) (lvl : Level) (msg : Message) :
  emits (console lvl msg) (phase_run env p).
Proof. apply emits_console. by apply phase_run_quiet. Qed.

Lemma phase_ret {A} (p : Phase) (a : A) : emits (ret a) (phase_run env p).
Proof. apply emits_ret. by apply phase_run_quiet. Qed.

Lemma phase_throw {A} (p : Phase) (e : Error) :
  emits (throw (A:=A) e) (phase_run env p).
Proof. apply emits_throw. by apply phase_run_quiet. Qed.

(** [try { m } catch (e) { console.error(..); throw e }] *)
Lemma phase_rethrow {A} (p : Phase) (m : M A) (msg : Error → Message) :
  emits m (phase_run env p) →
  emits (try_catch m (fun e => console error (msg e);; throw e)) (phase_run env p).
Proof.
  intros Hm.
  eapply (emits_try_catch _ _ _
            (fun e c t => c = Throw e ∧ t = [Console error (msg e)]));
    [exact Hm | | done |].
  - intros e w. exists [Console error (msg e)]. done.
  - intros e t1 c t2 H [-> ->]. by eapply phase_run_rethrow.
Qed.

Lemma phase_for_of {A T} (p : Phase) (body : T → A → M T) (xs : list A) :
  (∀ s x, emits (body s x) (phase_run env p)) →
  ∀ s, emits (for_of body xs s) (phase_run env p).
Proof.
  intros Hbody. induction xs as [|x xs IH]; intros s; simpl.
  - apply phase_ret.
  - apply phase_bind; [apply Hbody | intros s'; apply IH].
Qed.

Lemma phase_for_index {A T} (p : Phase) (body : nat → T → A → M T) (xs : list A) :
  (∀ i s x, emits (body i s x) (phase_run env p)) →
  ∀ i s, emits (for_index body i xs s) (phase_run env p).
Proof.
  intros Hbody. induction xs as [|x xs IH]; intros i s; simpl.
  - apply phase_ret.
  - apply phase_bind; [apply Hbody | intros s'; apply IH].
Qed.

(** Harmless requests make a stretch of their phase whatever comes of them. *)
Lemma phase_harmless {A} (p : Phase) (m : M A) :
  emits m (fun _ t => harmless p t) → emits m (phase_run env p).
Proof.
  intros Hm. eapply emits_weaken; [exact Hm |].
  intros c t [? ?]. split; [done | by apply aborts_nonfatal].
Qed.

End Phases.

(** ** The clear phase: fan-out deletions *)

Section Clear.
Variable cfg : AppwriteConfig.
Variable env : Env.

Lemma deletions_one_request {A} (r : Request) (c : Completion A) (t : list Event) :
  is_delete r = true → one_request env r c t → deletions env c t.
Proof.
  intros Hr (n & -> & Hn). split; [by repeat constructor |].
  intros [a ->] n' r' Hin. apply list_elem_of_singleton in Hin.
  injection Hin as -> ->.
  destruct (store_rejects env n) eqn:E; [| done].
  destruct (Hn eq_refl) as [e He]. discriminate.
Qed.

(** What the promises of a [Promise.all] leave in the trace, one after
    the other, and what each settles to. *)
Lemma start_all_emits {A} (ms : list (M A)) (P : Completion A → list Event → Prop) :
  Forall (fun m => emits m P) ms →
  ∀ w, ∃ ts, trace (start_all ms w).2 = trace w ++ concat ts ∧
             Forall2 P (start_all ms w).1 ts.
Proof.
  induction 1 as [|m ms Hm _ IH]; intros w; simpl.
  - exists []. by rewrite app_nil_r.
  - destruct (Hm w) as (t1 & Ht1 & H1). destruct (m w) as [c1 w1]. simpl in *.
    destruct (IH w1) as (ts & Hts & H2).
    destruct (start_all ms w1) as [cs w2]. simpl in *.
    exists (t1 :: ts). simpl. rewrite Hts, Ht1, app_assoc. split; [done |].
    by constructor.
Qed.

(** How a [Promise.all] ends, from what its promises settle to. *)
Lemma promise_all_settled {A} (ms : list (M A)) (w : World) :
  (promise_all env ms w).2 = (start_all ms w).2 ∧
  ((Forall (fun c => ∃ a, c = Return a) (start_all ms w).1 ∧
    ∃ l, (promise_all env ms w).1 = Return l)
   ∨ ∃ e, (promise_all env ms w).1 = Throw e ∧ Throw e ∈ (start_all ms w).1).
Proof.
  unfold promise_all. destruct (start_all ms w) as [cs w']. simpl.
  assert (∀ e, e ∈ omap rejection cs → Throw (A:=A) e ∈ cs) as Hin.
  { intros e He. apply list_elem_of_omap in He as (c & Hc & He).
    destruct c as [a|e']; [discriminate |]. by injection He as ->. }
  destruct (omap rejection cs) as [|e errs] eqn:Hrej.
  - split; [done |]. left. split; [| by eexists].
    apply Forall_forall. intros c Hc. destruct c as [a|e]; [by eexists |].
    assert (e ∈ omap rejection cs) as He.
    { apply list_elem_of_omap. by exists (Throw e). }
    rewrite Hrej in He. by apply elem_of_nil in He.
  - split; [done |]. right. eexists. split; [reflexivity |]. apply Hin.
    destruct ((e :: errs) !! settles_first env (e :: errs)) as [e'|] eqn:Hl.
    + simpl. by apply list_elem_of_lookup_2 in Hl.
    + simpl. by left.
Qed.

Lemma promise_all_eq {A} (ms : list (M A)) (w : World) :
  promise_all env ms w
  = (match omap rejection (start_all ms w).1 with
     | [] => Return (omap fulfilment (start_all ms w).1)
     | e :: errs => Throw (default e ((e :: errs) !! settles_first env (e :: errs)))
     end,
     (start_all ms w).2).
Proof.
  unfold promise_all. destruct (start_all ms w) as [cs w']. simpl.
  by destruct (omap rejection cs).
Qed.

Lemma promise_all_returned {A} (ms : list (M A)) (w : World) :
  Forall (fun c => ∃ a, c = Return a) (start_all ms w).1 →
  promise_all env ms w
  = (Return (omap fulfilment (start_all ms w).1), (start_all ms w).2).
Proof.
  unfold promise_all. destruct (start_all ms w) as [cs w']. simpl. intros Hall.
  assert (omap rejection cs = []) as ->; [| done].
  induction Hall as [|c cs [a ->] _ IH]; [done | exact IH].
Qed.

Lemma emits_promise_all {A} (ms : list (M A)) (P : Completion A → list Event → Prop)
    (Q : Completion (list A) → list Event → Prop) :
  Forall (fun m => emits m P) ms →
  (∀ cs ts l, Forall2 P cs ts → Forall (fun c => ∃ a, c = Return a) cs →
              Q (Return l) (concat ts)) →
  (∀ cs ts e, Forall2 P cs ts → Throw e ∈ cs → Q (Throw e) (concat ts)) →
  emits (promise_all env ms) Q.
Proof.
  intros Hms Hret Hthrow w.
  destruct (start_all_emits ms P Hms w) as (ts & Ht & HP).
  destruct (promise_all_settled ms w) as (Hw & Hcase).
  exists (concat ts). rewrite Hw. split; [done |].
  destruct Hcase as [(Hall & l & ->) | (e & -> & Hin)]; eauto.
Qed.

Lemma Forall2_elem_of_r {A B} (P : A → B → Prop) (l : list A) (k : list B) (y : B) :
  Forall2 P l k → y ∈ k → ∃ x, x ∈ l ∧ P x y.
Proof.
  induction 1 as [|x y' l k Hxy _ IH]; intros Hin.
  - by apply elem_of_nil in Hin.
  - apply elem_of_cons in Hin as [-> | Hin].
    + exists x. split; [by left | done].
    + destruct (IH Hin) as (x' & Hx' & HP). exists x'. split; [by right | done].
Qed.

Lemma Forall2_elem_of_l {A B} (P : A → B → Prop) (l : list A) (k : list B) (x : A) :
  Forall2 P l k → x ∈ l → ∃ y, y ∈ k ∧ P x y.
Proof.
  induction 1 as [|x' y l k Hxy _ IH]; intros Hin.
  - by apply elem_of_nil in Hin.
  - apply elem_of_cons in Hin as [-> | Hin].
    + exists y. split; [by left | done].
    + destruct (IH Hin) as (y' & Hy' & HP). exists y'. split; [by right | done].
Qed.

Lemma elem_of_concat {A} (x : A) (ls : list (list A)) :
  x ∈ concat ls ↔ ∃ l, x ∈ l ∧ l ∈ ls.
Proof.
  induction ls as [|l ls IH]; simpl.
  - split; [by intros ?%elem_of_nil | by intros (l & _ & ?%elem_of_nil)].
  - rewrite elem_of_app, IH. split.
    + intros [H | (l' & H & Hl')]; [exists l; split; [done | by left] |].
      exists l'. split; [done | by right].
    + intros (l' & H & [-> | Hl']%elem_of_cons); [by left |]. right. by exists l'.
Qed.

Lemma requests_of_concat (ts : list (list Event)) (P : Request → Prop) :
  Forall (fun t => Forall P (requests_of t)) ts → Forall P (requests_of (concat ts)).
Proof.
  induction 1 as [|t ts Ht _ IH]; simpl; [constructor |].
  rewrite requests_of_app. by apply Forall_app_2.
Qed.

Lemma emits_promise_all_deletions {A} (ms : list (M A)) :
  Forall (fun m => emits m (deletions env)) ms →
  emits (promise_all env ms) (deletions env).
Proof.
  intros Hms. eapply emits_promise_all; [exact Hms | |].
  - intros cs ts l H Hall. split.
    + apply requests_of_concat. eapply Forall2_Forall_r; [exact H |].
      apply Forall_true. by intros c t [? _].
    + intros _ n r Hin. apply elem_of_concat in Hin as (t & Hin & Ht).
      destruct (Forall2_elem_of_r _ _ _ _ H Ht) as (c & Hc & _ & Hacc).
      eapply Hacc; [| exact Hin].
      by apply (proj1 (Forall_forall _ _) Hall).
  - intros cs ts e H Hin. split.
    + apply requests_of_concat. eapply Forall2_Forall_r; [exact H |].
      apply Forall_true. by intros c t [? _].
    + by intros [a Ha].
Qed.

Lemma phase_deletions {A} (m : M A) :
  emits m (deletions env) → emits m (phase_run env Clearing).
Proof.
  intros Hm. eapply emits_weaken; [exact Hm |]. intros c t H. split.
  - destruct H as [H _]. eapply Forall_impl; [exact H |].
    intros r Hr. by destruct r.
  - by apply aborts_deletions.
Qed.

Lemma phase_clearAll (collectionId : string) :
  emits (clearAll env collectionId) (phase_run env Clearing).
Proof.
  unfold clearAll. apply phase_rethrow. apply phase_bind.
  - by eapply phase_one_request, emits_listDocuments.
  - intros l. apply phase_bind; [| intros _; apply phase_console].
    apply phase_deletions, emits_promise_all_deletions.
    apply Forall_map, Forall_true. intros doc.
    eapply emits_weaken; [apply emits_deleteDocument |].
    intros c t. by apply deletions_one_request.
Qed.

Lemma phase_clearStorage :
  emits (clearStorage cfg env) (phase_run env Clearing).
Proof.
  unfold clearStorage. apply phase_rethrow. apply phase_bind.
  - by eapply phase_one_request, emits_listFiles.
  - intros l. apply phase_bind; [| intros _; apply phase_console].
    apply phase_deletions, emits_promise_all_deletions.
    apply Forall_map, Forall_true. intros file.
    eapply emits_weaken; [apply emits_deleteFile |].
    intros c t. by apply deletions_one_request.
Qed.

End Clear.

(** ** The creation phases *)

Section Creation.
Variable cfg : AppwriteConfig.
Variable env : Env.

Lemma phase_create_category (categoryMap : gmap string string) (cat : Category.t) :
  emits (create_category cfg env categoryMap cat) (phase_run env Categories).
Proof.
  unfold create_category. apply phase_rethrow. apply phase_bind.
  - by eapply phase_one_request, emits_createDocument.
  - intros doc. apply phase_bind; [apply phase_console | intros _; apply phase_ret].
Qed.

Lemma phase_create_customization (customizationMap : gmap string string)
    (cus : Customization.t) :
  emits (create_customization cfg env customizationMap cus)
    (phase_run env Customizations).
Proof.
  unfold create_customization. apply phase_rethrow. apply phase_bind.
  - by eapply phase_one_request, emits_createDocument.
  - intros doc. apply phase_bind; [apply phase_console | intros _; apply phase_ret].
Qed.

(** Inside the menu phase: requests the script survives. *)

Lemma harmless_nil : harmless MenuItems [].
Proof. split; constructor. Qed.

Lemma harmless_app (t1 t2 : list Event) :
  harmless MenuItems t1 → harmless MenuItems t2 → harmless MenuItems (t1 ++ t2).
Proof.
  intros [? ?] [? ?]. split; [by apply in_phase_app |].
  rewrite requests_of_app. by apply Forall_app_2.
Qed.

Lemma harmless_console (lvl : Level) (msg : Message) :
  harmless MenuItems [Console lvl msg].
Proof. split; constructor. Qed.

Lemma harmless_bind {A B} (m : M A) (k : A → M B) :
  emits m (fun _ t => harmless MenuItems t) →
  (∀ a, emits (k a) (fun _ t => harmless MenuItems t)) →
  emits (bind m k) (fun _ t => harmless MenuItems t).
Proof.
  intros Hm Hk. eapply emits_bind; [exact Hm | exact Hk | |]; simpl; [| done].
  intros. by apply harmless_app.
Qed.

Lemma harmless_try_catch {A} (m : M A) (h : Error → M A) :
  emits m (fun _ t => harmless MenuItems t) →
  (∀ e, emits (h e) (fun _ t => harmless MenuItems t)) →
  emits (try_catch m h) (fun _ t => harmless MenuItems t).
Proof.
  intros Hm Hh. eapply emits_try_catch; [exact Hm | exact Hh | |]; simpl; [done |].
  intros. by apply harmless_app.
Qed.

Lemma harmless_upload_attempt (url : string) (a n : nat) :
  emits (upload_attempt cfg env url a n) (fun _ t => harmless MenuItems t).
Proof.
  intros w.
  unfold upload_attempt, fetch_image, createFile, store_call, issue, console,
    sleep, observe, when, throw, ret, bind, date_now, random_tag.
  simpl.
  repeat case_match; simplify_eq; simpl; rewrite <- ?app_assoc;
    (eexists; split; [reflexivity | split; repeat constructor]).
Qed.

Lemma harmless_upload_recover (url : string) (a n : nat) (e : Error) :
  emits (upload_recover url a n e) (fun _ t => harmless MenuItems t).
Proof.
  intros w. unfold upload_recover, console, sleep, observe, ret, bind. simpl.
  destruct (a =? n)%nat; simpl; rewrite <- ?app_assoc;
    (eexists; split; [reflexivity | split; repeat constructor]).
Qed.

Lemma harmless_upload_loop (url : string) (retries fuel attempt : nat) :
  emits (upload_loop cfg env url retries fuel attempt)
    (fun _ t => harmless MenuItems t).
Proof.
  revert attempt. induction fuel as [|fuel IH]; intros attempt; simpl.
  - apply emits_ret, harmless_nil.
  - destruct (attempt <=? retries)%nat; [| apply emits_ret, harmless_nil].
    apply harmless_bind.
    + apply harmless_try_catch; [| apply harmless_upload_recover].
      apply harmless_bind; [apply harmless_upload_attempt |].
      intros v. apply emits_ret, harmless_nil.
    + intros [v|]; [apply emits_ret, harmless_nil | apply IH].
Qed.

Lemma harmless_link_customization (customizationMap : gmap string string)
    (item : MenuItem.t) (doc : Document) (cusName : string) :
  emits (link_customization cfg env customizationMap item doc cusName)
    (fun _ t => harmless MenuItems t).
Proof.
  unfold link_customization. apply harmless_try_catch.
  - destruct (missing customizationMap cusName).
    + apply emits_console, harmless_console.
    + apply harmless_bind.
      * eapply emits_weaken; [apply emits_createDocument |].
        intros c t (n & -> & _). split; repeat constructor.
      * intros _. apply emits_console, harmless_console.
  - intros e. apply emits_console, harmless_console.
Qed.

Lemma phase_create_menu_item (categoryMap customizationMap : gmap string string)
    (total i : nat) (menuMap : gmap string string) (item : MenuItem.t) :
  emits (create_menu_item cfg env categoryMap customizationMap total i menuMap item)
    (phase_run env MenuItems).
Proof.
  unfold create_menu_item. apply phase_bind; [apply phase_console | intros _].
  apply phase_rethrow. apply phase_bind.
  { apply phase_harmless, harmless_upload_loop. }
  intros uploadedImageUrl. apply phase_bind.
  { destruct (missing categoryMap (MenuItem.category_name item)); simpl;
      [apply phase_throw | apply phase_ret]. }
  intros _. apply phase_bind.
  { by eapply phase_one_request, emits_createDocument. }
  intros doc. apply phase_bind; [apply phase_console | intros _].
  apply phase_bind; [| intros _; apply phase_ret].
  unfold link_customizations.
  destruct (0 <? length (MenuItem.customizations item))%nat; simpl;
    [| apply phase_ret].
  apply phase_bind; [apply phase_console | intros _].
  apply phase_for_of. intros s x. apply phase_harmless, harmless_link_customization.
Qed.

End Creation.

(** ** The whole run, phase after phase *)

Section Sequence.
Variable cfg : AppwriteConfig.
Variable env : Env.

Lemma in_phase_in_sequence (p : Phase) (t : list Event) :
  in_phase p t → in_sequence t.
Proof.
  unfold in_phase, in_sequence. induction 1 as [|r rs Hr Hrs IH]; constructor; [done |].
  eapply Forall_impl; [exact Hrs |]. intros r' Hr'. unfold not_before.
  by rewrite Hr, Hr'.
Qed.

Lemma runs_from_phase {A} (p : Phase) (c : Completion A) (t : list Event) :
  phase_run env p c t → runs_from env p c t.
Proof.
  intros [Hp Ha]. split; [by eapply in_phase_in_sequence |]. split; [| done].
  eapply Forall_impl; [exact Hp |]. by intros r ->.
Qed.

Lemma runs_from_bind {A B} (p : Phase) (m : M A) (k : A → M B) :
  emits m (phase_run env p) → (∀ a, emits (k a) (runs_from env p)) →
  emits (bind m k) (runs_from env p).
Proof.
  intros Hm Hk. eapply emits_bind; [exact Hm | exact Hk | |].
  - intros a t1 c t2 [Hp1 Ha1] (Hs2 & Hp2 & Ha2). split; [| split].
    + unfold in_sequence. rewrite requests_of_app.
      apply StronglySorted_app_2; [| by eapply in_phase_in_sequence | done].
      intros r1 r2 H1 H2. unfold not_before.
      rewrite (proj1 (Forall_forall _ _) Hp1 r1 H1).
      by apply (proj1 (Forall_forall _ _) Hp2 r2).
    + rewrite requests_of_app. apply Forall_app_2; [| done].
      eapply Forall_impl; [exact Hp1 |]. by intros r ->.
    + by eapply aborts_app_return.
  - intros e t1 H. apply runs_from_phase.
    destruct H as [? ?]. split; [done | by eapply aborts_throw_any].
Qed.

Lemma runs_from_later {A} (p q : Phase) (m : M A) :
  rank p ≤ rank q → emits m (runs_from env q) → emits m (runs_from env p).
Proof.
  intros Hpq Hm. eapply emits_weaken; [exact Hm |].
  intros c t (? & Hq & ?). split; [done |]. split; [| done].
  eapply Forall_impl; [exact Hq |]. simpl. lia.
Qed.

Lemma runs_from_rethrow {A} (p : Phase) (m : M A) (msg : Error → Message) :
  emits m (runs_from env p) →
  emits (try_catch m (fun e => console error (msg e);; throw e)) (runs_from env p).
Proof.
  intros Hm.
  eapply (emits_try_catch _ _ _
            (fun e c t => c = Throw e ∧ t = [Console error (msg e)]));
    [exact Hm | | done |].
  - intros e w. exists [Console error (msg e)]. done.
  - intros e t1 c t2 (Hs & Hp & Ha) [-> ->]. split; [| split].
    + unfold in_sequence. by rewrite requests_of_app, app_nil_r.
    + by rewrite requests_of_app, app_nil_r.
    + by eapply aborts_app_quiet.
Qed.

Lemma seed_runs_from (data : DummyData.t) :
  emits (seed cfg env data) (runs_from env Clearing).
Proof.
  unfold seed. apply runs_from_rethrow.
  do 2 (apply runs_from_bind; [apply phase_console | intros _]).
  do 4 (apply runs_from_bind; [apply phase_clearAll | intros _]).
  apply runs_from_bind; [apply phase_clearStorage | intros _].
  apply runs_from_bind; [apply phase_console | intros _].
  apply (runs_from_later Clearing Categories); [simpl; lia |].
  apply runs_from_bind.
  { apply phase_for_of. intros s x. apply phase_create_category. }
  intros categoryMap.
  apply runs_from_bind; [apply phase_console | intros _].
  apply (runs_from_later Categories Customizations); [simpl; lia |].
  apply runs_from_bind.
  { apply phase_for_of. intros s x. apply phase_create_customization. }
  intros customizationMap.
  apply runs_from_bind; [apply phase_console | intros _].
  apply (runs_from_later Customizations MenuItems); [simpl; lia |].
  apply runs_from_bind.
  { apply phase_for_index. intros i s x. apply phase_create_menu_item. }
  intros menuMap.
  do 4 (apply runs_from_bind; [apply phase_console | intros _]).
  eapply emits_weaken; [apply (phase_console env MenuItems) |].
  intros c t. apply runs_from_phase.
Qed.

End Sequence.

(** ** The fan-out of a clear, request by request *)

Section FanOut.
Variable cfg : AppwriteConfig.
Variable env : Env.





Lemma clearAll_listed (collectionId : string) (w : World) :
  store_rejects env (requests w) = false →
  clearAll env collectionId w
  = let r := promise_all env
               (map (fun doc => deleteDocument env collectionId (doc_id doc))
                  (docs_of w collectionId))
               (count_request
                  (add_event (Issued (requests w) (ListDocuments collectionId)) w)) in
    match r.1 with
    | Return _ =>
        (Return tt, add_event (Console log (ClearedCollection collectionId)) r.2)
    | Throw e =>
        (Throw e,
         add_event (Console error (ErrorClearingCollection collectionId e)) r.2)
    end.
Proof.
  intros Hlist.
  unfold clearAll, try_catch, listDocuments, store_call, issue, bind, console,
    observe, throw, ret.
  simpl. rewrite Hlist. simpl.
  change (docs_of (count_request (add_event _ w)) collectionId)
    with (docs_of w collectionId).
  by destruct (promise_all _ _ _) as [[l|e] w2].
Qed.

Lemma clearStorage_listed (w : World) :
  store_rejects env (requests w) = false →
  clearStorage cfg env w
  = let r := promise_all env
               (map (fun file => deleteFile env (bucketId cfg) (file_id file))
                  (files_of w (bucketId cfg)))
               (count_request
                  (add_event (Issued (requests w) (ListFiles (bucketId cfg))) w)) in
    match r.1 with
    | Return _ => (Return tt, add_event (Console log ClearedStorage) r.2)
    | Throw e => (Throw e, add_event (Console error (ErrorClearingStorage e)) r.2)
    end.
Proof.
  intros Hlist.
  unfold clearStorage, try_catch, listFiles, store_call, issue, bind, console,
    observe, throw, ret.
  simpl. rewrite Hlist. simpl.
  change (files_of (count_request (add_event _ w)) (bucketId cfg))
    with (files_of w (bucketId cfg)).
  by destruct (promise_all _ _ _) as [[l|e] w2].
Qed.


End FanOut.

(** ** The listings of a completed run *)

Section Listings.
Variable cfg : AppwriteConfig.
Variable env : Env.

Lemma listings_of_app (t1 t2 : list Event) :
  listings_of (t1 ++ t2) = listings_of t1 ++ listings_of t2.
Proof. apply omap_app. Qed.

Lemma listings_later_phase (p : Phase) (t : list Event) :
  p ≠ Clearing → in_phase p t → listings_of t = [].
Proof.
  intros Hp. unfold in_phase. induction t as [|e t IH]; [done |].
  destruct e as [lvl m|n r|ms]; simpl; try exact IH.
  intros H. apply Forall_cons in H as [Hr H].
  unfold listings_of in *. simpl.
  destruct r; simpl in *; try (by apply IH); congruence.
Qed.

Lemma listings_deletions (t : list Event) :
  Forall (fun r => is_delete r = true) (requests_of t) → listings_of t = [].
Proof.
  induction t as [|e t IH]; [done |].
  destruct e as [lvl m|n r|ms]; simpl; try exact IH.
  intros H. apply Forall_cons in H as [Hr H].
  unfold listings_of in *. simpl.
  destruct r; simpl in *; try (by apply IH); congruence.
Qed.

Lemma listed_bind_l {A B} (L : list Request) (m : M A) (k : A → M B) :
  emits m (fun _ t => listings_of t = L) →
  (∀ a, emits (k a) (fun _ t => listings_of t = [])) →
  emits (bind m k) (fun _ t => listings_of t = L).
Proof.
  intros Hm Hk. eapply emits_bind; [exact Hm | exact Hk | |]; simpl; [| done].
  intros a t1 c t2 H1 H2. by rewrite listings_of_app, H1, H2, app_nil_r.
Qed.

Lemma listed_rethrow {A} (L : list Request) (m : M A) (msg : Error → Message) :
  emits m (fun _ t => listings_of t = L) →
  emits (try_catch m (fun e => console error (msg e);; throw e))
    (fun _ t => listings_of t = L).
Proof.
  intros Hm.
  eapply (emits_try_catch _ _ _ (fun e c t => t = [Console error (msg e)]));
    [exact Hm | | done |].
  - intros e w. by exists [Console error (msg e)].
  - intros e t1 c t2 H1 ->. by rewrite listings_of_app, H1, app_nil_r.
Qed.

Lemma listed_console (lvl : Level) (msg : Message) :
  emits (console lvl msg) (fun _ t => listings_of t = []).
Proof. by apply emits_console. Qed.

Lemma listed_phase {A} (p : Phase) (m : M A) :
  p ≠ Clearing → emits m (phase_run env p) →
  emits m (fun _ t => listings_of t = []).
Proof.
  intros Hp Hm. eapply emits_weaken; [exact Hm |].
  intros c t [H _]. by eapply listings_later_phase.
Qed.

Lemma listed_clearAll (collectionId : string) :
  emits (clearAll env collectionId)
    (fun _ t => listings_of t = [ListDocuments collectionId]).
Proof.
  unfold clearAll. apply listed_rethrow. apply listed_bind_l.
  - eapply emits_weaken; [apply emits_listDocuments |]. by intros c t (n & -> & _).
  - intros l.
    apply (listed_bind_l []); [| intros _; apply listed_console].
    eapply emits_weaken.
    + apply emits_promise_all_deletions, Forall_map, Forall_true. intros doc.
      eapply emits_weaken; [apply emits_deleteDocument |].
      intros c t. by apply deletions_one_request.
    + intros c t [H _]. by apply listings_deletions.
Qed.

Lemma listed_clearStorage :
  emits (clearStorage cfg env) (fun _ t => listings_of t = [ListFiles (bucketId cfg)]).
Proof.
  unfold clearStorage. apply listed_rethrow. apply listed_bind_l.
  - eapply emits_weaken; [apply emits_listFiles |]. by intros c t (n & -> & _).
  - intros l.
    apply (listed_bind_l []); [| intros _; apply listed_console].
    eapply emits_weaken.
    + apply emits_promise_all_deletions, Forall_map, Forall_true. intros file.
      eapply emits_weaken; [apply emits_deleteFile |].
      intros c t. by apply deletions_one_request.
    + intros c t [H _]. by apply listings_deletions.
Qed.



End Listings.

(** ** What an upload does to the store *)

Section UploadEffect.
Variable cfg : AppwriteConfig.
Variable env : Env.

Lemma never_throws_bind {A B} (m : M A) (k : A → M B) :
  never_throws m → (∀ a, never_throws (k a)) → never_throws (bind m k).
Proof.
  intros Hm Hk w. unfold bind. destruct (Hm w) as [a Ha].
  destruct (m w) as [c w1]. simpl in Ha. subst c. apply Hk.
Qed.

Lemma never_throws_catch {A} (m : M A) (h : Error → M A) :
  (∀ e, never_throws (h e)) → never_throws (try_catch m h).
Proof.
  intros Hh w. unfold try_catch. destruct (m w) as [[a|e] w1]; [by exists a |].
  apply Hh.
Qed.

Lemma never_throws_ret {A} (a : A) : never_throws (ret a).
Proof. intros w. by exists a. Qed.

Lemma never_throws_console (lvl : Level) (msg : Message) :
  never_throws (console lvl msg).
Proof. intros w. by exists tt. Qed.

Lemma upload_recover_never_throws (url : string) (a n : nat) (e : Error) :
  never_throws (upload_recover url a n e).
Proof.
  intros w. unfold upload_recover, console, sleep, observe, ret, bind. simpl.
  destruct (a =? n)%nat; eauto.
Qed.

Lemma upload_loop_never_throws (url : string) (retries fuel attempt : nat) :
  never_throws (upload_loop cfg env url retries fuel attempt).
Proof.
  revert attempt. induction fuel as [|fuel IH]; intros attempt; simpl.
  - apply never_throws_ret.
  - destruct (attempt <=? retries)%nat; [| apply never_throws_ret].
    apply never_throws_bind.
    + apply never_throws_catch, upload_recover_never_throws.
    + intros [v|]; [apply never_throws_ret | apply IH].
Qed.

(** The upload routine always returns. *)
Lemma uploadImageToStorage_returns (url : string) (retries : nat) (w : World) :
  ∃ u w1, uploadImageToStorage cfg env url retries w = (Return u, w1).
Proof.
  destruct (upload_loop_never_throws url retries retries 1 w) as [u Hu].
  unfold uploadImageToStorage. destruct (upload_loop _ _ _ _ _ _ w) as [c w1].
  simpl in Hu. subst c. eauto.
Qed.

(** One attempt: it never touches the documents; it stores one file when
    it goes through and nothing when it does not. *)
Lemma upload_attempt_effect (url : string) (a n : nat) (w : World) :
  documents (upload_attempt cfg env url a n w).2 = documents w ∧
  requests w ≤ requests (upload_attempt cfg env url a n w).2 ∧
  if attempt_ok env url (requests w) then
    ∃ f, stored_as env url (requests w) (created w) f ∧
         (upload_attempt cfg env url a n w).1
         = Return (getFileView env (bucketId cfg) (file_id f)) ∧
         files (upload_attempt cfg env url a n w).2
         = <[bucketId cfg := files_of w (bucketId cfg) ++ [f]]> (files w) ∧
         created (upload_attempt cfg env url a n w).2 = S (created w)
  else
    (∃ e, (upload_attempt cfg env url a n w).1 = Throw e) ∧
    files (upload_attempt cfg env url a n w).2 = files w ∧
    created (upload_attempt cfg env url a n w).2 = created w.
Proof.
  unfold attempt_ok, stored_as, served.
  unfold upload_attempt, fetch_image, createFile, store_call, issue, console,
    sleep, observe, when, throw, ret, bind, date_now, random_tag.
  simpl.
  destruct (JS.truthy url); simpl; [| (repeat split; eauto; lia)].
  destruct (JS.startsWith url "http"); simpl; [| (repeat split; eauto; lia)].
  destruct (fetch env (requests w) url) as [|r]; simpl; [(repeat split; eauto; lia) |].
  destruct (ok r); simpl; [| (repeat split; eauto; lia)].
  destruct (body r) as [| |size type]; simpl; [(repeat split; eauto; lia) | (repeat split; eauto; lia) |].
  destruct (size =? 0)%N; simpl; [(repeat split; eauto; lia) |].
  destruct (pathname env url) as [p|]; simpl; [| (repeat split; eauto; lia)].
  destruct (store_rejects env (S (requests w))); simpl; [(repeat split; eauto; lia) |].
  split; [done |]. split; [lia |]. eexists (Build_StoredFile _ _ _).
  split; last (split; [reflexivity | split; reflexivity]).
  by repeat split.
Qed.

Lemma same_store_refl (w : World) : same_store w w.
Proof. done. Qed.

Lemma same_store_trans (w1 w2 w3 : World) :
  same_store w1 w2 → same_store w2 w3 → same_store w1 w3.
Proof. unfold same_store. intros (-> & -> & ->) (-> & -> & ->). done. Qed.

Lemma upload_recover_effect (url : string) (a n : nat) (e : Error) (w : World) :
  (upload_recover url a n e w).1
  = Return (if (a =? n)%nat then Some url else None) ∧
  same_store w (upload_recover url a n e w).2 ∧
  requests (upload_recover url a n e w).2 = requests w.
Proof.
  unfold upload_recover, console, sleep, observe, ret, bind. simpl.
  by destruct (a =? n)%nat.
Qed.

(** A round of the loop, by the outcome of its attempt. *)
Lemma upload_round (url : string) (a n : nat) (w : World) :
  try_catch (let* v := upload_attempt cfg env url a n in ret (Some v))
    (upload_recover url a n) w
  = match (upload_attempt cfg env url a n w).1 with
    | Return v => (Return (Some v), (upload_attempt cfg env url a n w).2)
    | Throw e => upload_recover url a n e (upload_attempt cfg env url a n w).2
    end.
Proof.
  unfold try_catch, bind, ret. by destruct (upload_attempt cfg env url a n w) as [[v|e] w1].
Qed.

(** When the first attempt goes through, the routine returns the view URL
    of the file it stored. *)
Lemma upload_first_attempt_ok (url : string) (w : World) :
  attempt_ok env url (requests w) = true →
  ∃ f w1,
    stored_as env url (requests w) (created w) f ∧
    uploadImageToStorage cfg env url 3 w
    = (Return (getFileView env (bucketId cfg) (file_id f)), w1) ∧
    documents w1 = documents w ∧
    files w1 = <[bucketId cfg := files_of w (bucketId cfg) ++ [f]]> (files w) ∧
    created w1 = S (created w).
Proof.
  intros Hok. destruct (upload_attempt_effect url 1 3 w) as (Hd & _ & H).
  rewrite Hok in H. destruct H as (f & Hf & Hr & Hfs & Hc).
  exists f, (upload_attempt cfg env url 1 3 w).2. split; [done |].
  split; [| done].
  unfold uploadImageToStorage. cbn [upload_loop Nat.leb]. unfold bind at 1.
  rewrite upload_round, Hr. reflexivity.
Qed.

(** When no attempt can go through, the routine returns the URL it was
    given and leaves the store as it was. *)
Lemma upload_loop_all_fail (url : string) (retries fuel attempt : nat) (w : World) :
  (∀ n, attempt_ok env url n = false) →
  ∃ w1, upload_loop cfg env url retries fuel attempt w = (Return url, w1) ∧
        same_store w w1.
Proof.
  intros Hfail. revert attempt w. induction fuel as [|fuel IH]; intros attempt w; simpl.
  - by exists w.
  - destruct (attempt <=? retries)%nat; [| by exists w].
    unfold bind at 1. rewrite upload_round.
    destruct (upload_attempt_effect url attempt retries w) as (Hd & _ & H).
    rewrite Hfail in H. destruct H as ([e He] & Hfs & Hc). rewrite He.
    destruct (upload_recover_effect url attempt retries e
                (upload_attempt cfg env url attempt retries w).2) as (Hr & Hs & _).
    destruct (upload_recover _ _ _ _ _) as [c w2]. simpl in *. subst c.
    assert (Hw2 : same_store w w2).
    { eapply same_store_trans; [| exact Hs]. done. }
    destruct (attempt =? retries)%nat; simpl; [by exists w2 |].
    destruct (IH (S attempt) w2) as (w3 & Hr' & Hs'). exists w3. split; [done |].
    by eapply same_store_trans.
Qed.

End UploadEffect.

(** ** Lookup tables as plain objects *)

Section Lookup.

Lemma get_own (table : gmap string string) (key id : string) :
  table !! key = Some id → Table.get table key = Table.Str id.
Proof. unfold Table.get. by intros ->. Qed.

Lemma get_absent (table : gmap string string) (key : string) :
  plain key → table !! key = None → Table.get table key = Table.Undefined.
Proof.
  unfold Table.get, plain. intros Hp ->. by rewrite bool_decide_eq_false_2.
Qed.

Lemma get_inherited (table : gmap string string) (key : string) :
  key ∈ Table.inherited → table !! key = None →
  Table.get table key = Table.Member key.
Proof. unfold Table.get. intros Hin ->. by rewrite bool_decide_eq_true_2. Qed.

Lemma missing_own (table : gmap string string) (key id : string) :
  table !! key = Some id → missing table key = negb (JS.truthy id).
Proof. unfold missing. intros H. by rewrite (get_own _ _ _ H). Qed.

Lemma missing_absent (table : gmap string string) (key : string) :
  plain key → table !! key = None → missing table key = true.
Proof. unfold missing. intros Hp H. by rewrite (get_absent _ _ Hp H). Qed.

Lemma missing_inherited (table : gmap string string) (key : string) :
  key ∈ Table.inherited → table !! key = None → missing table key = false.
Proof. unfold missing. intros Hin H. by rewrite (get_inherited _ _ Hin H). Qed.

Lemma plain_settable (key : string) : plain key → key ≠ "__proto__".
Proof.
  unfold plain, Table.inherited. intros Hp ->. apply Hp.
  do 7 right. left.
Qed.

Lemma set_insert (key id : string) (table : gmap string string) :
  key ≠ "__proto__" → Table.set key id table = <[key := id]> table.
Proof. unfold Table.set. intros H. by rewrite bool_decide_eq_false_2. Qed.

Lemma set_ignored (id : string) (table : gmap string string) :
  Table.set "__proto__" id table = table.
Proof. done. Qed.

(** A name that is looked up as a string is an own key of the table. *)
Lemma get_Str (table : gmap string string) (key id : string) :
  Table.get table key = Table.Str id → table !! key = Some id.
Proof.
  unfold Table.get. destruct (table !! key) as [s|]; [by intros [= ->] |].
  by destruct (bool_decide _).
Qed.

(** A plain name that is not missing is an own key of the table. *)
Lemma present_own (table : gmap string string) (key : string) :
  plain key → missing table key = false →
  ∃ id, table !! key = Some id ∧ Table.get table key = Table.Str id ∧
        JS.truthy id = true.
Proof.
  intros Hp Hm. destruct (table !! key) as [id|] eqn:E.
  - exists id. rewrite (missing_own _ _ _ E) in Hm. split; [done |].
    split; [by apply get_own | by destruct (JS.truthy id)].
  - by rewrite (missing_absent _ _ Hp E) in Hm.
Qed.

End Lookup.

(** ** A menu item whose category does not resolve *)

Section MissingCategory.
Variable cfg : AppwriteConfig.
Variable env : Env.

Lemma upload_loop_documents (url : string) (retries fuel attempt : nat) (w : World) :
  documents (upload_loop cfg env url retries fuel attempt w).2 = documents w.
Proof.
  revert attempt w. induction fuel as [|fuel IH]; intros attempt w; simpl; [done |].
  destruct (attempt <=? retries)%nat; [| done].
  unfold bind at 1. rewrite upload_round.
  destruct (upload_attempt_effect cfg env url attempt retries w) as (Hd & _ & _).
  destruct (upload_attempt cfg env url attempt retries w) as [[v|e] w1]; simpl in *;
    [done |].
  destruct (upload_recover_effect url attempt retries e w1) as (Hr & (Hd' & _) & _).
  destruct (upload_recover url attempt retries e w1) as [c w2]. simpl in *. subst c.
  destruct (attempt =? retries)%nat; simpl; [congruence |].
  rewrite IH. congruence.
Qed.

(** The item fails at the category check, which comes after the upload. *)
Lemma create_menu_item_missing (categoryMap customizationMap : gmap string string)
    (total i : nat) (menuMap : gmap string string) (item : MenuItem.t)
    (w w1 : World) (u : string) :
  missing categoryMap (MenuItem.category_name item) = true →
  uploadImageToStorage cfg env (MenuItem.image_url item) 3
    (add_event
       (Console log (ProcessingMenuItem (i + 1) total (MenuItem.name item))) w)
  = (Return u, w1) →
  create_menu_item cfg env categoryMap customizationMap total i menuMap item w
  = (Throw (CategoryNotFound (MenuItem.category_name item)),
     add_event
       (Console error
          (FailedMenuItem (MenuItem.name item)
             (CategoryNotFound (MenuItem.category_name item)))) w1).
Proof.
  intros Hmiss Hup. unfold create_menu_item, console, observe, try_catch.
  unfold bind at 1. simpl. unfold bind at 1. rewrite Hup, Hmiss. reflexivity.
Qed.

End MissingCategory.

(** C9: a menu item whose category name does not resolve has its image
    uploaded in full before the check throws; no document is created, and
    when the first attempt goes through the file it stored stays in the
    bucket, with no record referring to it. *)
Theorem upload_precedes_category_check (cfg : AppwriteConfig) (env : Env)
    (categoryMap customizationMap : gmap string string) (total i : nat)
    (menuMap : gmap string string) (item : MenuItem.t) (w : World) :
  missing categoryMap (MenuItem.category_name item) = true →
  ∃ u w1 w2,
    uploadImageToStorage cfg env (MenuItem.image_url item) 3
      (add_event
         (Console log (ProcessingMenuItem (i + 1) total (MenuItem.name item))) w)
    = (Return u, w1) ∧
    create_menu_item cfg env categoryMap customizationMap total i menuMap item w
    = (Throw (CategoryNotFound (MenuItem.category_name item)), w2) ∧
    trace w2
    = trace w1
        ++ [Console error
              (FailedMenuItem (MenuItem.name item)
                 (CategoryNotFound (MenuItem.category_name item)))] ∧
    documents w2 = documents w ∧
    files w2 = files w1 ∧
    (attempt_ok env (MenuItem.image_url item) (requests w) = true →
     ∃ f, stored_as env (MenuItem.image_url item) (requests w) (created w) f ∧
          u = getFileView env (bucketId cfg) (file_id f) ∧
          files_of w2 (bucketId cfg) = files_of w (bucketId cfg) ++ [f]).
Proof.
  intros Hmiss.
  set (w0 := add_event (Console log
                (ProcessingMenuItem (i + 1) total (MenuItem.name item))) w).
  destruct (uploadImageToStorage_returns cfg env (MenuItem.image_url item) 3 w0)
    as (u & w1 & Hup).
  exists u, w1. eexists. split; [exact Hup |].
  split; [by eapply create_menu_item_missing |]. split; [done |]. split.
  - simpl. pose proof (upload_loop_documents cfg env (MenuItem.image_url item) 3 3 1 w0) as Hd.
    unfold uploadImageToStorage in Hup. rewrite Hup in Hd. exact Hd.
  - split; [done |]. intros Hok.
    destruct (upload_first_attempt_ok cfg env (MenuItem.image_url item) w0 Hok)
      as (f & w1' & Hf & Hup' & _ & Hfs & _).
    rewrite Hup in Hup'. injection Hup' as -> <-.
    exists f. split; [exact Hf |]. split; [done |].
    unfold files_of at 1. simpl. rewrite Hfs. by rewrite lookup_insert_eq.
Qed.

Lemma upload_precedes_category_check_witness :
  ∃ u w1 w2,
    uploadImageToStorage sample_config Sample.online
      (MenuItem.image_url Sample.caesar) 3
      (add_event
         (Console log (ProcessingMenuItem (1 + 1) 3 (MenuItem.name Sample.caesar)))
         Sample.empty_world)
    = (Return u, w1) ∧
    create_menu_item sample_config Sample.online ∅ ∅ 3 1 ∅ Sample.caesar
      Sample.empty_world
    = (Throw (CategoryNotFound (MenuItem.category_name Sample.caesar)), w2) ∧
    trace w2
    = trace w1
        ++ [Console error
              (FailedMenuItem (MenuItem.name Sample.caesar)
                 (CategoryNotFound (MenuItem.category_name Sample.caesar)))] ∧
    documents w2 = documents Sample.empty_world ∧
    files w2 = files w1 ∧
    (attempt_ok Sample.online (MenuItem.image_url Sample.caesar)
       (requests Sample.empty_world) = true →
     ∃ f, stored_as Sample.online (MenuItem.image_url Sample.caesar)
            (requests Sample.empty_world) (created Sample.empty_world) f ∧
          u = getFileView Sample.online (bucketId sample_config) (file_id f) ∧
          files_of w2 (bucketId sample_config)
          = files_of Sample.empty_world (bucketId sample_config) ++ [f]).
Proof.
  apply (upload_precedes_category_check sample_config Sample.online ∅ ∅ 3 1 ∅
           Sample.caesar Sample.empty_world).
  reflexivity.
Defined.

(** ** Reading the store of a world *)

Section Store.

Lemma docs_of_set_docs (c : string) (l : list Document) (w : World) :
  docs_of (set_docs c l w) c = l.
Proof. unfold docs_of, set_docs. simpl. by rewrite lookup_insert_eq. Qed.

Lemma docs_of_set_docs_ne (c c' : string) (l : list Document) (w : World) :
  c ≠ c' → docs_of (set_docs c l w) c' = docs_of w c'.
Proof. intros H. unfold docs_of, set_docs. simpl. by rewrite lookup_insert_ne. Qed.

Lemma docs_of_add_event (e : Event) (w : World) (c : string) :
  docs_of (add_event e w) c = docs_of w c.
Proof. done. Qed.

Lemma docs_of_count_request (w : World) (c : string) :
  docs_of (count_request w) c = docs_of w c.
Proof. done. Qed.

Lemma docs_of_count_created (w : World) (c : string) :
  docs_of (count_created w) c = docs_of w c.
Proof. done. Qed.

Lemma docs_of_same (w w' : World) (c : string) :
  documents w' = documents w → docs_of w' c = docs_of w c.
Proof. unfold docs_of. by intros ->. Qed.

End Store.

(** ** The join records of a menu item *)

Section Links.
Variable cfg : AppwriteConfig.
Variable env : Env.
Variable customizationMap : gmap string string.
Variable item : MenuItem.t.
Variable doc : Document.

Let links := menuCustomizationsCollectionId cfg.

(** One name of the list: skipped with a warning, rejected with a report,
    or linked. *)
Lemma link_customization_run (cusName : string) (w : World) :
  link_customization cfg env customizationMap item doc cusName w
  = let p := (cusName, Table.get customizationMap cusName) in
    let w1 := count_request
                (add_event
                   (Issued (requests w)
                      (CreateDocument links (link_of (doc_id doc) p))) w) in
    if missing customizationMap cusName then
      (Return tt, add_event (Console warn (CustomizationNotFound cusName)) w)
    else if store_rejects env (requests w) then
      (Return tt,
       add_event
         (Console error (FailedMenuCustomization cusName (StoreError (requests w))))
         w1)
    else
      (Return tt,
       add_event (Console log (MenuCustomizationLinked (MenuItem.name item) cusName))
         (count_created
            (set_docs links
               (docs_of w links
                  ++ [{| doc_id := unique_id env (created w);
                         doc_data := link_of (doc_id doc) p |}]) w1))).
Proof.
  unfold link_customization, createDocument, store_call, issue, console, observe,
    try_catch, throw, ret, bind.
  simpl. destruct (missing customizationMap cusName); [done |]. simpl.
  by destruct (store_rejects env (requests w)).
Qed.

Lemma resolvable_cons (cusName : string) (names : list string) :
  resolvable customizationMap (cusName :: names)
  = if missing customizationMap cusName then resolvable customizationMap names
    else (cusName, Table.get customizationMap cusName)
           :: resolvable customizationMap names.
Proof.
  unfold resolvable at 1. simpl.
  by destruct (missing customizationMap cusName).
Qed.

Lemma omap_cons_match {X Y} (f : X → option Y) (x : X) (l : list X) :
  omap f (x :: l)
  = match f x with
    | Some y => y :: omap f l
    | None => omap f l
    end.
Proof. reflexivity. Qed.

Lemma link_loop_effect (names : list string) (w : World) :
  ∃ w' t new,
    for_of (fun _ cusName => link_customization cfg env customizationMap item doc cusName)
      names tt w = (Return tt, w') ∧
    trace w' = trace w ++ t ∧
    omap warning_of t = filter (fun c => missing customizationMap c = true) names ∧
    requests_of t
    = (fun p => CreateDocument links (link_of (doc_id doc) p))
        <$> resolvable customizationMap names ∧
    omap link_failure_of t
    = (rejected env (requests w) (resolvable customizationMap names)).*1 ∧
    docs_of w' links = docs_of w links ++ new ∧
    doc_data <$> new
    = link_of (doc_id doc)
        <$> accepted env (requests w) (resolvable customizationMap names) ∧
    (∀ c, c ≠ links → docs_of w' c = docs_of w c) ∧
    files w' = files w.
Proof.
  unfold requests_of.
  revert w. induction names as [|c names IH]; intros w.
  - exists w, [], []. simpl. rewrite !app_nil_r. done.
  - cbn [for_of]. unfold bind at 1. rewrite link_customization_run.
    rewrite resolvable_cons, filter_cons. cbv zeta.
    destruct (missing customizationMap c) eqn:Hm.
    + rewrite decide_True by done.
      destruct (IH (add_event (Console warn (CustomizationNotFound c)) w))
        as (w' & t & new & Hrun & Ht & Hw & Hq & Hf & Hd & Hnew & Hother & Hfiles).
      exists w', (Console warn (CustomizationNotFound c) :: t), new.
      split; [exact Hrun |]. simpl in Ht. rewrite Ht, <- app_assoc.
      split; [done |]. rewrite !omap_cons_match.
      cbn [warning_of link_failure_of request_of]. rewrite Hw. done.
    + rewrite decide_False by done.
      set (p := (c, Table.get customizationMap c)).
      destruct (store_rejects env (requests w)) eqn:Hrej.
      * match goal with |- context [for_of _ names tt ?w1] =>
          destruct (IH w1)
            as (w' & t & new & Hrun & Ht & Hw & Hq & Hf & Hd & Hnew & Hother & Hfiles)
        end.
        exists w', (Issued (requests w) (CreateDocument links (link_of (doc_id doc) p))
                    :: Console error (FailedMenuCustomization c (StoreError (requests w)))
                    :: t), new.
        split; [exact Hrun |]. simpl in Ht. rewrite Ht, <- !app_assoc.
        split; [done |]. rewrite !omap_cons_match.
        cbn [warning_of link_failure_of request_of rejected accepted fmap list_fmap].
        rewrite Hrej, Hw, Hq, Hf. done.
      * match goal with |- context [for_of _ names tt ?w1] =>
          destruct (IH w1)
            as (w' & t & new & Hrun & Ht & Hw & Hq & Hf & Hd & Hnew & Hother & Hfiles)
        end.
        exists w', (Issued (requests w) (CreateDocument links (link_of (doc_id doc) p))
                    :: Console log (MenuCustomizationLinked (MenuItem.name item) c)
                    :: t),
          ({| doc_id := unique_id env (created w);
              doc_data := link_of (doc_id doc) p |} :: new).
        split; [exact Hrun |]. simpl in Ht. rewrite Ht, <- !app_assoc.
        split; [done |]. rewrite !omap_cons_match.
        cbn [warning_of link_failure_of request_of rejected accepted fmap list_fmap].
        rewrite Hrej, Hw, Hq, Hf, Hd, Hnew.
        rewrite docs_of_add_event, docs_of_count_created, docs_of_set_docs.
        rewrite <- app_assoc. repeat split; try done.
        intros c' Hc'. rewrite Hother by done.
        by rewrite docs_of_add_event, docs_of_count_created, docs_of_set_docs_ne.
Qed.

End Links.

(** C3 (the code at the failing input): in the same run the item lists the
    customization [toString], a name no customization of the dataset goes
    by.  The table of the customization phase has no such key, yet the
    lookup finds the member every object inherits under that name: no
    warning is logged for it, and a join record is created that refers to
    that member and to no customization record. *)
Theorem seed_links_inherited_customization :
  let data := Sample.data_with_inherited in
  let r := seed sample_config Sample.online data Sample.empty_world in
  "toString" ∈ MenuItem.customizations Sample.special ∧
  ("toString" ∉ Customization.name <$> DummyData.customizations data) ∧
  match (for_of (create_customization sample_config Sample.online)
           (DummyData.customizations data) ∅ Sample.empty_world).1 with
  | Return customizationMap =>
      customizationMap !! "toString" = None ∧
      missing customizationMap "toString" = false
  | Throw _ => False
  end ∧
  r.1 = Return tt ∧
  omap warning_of (trace r.2) = ["Olives"] ∧
  doc_data <$> docs_of r.2 (menuCustomizationsCollectionId sample_config)
  = [DLink {| LinkDoc.menu := "id5"; LinkDoc.customizations := Table.Str "id2" |};
     DLink {| LinkDoc.menu := "id7";
              LinkDoc.customizations := Table.Member "toString" |};
     DLink {| LinkDoc.menu := "id7"; LinkDoc.customizations := Table.Str "id3" |}].
Proof.
  cbv zeta. split; [left |].
  split; [apply (bool_decide_unpack _); vm_compute; exact I |].
  split; [vm_compute; split; reflexivity |].
  split; [vm_compute; reflexivity |].
  split; vm_compute; reflexivity.
Qed.

(** X22: linking the customizations of a menu item never throws.  Each
    listed name that a lookup in the table gives nothing for (no own entry
    and no inherited member, or an empty identifier) is skipped with a
    warning and no request; each other name gets one join-record request,
    for what the lookup gave; a rejected request is reported and skipped;
    the join records added are exactly those of the names looked up whose
    request was accepted; and every document that was in the store, the
    menu record among them, is still there. *)
Theorem links_exactly_for_resolvable (cfg : AppwriteConfig) (env : Env)
    (customizationMap : gmap string string) (item : MenuItem.t)
    (doc : Document) (w : World) :
  ∃ w' t new,
    link_customizations cfg env customizationMap item doc w = (Return tt, w') ∧
    trace w' = trace w ++ t ∧
    omap warning_of t
    = filter (fun c => missing customizationMap c = true)
        (MenuItem.customizations item) ∧
    requests_of t
    = (fun p => CreateDocument (menuCustomizationsCollectionId cfg)
                  (link_of (doc_id doc) p))
        <$> resolvable customizationMap (MenuItem.customizations item) ∧
    omap link_failure_of t
    = (rejected env (requests w)
         (resolvable customizationMap (MenuItem.customizations item))).*1 ∧
    docs_of w' (menuCustomizationsCollectionId cfg)
    = docs_of w (menuCustomizationsCollectionId cfg) ++ new ∧
    doc_data <$> new
    = link_of (doc_id doc)
        <$> accepted env (requests w)
              (resolvable customizationMap (MenuItem.customizations item)) ∧
    (∀ c d, d ∈ docs_of w c → d ∈ docs_of w' c).
Proof.
  unfold link_customizations.
  destruct (MenuItem.customizations item) as [|c names] eqn:Hnames.
  - exists w, [], []. simpl. rewrite !app_nil_r. done.
  - cbn [length Nat.ltb Nat.leb when]. unfold bind at 1, console, observe. simpl.
    destruct (link_loop_effect cfg env customizationMap item doc (c :: names)
                (add_event (Console log (AddingCustomizations (MenuItem.name item))) w))
      as (w' & t & new & Hrun & Ht & Hw & Hq & Hf & Hd & Hnew & Hother & _).
    exists w', (Console log (AddingCustomizations (MenuItem.name item)) :: t), new.
    split; [exact Hrun |]. simpl in Ht. rewrite Ht, <- app_assoc.
    split; [done |]. unfold requests_of in *. rewrite !omap_cons_match.
    cbn [warning_of link_failure_of request_of].
    repeat (split; [done |]).
    intros c' d Hd'.
    destruct (decide (c' = menuCustomizationsCollectionId cfg)) as [-> | Hne].
    + rewrite Hd. apply elem_of_app. by left.
    + by rewrite Hother.
Qed.

(** ** The menu records a run asks for *)

Section MenuCreations.
Variable cfg : AppwriteConfig.
Variable env : Env.

Lemma menu_creations_app (t1 t2 : list Event) :
  menu_creations (t1 ++ t2) = menu_creations t1 ++ menu_creations t2.
Proof. apply omap_app. Qed.

Lemma menu_creations_nonfatal (t : list Event) :
  Forall (fun r => fatal r = false) (requests_of t) → menu_creations t = [].
Proof.
  unfold menu_creations, requests_of.
  induction t as [|e t IH]; [done |]. rewrite !omap_cons_match.
  destruct e as [lvl m|n r|ms]; cbn [request_of menu_creation_of]; try exact IH.
  intros H. apply Forall_cons in H as [Hr H].
  destruct r as [| |c [| |m|]| | | |]; simpl in Hr; try (by apply IH); congruence.
Qed.

Lemma menu_creations_other_phase (p : Phase) (t : list Event) :
  p ≠ MenuItems → in_phase p t → menu_creations t = [].
Proof.
  intros Hp. unfold in_phase, menu_creations, requests_of.
  induction t as [|e t IH]; [done |]. rewrite !omap_cons_match.
  destruct e as [lvl m|n r|ms]; cbn [request_of menu_creation_of]; try exact IH.
  intros H. apply Forall_cons in H as [Hr H].
  destruct r as [| |c [| |m|]| | | |]; simpl in Hr; try (by apply IH); congruence.
Qed.

Lemma quiet_phase {A} (p : Phase) (m : M A) :
  p ≠ MenuItems → emits m (phase_run env p) →
  emits m (fun _ t => menu_creations t = []).
Proof.
  intros Hp Hm. eapply emits_weaken; [exact Hm |].
  intros c t [H _]. by eapply menu_creations_other_phase.
Qed.

Lemma quiet_harmless {A} (m : M A) :
  emits m (fun _ t => harmless MenuItems t) →
  emits m (fun _ t => menu_creations t = []).
Proof.
  intros Hm. eapply emits_weaken; [exact Hm |].
  intros c t [_ H]. by apply menu_creations_nonfatal.
Qed.

Lemma quiet_console (lvl : Level) (msg : Message) :
  emits (console lvl msg) (fun _ t => menu_creations t = []).
Proof. by apply emits_console. Qed.

(** *** Rules for [creates_upto] *)

Lemma upto_exact {A} (L : list string) (m : M A) :
  emits m (fun _ t => menu_creations t = L) → emits m (creates_upto L).
Proof.
  intros Hm. eapply emits_weaken; [exact Hm |].
  intros c t H. split; [by rewrite H | done].
Qed.

Lemma upto_bind {A B} (L1 L2 L : list string) (m : M A) (k : A → M B) :
  L = L1 ++ L2 →
  emits m (creates_upto L1) → (∀ a, emits (k a) (creates_upto L2)) →
  emits (bind m k) (creates_upto L).
Proof.
  intros -> Hm Hk. eapply emits_bind; [exact Hm | exact Hk | |].
  - intros a t1 c t2 [_ H1] [Hp2 H2]. unfold creates_upto.
    rewrite menu_creations_app, H1 by eauto.
    split; [by apply prefix_app | intros Hc; by rewrite H2].
  - intros e t1 [Hp _]. split; [by apply prefix_app_r |].
    intros [a Ha]. discriminate.
Qed.

Lemma upto_rethrow {A} (L : list string) (m : M A) (msg : Error → Message) :
  emits m (creates_upto L) →
  emits (try_catch m (fun e => console error (msg e);; throw e)) (creates_upto L).
Proof.
  intros Hm.
  eapply (emits_try_catch _ _ _
            (fun e c t => c = Throw e ∧ t = [Console error (msg e)]));
    [exact Hm | | done |].
  - intros e w. by exists [Console error (msg e)].
  - intros e t1 c t2 [Hp _] [-> ->]. unfold creates_upto.
    rewrite menu_creations_app, app_nil_r.
    split; [done |]. intros [a Ha]. discriminate.
Qed.

Lemma harmless_link_customizations (customizationMap : gmap string string)
    (item : MenuItem.t) (doc : Document) :
  emits (link_customizations cfg env customizationMap item doc)
    (fun _ t => harmless MenuItems t).
Proof.
  unfold link_customizations.
  destruct (0 <? length (MenuItem.customizations item))%nat; simpl;
    [| apply emits_ret, harmless_nil].
  apply harmless_bind; [apply emits_console, harmless_console | intros _].
  apply (emits_for_of _ _ (harmless MenuItems));
    [apply harmless_nil | apply harmless_app |].
  intros s x. apply harmless_link_customization.
Qed.

(** An iteration of the menu loop asks for the record of its item, once,
    unless it throws before. *)
Lemma create_menu_item_creations (categoryMap customizationMap : gmap string string)
    (total i : nat) (menuMap : gmap string string) (item : MenuItem.t) :
  emits (create_menu_item cfg env categoryMap customizationMap total i menuMap item)
    (creates_upto [MenuItem.name item]).
Proof.
  unfold create_menu_item.
  eapply (upto_bind []); [reflexivity | apply upto_exact, quiet_console | intros _].
  apply upto_rethrow.
  eapply (upto_bind []); [reflexivity | | intros uploadedImageUrl].
  { apply upto_exact, quiet_harmless, harmless_upload_loop. }
  eapply (upto_bind []); [reflexivity | | intros _].
  { destruct (missing categoryMap (MenuItem.category_name item)); simpl.
    - apply emits_throw. split; [done |]. intros [a Ha]. discriminate.
    - apply emits_ret. by split. }
  eapply (upto_bind [_] []); [reflexivity | | intros doc].
  { apply upto_exact. eapply emits_weaken; [apply emits_createDocument |].
    by intros c t (n & -> & _). }
  eapply (upto_bind [] []); [reflexivity | apply upto_exact, quiet_console | intros _].
  eapply (upto_bind [] []); [reflexivity | | intros _].
  { apply upto_exact, quiet_harmless, harmless_link_customizations. }
  apply emits_ret. by split.
Qed.

(** An iteration on an item whose category is missing throws and asks
    for no record. *)
Lemma create_menu_item_fails (categoryMap customizationMap : gmap string string)
    (total i : nat) (menuMap : gmap string string) (item : MenuItem.t) :
  missing categoryMap (MenuItem.category_name item) = true →
  emits (create_menu_item cfg env categoryMap customizationMap total i menuMap item)
    (fails_within []).
Proof.
  intros Hmiss w.
  destruct (create_menu_item_creations categoryMap customizationMap total i
              menuMap item w) as (t & Ht & Hp & _).
  exists t. split; [done |].
  set (w0 := add_event (Console log
                (ProcessingMenuItem (i + 1) total (MenuItem.name item))) w).
  destruct (uploadImageToStorage_returns cfg env (MenuItem.image_url item) 3 w0)
    as (u & w1 & Hup).
  pose proof (create_menu_item_missing cfg env categoryMap customizationMap
                total i menuMap item w w1 u Hmiss Hup) as Hrun.
  rewrite Hrun in Ht |- *. simpl in *. split; [eauto |].
  destruct (harmless_upload_loop cfg env (MenuItem.image_url item) 3 3 1 w0)
    as (tu & Htu & Hh).
  unfold uploadImageToStorage in Hup. rewrite Hup in Htu. simpl in Htu.
  rewrite Htu in Ht. subst w0. simpl in Ht. rewrite <- !app_assoc in Ht.
  apply app_inv_head in Ht. subst t.
  rewrite !menu_creations_app. simpl.
  rewrite (menu_creations_nonfatal tu) by apply Hh. done.
Qed.

(** The loop over a menu holding such an item throws at that item at the
    latest, having asked for records of earlier items only. *)
Lemma menu_loop_fails (categoryMap customizationMap : gmap string string)
    (total : nat) (pre : list MenuItem.t) (item : MenuItem.t)
    (post : list MenuItem.t) :
  missing categoryMap (MenuItem.category_name item) = true →
  ∀ i menuMap,
    emits (for_index (create_menu_item cfg env categoryMap customizationMap total)
             i (pre ++ item :: post) menuMap)
      (fails_within (MenuItem.name <$> pre)).
Proof.
  intros Hmiss. induction pre as [|x pre IH]; intros i menuMap; simpl.
  - eapply (emits_bind _ _ _ (fun _ _ _ => True));
      [by apply create_menu_item_fails | | |].
    + intros a. eapply emits_weaken; [| done].
      apply (phase_for_index env MenuItems). intros j s x.
      apply phase_create_menu_item.
    + intros a t1 c t2 [[e He] _]. discriminate.
    + by intros e t1 H.
  - eapply emits_bind; [apply create_menu_item_creations | intros a; apply IH | |].
    + intros a t1 c t2 [_ H1] [Hc Hp]. split; [done |].
      rewrite menu_creations_app, H1 by eauto. by apply (prefix_app [_]).
    + intros e t1 [Hp _]. split; [eauto |]. by apply (prefix_app_r _ [_]).
Qed.

End MenuCreations.

(** ** The category table and the run on a menu with a stray item *)

Section StrayItem.
Variable cfg : AppwriteConfig.
Variable env : Env.

Lemma create_category_table (categoryMap categoryMap' : gmap string string)
    (cat : Category.t) (w w' : World) :
  create_category cfg env categoryMap cat w = (Return categoryMap', w') →
  ∃ id, categoryMap' = Table.set (Category.name cat) id categoryMap.
Proof.
  unfold create_category, createDocument, store_call, issue, console, observe,
    try_catch, throw, ret, bind.
  simpl. destruct (store_rejects env (requests w)); simpl; intros H; simplify_eq.
  eauto.
Qed.

(** The table the category phase builds has no key but category names. *)
Lemma category_loop_table (cats : list Category.t)
    (categoryMap categoryMap' : gmap string string) (w w' : World) (key : string) :
  for_of (create_category cfg env) cats categoryMap w = (Return categoryMap', w') →
  is_Some (categoryMap' !! key) →
  is_Some (categoryMap !! key) ∨ key ∈ Category.name <$> cats.
Proof.
  revert categoryMap w. induction cats as [|cat cats IH]; intros categoryMap w; simpl.
  - unfold ret. intros H. simplify_eq. auto.
  - unfold bind at 1.
    destruct (create_category cfg env categoryMap cat w) as [[cm1|e] w1] eqn:E;
      [| discriminate].
    apply create_category_table in E as [id ->]. intros Hrun Hkey.
    destruct (IH _ _ Hrun Hkey) as [Hin | Hin].
    + destruct (decide (Category.name cat = key)) as [<- | Hne].
      * right. left.
      * left. unfold Table.set in Hin. destruct (bool_decide _); [done |].
        by rewrite lookup_insert_ne in Hin.
    + right. by right.
Qed.

Lemma fails_after_quiet {A B} (L : list string) (m : M A) (k : A → M B) :
  emits m (fun _ t => menu_creations t = []) →
  (∀ a w w1, m w = (Return a, w1) → emits (k a) (fails_within L)) →
  emits (bind m k) (fails_within L).
Proof.
  intros Hm Hk. eapply emits_bind_run; [exact Hm | | |]; simpl.
  - intros a w w1 t1 Hrun _. exact (Hk a w w1 Hrun).
  - intros a t1 c t2 H1 [Hc Hp]. split; [done |].
    by rewrite menu_creations_app, H1.
  - intros e t1 H1. split; [eauto |]. rewrite H1. apply prefix_nil.
Qed.

Lemma fails_then {A B} (L : list string) (m : M A) (k : A → M B) :
  emits m (fails_within L) → emits (bind m k) (fails_within L).
Proof.
  intros Hm. eapply (emits_bind_run _ _ _ (fun _ _ _ => True)); [exact Hm | | |].
  - intros a w w1 t1 _ [[e He] _]. discriminate.
  - intros a t1 c t2 [[e He] _]. discriminate.
  - intros e t1 [_ Hp]. split; [eauto | done].
Qed.

Lemma fails_rethrow {A} (L : list string) (m : M A) (msg : Error → Message) :
  emits m (fails_within L) →
  emits (try_catch m (fun e => console error (msg e);; throw e)) (fails_within L).
Proof.
  intros Hm.
  eapply (emits_try_catch _ _ _
            (fun e c t => c = Throw e ∧ t = [Console error (msg e)]));
    [exact Hm | | |].
  - intros e w. by exists [Console error (msg e)].
  - intros a t1 [[e He] _]. discriminate.
  - intros e t1 c t2 [_ Hp] [-> ->]. split; [eauto |].
    by rewrite menu_creations_app, app_nil_r.
Qed.

Lemma seed_fails_within (data : DummyData.t) (pre : list MenuItem.t)
    (item : MenuItem.t) (post : list MenuItem.t) :
  DummyData.menu data = pre ++ item :: post →
  MenuItem.category_name item ∉ Category.name <$> DummyData.categories data →
  plain (MenuItem.category_name item) →
  emits (seed cfg env data) (fails_within (MenuItem.name <$> pre)).
Proof.
  intros Hmenu Hcat Hplain. unfold seed. apply fails_rethrow.
  do 2 (apply fails_after_quiet; [apply quiet_console | intros _ _ _ _]).
  do 4 (apply fails_after_quiet;
        [by apply (quiet_phase env Clearing), phase_clearAll | intros _ _ _ _]).
  apply fails_after_quiet;
    [by apply (quiet_phase env Clearing), phase_clearStorage | intros _ _ _ _].
  apply fails_after_quiet; [apply quiet_console | intros _ _ _ _].
  apply fails_after_quiet.
  { apply (quiet_phase env Categories); [done |].
    apply phase_for_of. intros s x. apply phase_create_category. }
  intros categoryMap w w1 Htable.
  apply fails_after_quiet; [apply quiet_console | intros _ _ _ _].
  apply fails_after_quiet.
  { apply (quiet_phase env Customizations); [done |].
    apply phase_for_of. intros s x. apply phase_create_customization. }
  intros customizationMap _ _ _.
  apply fails_after_quiet; [apply quiet_console | intros _ _ _ _].
  apply fails_then. rewrite Hmenu. apply menu_loop_fails.
  apply missing_absent; [done |].
  destruct (categoryMap !! MenuItem.category_name item) as [id|] eqn:E; [| done].
  destruct (category_loop_table _ _ _ _ _ (MenuItem.category_name item) Htable)
    as [Hin | Hin]; [by rewrite E | | done].
  rewrite lookup_empty in Hin. by destruct Hin.
Qed.

End StrayItem.

(** C2 (the code at the failing input): the sample dataset with an item
    of the category [constructor], a name no category of the dataset goes
    by.  The table of the category phase has no such key, yet the lookup
    finds the member every object inherits under that name: the check
    passes, the run completes, and the record of the item is created with
    that member for a category. *)
Theorem seed_passes_inherited_category :
  let data := Sample.data_with_inherited in
  let r := seed sample_config Sample.online data Sample.empty_world in
  Sample.special ∈ DummyData.menu data ∧
  (MenuItem.category_name Sample.special
   ∉ Category.name <$> DummyData.categories data) ∧
  match (for_of (create_category sample_config Sample.online)
           (DummyData.categories data) ∅ Sample.empty_world).1 with
  | Return categoryMap =>
      categoryMap !! MenuItem.category_name Sample.special = None ∧
      missing categoryMap (MenuItem.category_name Sample.special) = false
  | Throw _ => False
  end ∧
  r.1 = Return tt ∧
  menu_creations (trace r.2) = ["Margherita"; "Special"] ∧
  category_ref <$> docs_of r.2 (menuCollectionId sample_config)
  = [Some ("Margherita", Table.Str "id0");
     Some ("Special", Table.Member "constructor")].
Proof.
  cbv zeta. split; [right; left |].
  split; [apply (bool_decide_unpack _); vm_compute; exact I |].
  split; [vm_compute; split; reflexivity |].
  split; [vm_compute; reflexivity |].
  split; vm_compute; reflexivity.
Qed.

(** X21: when the menu holds an item whose category name is not a category
    of the dataset and is not the name of a member every object inherits
    (so that looking it up in the table of the category phase gives
    nothing), the seed run throws, and the only menu records it asked the
    store to create are those of items before that one; and so does the
    menu loop under any lookup table in which that name is missing. *)
Theorem seed_fails_on_missing_category (cfg : AppwriteConfig) (env : Env)
    (data : DummyData.t) (pre : list MenuItem.t) (item : MenuItem.t)
    (post : list MenuItem.t) (w : World) :
  DummyData.menu data = pre ++ item :: post →
  MenuItem.category_name item ∉ Category.name <$> DummyData.categories data →
  plain (MenuItem.category_name item) →
  (∃ e w' t,
     seed cfg env data w = (Throw e, w') ∧
     trace w' = trace w ++ t ∧
     menu_creations t `prefix_of` (MenuItem.name <$> pre)) ∧
  (∀ categoryMap customizationMap i menuMap w0,
     missing categoryMap (MenuItem.category_name item) = true →
     ∃ e w' t,
       for_index
         (create_menu_item cfg env categoryMap customizationMap
            (length (DummyData.menu data)))
         i (DummyData.menu data) menuMap w0
       = (Throw e, w') ∧
       trace w' = trace w0 ++ t ∧
       menu_creations t `prefix_of` (MenuItem.name <$> pre)).
Proof.
  intros Hmenu Hcat Hplain. split.
  - destruct (seed_fails_within cfg env data pre item post Hmenu Hcat Hplain w)
      as (t & Ht & [e He] & Hp).
    destruct (seed cfg env data w) as [c w'] eqn:E. simpl in *. subst c.
    by exists e, w', t.
  - intros categoryMap customizationMap i menuMap w0 Hmiss. rewrite Hmenu.
    destruct (menu_loop_fails cfg env categoryMap customizationMap
                (length (pre ++ item :: post)) pre item post Hmiss i menuMap w0)
      as (t & Ht & [e He] & Hp).
    destruct (for_index _ _ _ _ w0) as [c w'] eqn:E. simpl in *. subst c.
    by exists e, w', t.
Qed.

Lemma seed_fails_on_missing_category_witness :
  ∃ e w' t,
    seed sample_config Sample.online Sample.data_with_stray Sample.empty_world
    = (Throw e, w') ∧
    trace w' = trace Sample.empty_world ++ t ∧
    menu_creations t `prefix_of` (MenuItem.name <$> [Sample.margherita]).
Proof.
  apply (seed_fails_on_missing_category sample_config Sample.online
           Sample.data_with_stray [Sample.margherita] Sample.caesar
           [Sample.cheeseburger] Sample.empty_world).
  - reflexivity.
  - apply (bool_decide_unpack _). vm_compute. exact I.
  - apply (bool_decide_unpack _). vm_compute. exact I.
Defined.

(** ** Seeding an arbitrary store: what the run leaves *)

Section Reseed.
Variable cfg : AppwriteConfig.
Variable env : Env.
Hypothesis accepts : ∀ n, store_rejects env n = false.
Hypothesis ids_inj : ∀ j k, unique_id env j = unique_id env k → j = k.
Hypothesis ids_nonempty : ∀ k, unique_id env k ≠ "".

(** *** Clearing *)

Lemma deleteDocument_accepted (c id : string) (w : World) :
  ∃ w', deleteDocument env c id w = (Return tt, w') ∧
        docs_of w' c = filter (fun d => doc_id d ≠ id) (docs_of w c) ∧
        (∀ c', c' ≠ c → docs_of w' c' = docs_of w c') ∧
        files w' = files w ∧ created w' = created w.
Proof.
  unfold deleteDocument, store_call, issue, throw, ret, bind. simpl.
  rewrite accepts. eexists. split; [reflexivity |].
  rewrite docs_of_set_docs. split; [done |]. split; [| done].
  intros c' Hc'. by rewrite docs_of_set_docs_ne.
Qed.

Lemma start_delete_documents (c : string) (l : list Document) (w : World) :
  Forall (fun r => ∃ a, r = Return a)
    (start_all (map (fun d => deleteDocument env c (doc_id d)) l) w).1 ∧
  let w' := (start_all (map (fun d => deleteDocument env c (doc_id d)) l) w).2 in
  (∀ d, d ∈ docs_of w' c → d ∈ docs_of w c ∧ doc_id d ∉ doc_id <$> l) ∧
  (∀ c', c' ≠ c → docs_of w' c' = docs_of w c') ∧
  files w' = files w ∧ created w' = created w.
Proof.
  revert w. induction l as [|x l IH]; intros w; cbn [map start_all].
  - split; [constructor |]. simpl. split; [| done].
    intros d Hd. split; [done |]. apply not_elem_of_nil.
  - destruct (deleteDocument_accepted c (doc_id x) w) as (w1 & -> & Hd1 & Ho1 & Hf1 & Hc1).
    destruct (IH w1) as (Hall & Hd2 & Ho2 & Hf2 & Hc2).
    destruct (start_all _ w1) as [cs w2]. cbn [fst snd] in *.
    split; [constructor; eauto |]. split; [| split; [| split; congruence]].
    + intros d Hd. apply Hd2 in Hd as [Hin Hnot]. rewrite Hd1 in Hin.
      apply list_elem_of_filter in Hin as [Hne Hin]. split; [done |].
      rewrite fmap_cons, not_elem_of_cons. done.
    + intros c' Hc'. rewrite Ho2, Ho1; done.
Qed.

Lemma delete_all_documents (c : string) (l : list Document) (w : World) :
  ∃ r w',
    promise_all env (map (fun d => deleteDocument env c (doc_id d)) l) w
    = (Return r, w') ∧
    (∀ d, d ∈ docs_of w' c → d ∈ docs_of w c ∧ doc_id d ∉ doc_id <$> l) ∧
    (∀ c', c' ≠ c → docs_of w' c' = docs_of w c') ∧
    files w' = files w ∧ created w' = created w.
Proof.
  destruct (start_delete_documents c l w) as (Hall & H).
  eexists _, _. split; [by apply promise_all_returned | exact H].
Qed.

Lemma no_elements {X} (l : list X) : (∀ x, x ∉ l) → l = [].
Proof. destruct l as [|x l]; [done |]. intros H. destruct (H x). left. Qed.

Lemma clearAll_clears (c : string) (w : World) :
  ∃ w', clearAll env c w = (Return tt, w') ∧
        docs_of w' c = [] ∧
        (∀ c', c' ≠ c → docs_of w' c' = docs_of w c') ∧
        files w' = files w ∧ created w' = created w.
Proof.
  rewrite clearAll_listed by apply accepts. cbv zeta.
  set (w1 := count_request (add_event _ w)).
  destruct (delete_all_documents c (docs_of w c) w1) as (r & w2 & -> & Hd & Ho & Hf & Hc).
  simpl. eexists. split; [reflexivity |].
  split; [| split; [| done]].
  - apply no_elements. intros d Hin. apply Hd in Hin as [Hin Hnot].
    apply Hnot. apply list_elem_of_fmap. by exists d.
  - intros c' Hc'. by rewrite docs_of_add_event, Ho.
Qed.

Lemma deleteFile_accepted (b id : string) (w : World) :
  ∃ w', deleteFile env b id w = (Return tt, w') ∧
        files_of w' b = filter (fun f => file_id f ≠ id) (files_of w b) ∧
        documents w' = documents w ∧ created w' = created w.
Proof.
  unfold deleteFile, store_call, issue, throw, ret, bind. simpl.
  rewrite accepts. eexists. split; [reflexivity |].
  unfold files_of, set_files. simpl. by rewrite lookup_insert_eq.
Qed.

Lemma start_delete_files (b : string) (l : list StoredFile) (w : World) :
  Forall (fun r => ∃ a, r = Return a)
    (start_all (map (fun f => deleteFile env b (file_id f)) l) w).1 ∧
  let w' := (start_all (map (fun f => deleteFile env b (file_id f)) l) w).2 in
  (∀ f, f ∈ files_of w' b → f ∈ files_of w b ∧ file_id f ∉ file_id <$> l) ∧
  documents w' = documents w ∧ created w' = created w.
Proof.
  revert w. induction l as [|x l IH]; intros w; cbn [map start_all].
  - split; [constructor |]. simpl. split; [| done].
    intros f Hf. split; [done |]. apply not_elem_of_nil.
  - destruct (deleteFile_accepted b (file_id x) w) as (w1 & -> & Hd1 & Ho1 & Hc1).
    destruct (IH w1) as (Hall & Hd2 & Ho2 & Hc2).
    destruct (start_all _ w1) as [cs w2]. cbn [fst snd] in *.
    split; [constructor; eauto |]. split; [| split; congruence].
    intros f Hf. apply Hd2 in Hf as [Hin Hnot]. rewrite Hd1 in Hin.
    apply list_elem_of_filter in Hin as [Hne Hin]. split; [done |].
    rewrite fmap_cons, not_elem_of_cons. done.
Qed.

Lemma delete_all_files (b : string) (l : list StoredFile) (w : World) :
  ∃ r w',
    promise_all env (map (fun f => deleteFile env b (file_id f)) l) w
    = (Return r, w') ∧
    (∀ f, f ∈ files_of w' b → f ∈ files_of w b ∧ file_id f ∉ file_id <$> l) ∧
    documents w' = documents w ∧ created w' = created w.
Proof.
  destruct (start_delete_files b l w) as (Hall & H).
  eexists _, _. split; [by apply promise_all_returned | exact H].
Qed.

Lemma clearStorage_clears (w : World) :
  ∃ w', clearStorage cfg env w = (Return tt, w') ∧
        files_of w' (bucketId cfg) = [] ∧
        documents w' = documents w ∧ created w' = created w.
Proof.
  rewrite clearStorage_listed by apply accepts. cbv zeta.
  set (w1 := count_request (add_event _ w)).
  destruct (delete_all_files (bucketId cfg) (files_of w (bucketId cfg)) w1)
    as (r & w2 & -> & Hd & Ho & Hc).
  simpl. eexists. split; [reflexivity |]. split; [| done].
  apply no_elements. intros f Hin. change (f ∈ files_of w2 (bucketId cfg)) in Hin.
  apply Hd in Hin as [Hin Hnot].
  apply Hnot. apply list_elem_of_fmap. by exists f.
Qed.

(** *** Creating documents *)

Lemma createDocument_accepted (c : string) (data : Payload) (w : World) :
  ∃ w', createDocument env c data w
        = (Return {| doc_id := unique_id env (created w); doc_data := data |}, w') ∧
        creates env c data w w' ∧
        trace w' = trace w ++ [Issued (requests w) (CreateDocument c data)].
Proof.
  unfold createDocument, store_call, issue, throw, ret, bind. simpl.
  rewrite accepts. eexists. split; [reflexivity |]. split; [| done].
  split; [by rewrite docs_of_count_created, docs_of_set_docs |].
  split; [| done]. intros c' Hc'.
  by rewrite docs_of_count_created, docs_of_set_docs_ne.
Qed.

Lemma identified_nil (k : nat) : identified env k [].
Proof. exists []. repeat split; constructor. Qed.

Lemma identified_mono (k k' : nat) (ids : list string) :
  k ≤ k' → identified env k ids → identified env k' ids.
Proof.
  intros Hk (js & -> & Hnd & Hlt). exists js. repeat split; [done |].
  eapply Forall_impl; [exact Hlt |]. simpl. lia.
Qed.

Lemma identified_snoc (k : nat) (ids : list string) :
  identified env k ids → identified env (S k) (ids ++ [unique_id env k]).
Proof.
  intros (js & -> & Hnd & Hlt). exists (js ++ [k]). split; [by rewrite fmap_app |].
  split.
  - apply NoDup_app. split; [done |]. split; [| apply NoDup_singleton].
    intros j Hj Hk. apply list_elem_of_singleton in Hk as ->.
    rewrite Forall_forall in Hlt. specialize (Hlt _ Hj). lia.
  - apply Forall_app. split; [| by repeat constructor].
    eapply Forall_impl; [exact Hlt |]. simpl. lia.
Qed.

Lemma identified_NoDup (k : nat) (ids : list string) :
  identified env k ids → NoDup ids.
Proof.
  intros (js & -> & Hnd & _). apply NoDup_fmap_2; [| done].
  intros j j'. apply ids_inj.
Qed.

Lemma creates_identified (c : string) (data : Payload) (w w' : World) :
  creates env c data w w' →
  identified env (created w) (doc_id <$> docs_of w c) →
  identified env (created w') (doc_id <$> docs_of w' c).
Proof.
  intros (Hd & _ & _ & Hc) Hid. rewrite Hd, Hc, fmap_app. simpl.
  by apply identified_snoc.
Qed.

End Reseed.

(** *** Filling a name-to-id table *)

Section Tables.
Variable env : Env.
Hypothesis ids_nonempty : ∀ k, unique_id env k ≠ "".
Context {X : Type} (name_of : X → string) (mk : X → Payload) (c : string).
Variable body : gmap string string → X → M (gmap string string).
Hypothesis body_run :
  ∀ table x w,
    ∃ w', body table x w
          = (Return (Table.set (name_of x) (unique_id env (created w)) table), w') ∧
          creates env c (mk x) w w'.

Lemma named_snoc (xs : list X) (x : X) (name : string) :
  named name_of (xs ++ [x]) name
  = if decide (name_of x = name) then Some x else named name_of xs name.
Proof.
  unfold named. rewrite filter_app, filter_cons, filter_nil.
  destruct (decide (name_of x = name)); [by rewrite last_snoc | by rewrite app_nil_r].
Qed.

Lemma named_name (xs : list X) (x : X) (name : string) :
  named name_of xs name = Some x → name_of x = name.
Proof.
  unfold named. intros H. apply last_Some_elem_of in H.
  by apply list_elem_of_filter in H as [H _].
Qed.

Lemma named_is_Some (xs : list X) (name : string) :
  name ∈ name_of <$> xs → is_Some (named name_of xs name).
Proof.
  induction xs as [|x xs IH] using rev_ind; [by intros H%elem_of_nil |].
  rewrite fmap_app, elem_of_app, named_snoc. intros [H | H].
  - destruct (decide (name_of x = name)); [eauto | by apply IH].
  - apply list_elem_of_singleton in H as ->. rewrite decide_True by done. eauto.
Qed.

Lemma named_None (xs : list X) (name : string) :
  name ∉ name_of <$> xs → named name_of xs name = None.
Proof.
  intros Hn. destruct (named name_of xs name) as [x|] eqn:E; [| done].
  destruct Hn. pose proof (named_name _ _ _ E) as <-.
  unfold named in E. apply last_Some_elem_of, list_elem_of_filter in E as [_ E].
  apply list_elem_of_fmap. by exists x.
Qed.

Lemma table_of_snoc (xs : list X) (table : gmap string string)
    (docs : list Document) (x : X) (k : nat) :
  table_of env name_of mk xs table docs →
  table_of env name_of mk (xs ++ [x]) (<[name_of x := unique_id env k]> table)
    (docs ++ [{| doc_id := unique_id env k; doc_data := mk x |}]).
Proof.
  intros [Hd Ht]. split; [by rewrite !fmap_app, Hd |].
  intros name. rewrite named_snoc. destruct (decide (name_of x = name)) as [<- | Hne].
  - exists (unique_id env k). rewrite lookup_insert_eq. split; [done |].
    split; [apply ids_nonempty |]. apply elem_of_app. right. left.
  - specialize (Ht name). rewrite lookup_insert_ne by done.
    destruct (named name_of xs name) as [y|]; [| done].
    destruct Ht as (id & ? & ? & ?). exists id. repeat split; try done.
    apply elem_of_app. by left.
Qed.

Lemma table_loop (rest : list X) :
  ∀ (done : list X) (table : gmap string string) (w : World),
    Forall (fun x => name_of x ≠ "__proto__") rest →
    table_of env name_of mk done table (docs_of w c) →
    identified env (created w) (doc_id <$> docs_of w c) →
    ∃ table' w',
      for_of body rest table w = (Return table', w') ∧
      table_of env name_of mk (done ++ rest) table' (docs_of w' c) ∧
      identified env (created w') (doc_id <$> docs_of w' c) ∧
      (∀ c', c' ≠ c → docs_of w' c' = docs_of w c') ∧
      files w' = files w ∧
      created w ≤ created w'.
Proof.
  induction rest as [|x rest IH]; intros done table w Hrest Ht Hid; simpl.
  - exists table, w. rewrite app_nil_r. done.
  - apply Forall_cons in Hrest as [Hx Hrest]. unfold bind at 1.
    destruct (body_run table x w) as (w1 & -> & Hcr).
    rewrite (set_insert _ _ _ Hx).
    pose proof Hcr as (Hd & Ho & Hf & Hc).
    destruct (IH (done ++ [x]) (<[name_of x := unique_id env (created w)]> table) w1)
      as (table' & w' & Hrun & Ht' & Hid' & Ho' & Hf' & Hc').
    + done.
    + rewrite Hd. by apply table_of_snoc.
    + rewrite Hd, Hc, fmap_app. simpl.
      destruct Hid as (js & -> & Hnd & Hlt). exists (js ++ [created w]).
      split; [by rewrite fmap_app |]. split.
      * apply NoDup_app. split; [done |]. split; [| apply NoDup_singleton].
        intros j Hj Hk. apply list_elem_of_singleton in Hk as ->.
        rewrite Forall_forall in Hlt. specialize (Hlt _ Hj). lia.
      * apply Forall_app. split; [| by repeat constructor].
        eapply Forall_impl; [exact Hlt |]. simpl. lia.
    + exists table', w'. rewrite <- app_assoc in Ht'. split; [done |].
      split; [done |]. split; [done |]. split; [| split; [congruence | lia]].
      intros c' Hc''. by rewrite Ho', Ho.
Qed.

End Tables.

(** *** The pieces of a run the store never refuses *)

Section Accepted.
Variable cfg : AppwriteConfig.
Variable env : Env.
Hypothesis accepts : ∀ n, store_rejects env n = false.
Hypothesis stable : ∀ n n' url, fetch env n url = fetch env n' url.

Lemma create_category_run (categoryMap : gmap string string) (cat : Category.t)
    (w : World) :
  ∃ w', create_category cfg env categoryMap cat w
        = (Return (Table.set (Category.name cat) (unique_id env (created w))
                     categoryMap), w') ∧
        creates env (categoriesCollectionId cfg) (DCategory cat) w w'.
Proof.
  destruct (createDocument_accepted env accepts (categoriesCollectionId cfg)
              (DCategory cat) w) as (w1 & Hrun & Hcr & _).
  unfold create_category, try_catch. unfold bind at 1. rewrite Hrun.
  unfold console, observe, ret, bind. simpl. eexists. split; [reflexivity |].
  exact Hcr.
Qed.

Lemma create_customization_run (customizationMap : gmap string string)
    (cus : Customization.t) (w : World) :
  ∃ w', create_customization cfg env customizationMap cus w
        = (Return (Table.set (Customization.name cus) (unique_id env (created w))
                     customizationMap), w') ∧
        creates env (customizationsCollectionId cfg) (DCustomization cus) w w'.
Proof.
  destruct (createDocument_accepted env accepts (customizationsCollectionId cfg)
              (DCustomization cus) w) as (w1 & Hrun & Hcr & _).
  unfold create_customization, try_catch. unfold bind at 1.
  destruct cus as [name price type]. simpl. rewrite Hrun.
  unfold console, observe, ret, bind. simpl. eexists. split; [reflexivity |].
  exact Hcr.
Qed.

Lemma link_loop_accepted (customizationMap : gmap string string) (item : MenuItem.t)
    (doc : Document) (names : list string) (w : World) :
  ∃ w' new,
    for_of (fun _ cusName => link_customization cfg env customizationMap item doc cusName)
      names tt w = (Return tt, w') ∧
    docs_of w' (menuCustomizationsCollectionId cfg)
    = docs_of w (menuCustomizationsCollectionId cfg) ++ new ∧
    doc_data <$> new = link_of (doc_id doc) <$> resolvable customizationMap names ∧
    doc_id <$> new = unique_id env <$> seq (created w) (length new) ∧
    created w' = created w + length new ∧
    (∀ c, c ≠ menuCustomizationsCollectionId cfg → docs_of w' c = docs_of w c) ∧
    files w' = files w.
Proof.
  revert w. induction names as [|c names IH]; intros w.
  - exists w, []. simpl. rewrite app_nil_r, Nat.add_0_r. done.
  - cbn [for_of]. unfold bind at 1. rewrite link_customization_run.
    rewrite resolvable_cons, accepts. cbv zeta.
    destruct (missing customizationMap c).
    + destruct (IH (add_event (Console warn (CustomizationNotFound c)) w))
        as (w' & new & Hrun & Hd & Hnew & Hids & Hc & Ho & Hf).
      exists w', new. done.
    + match goal with |- context [for_of _ names tt ?w1] =>
        destruct (IH w1) as (w' & new & Hrun & Hd & Hnew & Hids & Hc & Ho & Hf)
      end.
      eexists w', (_ :: new). split; [exact Hrun |].
      rewrite Hd, docs_of_add_event, docs_of_count_created, docs_of_set_docs,
        <- app_assoc.
      split; [reflexivity |]. rewrite !fmap_cons, Hnew, Hids. simpl in *.
      split; [done |]. split; [done |]. split; [lia |]. split; [| done].
      intros c' Hc'. rewrite Ho by done.
      by rewrite docs_of_add_event, docs_of_count_created, docs_of_set_docs_ne.
Qed.

Lemma link_customizations_accepted (customizationMap : gmap string string)
    (item : MenuItem.t) (doc : Document) (w : World) :
  ∃ w' new,
    link_customizations cfg env customizationMap item doc w = (Return tt, w') ∧
    docs_of w' (menuCustomizationsCollectionId cfg)
    = docs_of w (menuCustomizationsCollectionId cfg) ++ new ∧
    doc_data <$> new
    = link_of (doc_id doc)
        <$> resolvable customizationMap (MenuItem.customizations item) ∧
    doc_id <$> new = unique_id env <$> seq (created w) (length new) ∧
    created w' = created w + length new ∧
    (∀ c, c ≠ menuCustomizationsCollectionId cfg → docs_of w' c = docs_of w c) ∧
    files w' = files w.
Proof.
  unfold link_customizations.
  destruct (MenuItem.customizations item) as [|c names].
  - exists w, []. simpl. rewrite app_nil_r, Nat.add_0_r. done.
  - cbn [length Nat.ltb Nat.leb when]. unfold bind at 1, console, observe. simpl.
    apply (link_loop_accepted customizationMap item doc (c :: names)
             (add_event (Console log (AddingCustomizations (MenuItem.name item))) w)).
Qed.

Lemma served_stable (url : string) (n : nat) : served env url n = served env url 0.
Proof. unfold served. by rewrite (stable n 0). Qed.

Lemma attempt_ok_stable (url : string) (n : nat) :
  attempt_ok env url n = uploadable env url.
Proof. unfold uploadable, attempt_ok. by rewrite served_stable, !accepts. Qed.

(** An upload, by whether the image can be copied. *)
Lemma upload_seeded (url : string) (w : World) :
  ∃ u w1,
    uploadImageToStorage cfg env url 3 w = (Return u, w1) ∧
    documents w1 = documents w ∧
    if uploadable env url then
      ∃ f, stored_as env url 0 (created w) f ∧
           u = getFileView env (bucketId cfg) (file_id f) ∧
           files w1 = <[bucketId cfg := files_of w (bucketId cfg) ++ [f]]> (files w) ∧
           created w1 = S (created w)
    else u = url ∧ files w1 = files w ∧ created w1 = created w.
Proof.
  destruct (uploadable env url) eqn:Hu.
  - destruct (upload_first_attempt_ok cfg env url w) as (f & w1 & Hf & Hrun & Hd & Hfs & Hc).
    { by rewrite attempt_ok_stable. }
    exists (getFileView env (bucketId cfg) (file_id f)), w1.
    split; [done |]. split; [done |]. exists f. split; [| done].
    unfold stored_as in *. by rewrite <- (served_stable url (requests w)).
  - destruct (upload_loop_all_fail cfg env url 3 3 1 w) as (w1 & Hrun & Hd & Hfs & Hc).
    { intros n. by rewrite attempt_ok_stable. }
    exists url, w1. done.
Qed.

End Accepted.

(** *** One menu item *)

Section MenuStep.
Variable cfg : AppwriteConfig.
Variable env : Env.
Hypothesis accepts : ∀ n, store_rejects env n = false.
Hypothesis stable : ∀ n n' url, fetch env n url = fetch env n' url.
Hypothesis distinct :
  NoDup [categoriesCollectionId cfg; customizationsCollectionId cfg;
         menuCollectionId cfg; menuCustomizationsCollectionId cfg].

Lemma menu_represents_mono (w w' : World) (d : Document) (lm : LogicalMenu.t) :
  docs_of w' (categoriesCollectionId cfg) = docs_of w (categoriesCollectionId cfg) →
  (∀ f, f ∈ files_of w (bucketId cfg) → f ∈ files_of w' (bucketId cfg)) →
  menu_represents cfg env w d lm → menu_represents cfg env w' d lm.
Proof.
  intros Hcat Hfiles (m & cd & Hm & ? & ? & ? & ? & ? & ? & Hcd & ? & ? & Himg).
  exists m, cd. rewrite Hcat. repeat (split; [done |]).
  unfold image_represents in *. destruct (LogicalMenu.image lm); [| done].
  destruct Himg as (f & Hf & ?). exists f. split; [by apply Hfiles | done].
Qed.

Lemma link_represents_mono (w w' : World) (d : Document) (l : string * string) :
  docs_of w' (customizationsCollectionId cfg)
  = docs_of w (customizationsCollectionId cfg) →
  (∀ md, md ∈ docs_of w (menuCollectionId cfg) → md ∈ docs_of w' (menuCollectionId cfg)) →
  link_represents cfg w d l → link_represents cfg w' d l.
Proof.
  intros Hcus Hmenu (lk & md & m & cd & c & ? & Hmd & ? & ? & ? & Hcd & ? & ? & ?).
  exists lk, md, m, cd, c. rewrite Hcus. repeat (split; [done |]).
  split; [by apply Hmenu | done].
Qed.

Lemma identified_app_seq (k n : nat) (ids : list string) :
  identified env k ids →
  identified env (k + n) (ids ++ (unique_id env <$> seq k n)).
Proof.
  intros (js & -> & Hnd & Hlt). exists (js ++ seq k n).
  split; [by rewrite fmap_app |]. split.
  - apply NoDup_app. split; [done |]. split; [| apply NoDup_seq].
    intros j Hj Hk. apply elem_of_seq in Hk.
    rewrite Forall_forall in Hlt. specialize (Hlt _ Hj). lia.
  - apply Forall_app. split.
    + eapply Forall_impl; [exact Hlt |]. simpl. lia.
    + apply Forall_forall. intros j Hj. apply elem_of_seq in Hj. lia.
Qed.

(** The join records of an item stand for its resolvable names. *)
Lemma links_represent (custs : list Customization.t)
    (customizationMap : gmap string string) (w : World) (md : Document)
    (m : MenuDoc.t) (mname : string) (names : list string) (new : list Document) :
  table_of env Customization.name DCustomization custs customizationMap
    (docs_of w (customizationsCollectionId cfg)) →
  Forall plain names →
  md ∈ docs_of w (menuCollectionId cfg) →
  doc_data md = DMenu m →
  MenuDoc.name m = mname →
  doc_data <$> new = link_of (doc_id md) <$> resolvable customizationMap names →
  Forall2 (link_represents cfg w) new
    ((fun c => (mname, c))
       <$> filter (fun c => c ∈ Customization.name <$> custs) names).
Proof.
  intros [_ Ht] Hplain Hmd Hm Hname. revert new.
  induction Hplain as [|c names Hc _ IH]; intros new Hnew.
  - destruct new; [constructor | done].
  - rewrite resolvable_cons in Hnew. rewrite filter_cons. specialize (Ht c).
    destruct (decide (c ∈ Customization.name <$> custs)) as [Hin | Hout].
    + destruct (named_is_Some Customization.name custs c Hin) as [x Hx].
      rewrite Hx in Ht. destruct Ht as (id & Hid & Hne & Hdoc).
      assert (missing customizationMap c = false) as Hmiss.
      { rewrite (missing_own _ _ _ Hid). by destruct id. }
      rewrite Hmiss, (get_own _ _ _ Hid) in Hnew. simpl in Hnew.
      destruct new as [|d new]; [done |]. rewrite !fmap_cons in Hnew.
      injection Hnew as Hd Hnew. constructor; [| by apply IH].
      eexists _, md, m, _, x. split; [exact Hd |]. simpl.
      do 4 (split; [done |]). split; [exact Hdoc |].
      do 2 (split; [done |]). by eapply named_name.
    + rewrite (named_None Customization.name custs c Hout) in Ht.
      assert (missing customizationMap c = true) as Hmiss.
      { by apply missing_absent. }
      rewrite Hmiss in Hnew. by apply IH.
Qed.

End MenuStep.

Section MenuRun.
Variable cfg : AppwriteConfig.
Variable env : Env.
Hypothesis accepts : ∀ n, store_rejects env n = false.
Hypothesis stable : ∀ n n' url, fetch env n url = fetch env n' url.
Hypothesis distinct :
  NoDup [categoriesCollectionId cfg; customizationsCollectionId cfg;
         menuCollectionId cfg; menuCustomizationsCollectionId cfg].

Lemma create_menu_item_present (categoryMap customizationMap : gmap string string)
    (total i : nat) (menuMap : gmap string string) (item : MenuItem.t)
    (w w1 w2 w' : World) (u : string) (doc : Document) :
  missing categoryMap (MenuItem.category_name item) = false →
  uploadImageToStorage cfg env (MenuItem.image_url item) 3
    (add_event
       (Console log (ProcessingMenuItem (i + 1) total (MenuItem.name item))) w)
  = (Return u, w1) →
  createDocument env (menuCollectionId cfg)
    (DMenu
       {| MenuDoc.name := MenuItem.name item;
          MenuDoc.description := MenuItem.description item;
          MenuDoc.image_url := u;
          MenuDoc.price := MenuItem.price item;
          MenuDoc.rating := MenuItem.rating item;
          MenuDoc.calories := MenuItem.calories item;
          MenuDoc.protein := MenuItem.protein item;
          MenuDoc.categories :=
            Table.get categoryMap (MenuItem.category_name item) |}) w1
  = (Return doc, w2) →
  link_customizations cfg env customizationMap item doc
    (add_event (Console log (MenuItemCreated (MenuItem.name item))) w2)
  = (Return tt, w') →
  create_menu_item cfg env categoryMap customizationMap total i menuMap item w
  = (Return (Table.set (MenuItem.name item) (doc_id doc) menuMap), w').
Proof.
  intros Hmiss Hup Hdoc Hlink.
  unfold create_menu_item, console, observe, try_catch.
  unfold bind at 1. simpl. unfold bind at 1. rewrite Hup, Hmiss.
  cbn [when]. unfold bind at 1, ret at 1. unfold bind at 1. rewrite Hdoc.
  unfold bind at 1. unfold bind at 1. simpl. rewrite Hlink. reflexivity.
Qed.

(** What the upload of an item adds, in the terms of the logical content. *)
Lemma upload_summary (item : MenuItem.t) (w : World) :
  ∃ u w1 fnew,
    uploadImageToStorage cfg env (MenuItem.image_url item) 3 w = (Return u, w1) ∧
    documents w1 = documents w ∧
    files_of w1 (bucketId cfg) = files_of w (bucketId cfg) ++ fnew ∧
    created w1 = created w + length fnew ∧
    file_id <$> fnew = unique_id env <$> seq (created w) (length fnew) ∧
    Forall2 file_represents fnew (omap (expected_file env) [item]) ∧
    image_represents cfg env w1 u (expected_image env item).
Proof.
  destruct (upload_seeded cfg env accepts stable (MenuItem.image_url item) w)
    as (u & w1 & Hup & Hd & Hcase).
  unfold expected_image, expected_file. simpl.
  destruct (uploadable env (MenuItem.image_url item)) eqn:Hu.
  - destruct Hcase as (f & (Hid & Huri & Hst & _) & -> & Hfs & Hc).
    assert (is_Some (served env (MenuItem.image_url item) 0)) as [[size type] Hs].
    { unfold uploadable, attempt_ok in Hu.
      destruct (served env (MenuItem.image_url item) 0); [eauto |].
      by rewrite !andb_false_r in Hu. }
    rewrite Hs in Hst |- *. simpl in *. injection Hst as Hsize Htype.
    assert (Hrep : file_represents f (MenuItem.image_url item, size, type_or_default type))
      by done.
    assert (Hfiles : files_of w1 (bucketId cfg) = files_of w (bucketId cfg) ++ [f]).
    { unfold files_of at 1. by rewrite Hfs, lookup_insert_eq. }
    exists (getFileView env (bucketId cfg) (file_id f)), w1, [f].
    split; [done |]. split; [done |]. split; [done |]. split; [simpl; lia |].
    split; [simpl; by rewrite Hid |]. split; [by repeat constructor |].
    exists f. split; [| done]. rewrite Hfiles. apply elem_of_app. right. left.
  - destruct Hcase as (-> & Hfs & Hc).
    exists (MenuItem.image_url item), w1, []. split; [done |]. split; [done |].
    split; [unfold files_of; by rewrite Hfs, app_nil_r |].
    split; [simpl; lia |]. split; [done |]. split; [constructor | done].
Qed.

End MenuRun.

Section MenuLoop.
Variable cfg : AppwriteConfig.
Variable env : Env.
Hypothesis accepts : ∀ n, store_rejects env n = false.
Hypothesis stable : ∀ n n' url, fetch env n url = fetch env n' url.
Hypothesis distinct :
  NoDup [categoriesCollectionId cfg; customizationsCollectionId cfg;
         menuCollectionId cfg; menuCustomizationsCollectionId cfg].
Variable cats : list Category.t.
Variable custs : list Customization.t.
Variable Dcat Dcus : list Document.
Variable categoryMap customizationMap : gmap string string.
Hypothesis category_table :
  table_of env Category.name DCategory cats categoryMap Dcat.
Hypothesis customization_table :
  table_of env Customization.name DCustomization custs customizationMap Dcus.

Lemma distinct_collections :
  categoriesCollectionId cfg ≠ menuCollectionId cfg ∧
  categoriesCollectionId cfg ≠ menuCustomizationsCollectionId cfg ∧
  customizationsCollectionId cfg ≠ menuCollectionId cfg ∧
  customizationsCollectionId cfg ≠ menuCustomizationsCollectionId cfg ∧
  menuCollectionId cfg ≠ menuCustomizationsCollectionId cfg ∧
  categoriesCollectionId cfg ≠ customizationsCollectionId cfg.
Proof.
  pose proof distinct as H. rewrite !NoDup_cons, !not_elem_of_cons in H.
  destruct H as ((H1 & H2 & H3 & _) & (H4 & H5 & _) & (H6 & _) & _).
  done.
Qed.

Lemma create_menu_item_step (total i : nat) (menuMap : gmap string string)
    (item : MenuItem.t) (done : list MenuItem.t) (w : World) :
  MenuItem.category_name item ∈ Category.name <$> cats →
  Forall plain (MenuItem.customizations item) →
  menu_phase cfg env cats custs Dcat Dcus done w →
  ∃ menuMap' w',
    create_menu_item cfg env categoryMap customizationMap total i menuMap item w
    = (Return menuMap', w') ∧
    menu_phase cfg env cats custs Dcat Dcus (done ++ [item]) w'.
Proof.
  intros Hcat Hplain (Hdc & Hdu & Hmenu & Hlinks & Hfiles & Hidm & Hidl & Hidf).
  destruct distinct_collections as (Hcm & Hcl & Hum & Hul & Hml & _).
  set (w0 := add_event (Console log
                (ProcessingMenuItem (i + 1) total (MenuItem.name item))) w).
  destruct (upload_summary cfg env accepts stable item w0)
    as (u & w1 & fnew & Hup & Hd1 & Hf1 & Hc1 & Hfid & Hfrep & Himg).
  change (files_of w0 (bucketId cfg)) with (files_of w (bucketId cfg)) in Hf1.
  change (created w0) with (created w) in Hc1, Hfid.
  destruct (named_is_Some Category.name cats _ Hcat) as [c Hc].
  destruct category_table as [_ Hct]. specialize (Hct (MenuItem.category_name item)).
  rewrite Hc in Hct. destruct Hct as (cid & Hcid & Hcne & Hcdoc).
  assert (Hmiss : missing categoryMap (MenuItem.category_name item) = false).
  { rewrite (missing_own _ _ _ Hcid). by destruct cid. }
  match goal with |- context [create_menu_item _ _ _ _ _ _ _ _ _] =>
    destruct (createDocument_accepted env accepts (menuCollectionId cfg)
      (DMenu
         {| MenuDoc.name := MenuItem.name item;
            MenuDoc.description := MenuItem.description item;
            MenuDoc.image_url := u;
            MenuDoc.price := MenuItem.price item;
            MenuDoc.rating := MenuItem.rating item;
            MenuDoc.calories := MenuItem.calories item;
            MenuDoc.protein := MenuItem.protein item;
            MenuDoc.categories :=
              Table.get categoryMap (MenuItem.category_name item) |}) w1)
      as (w2 & Hdoc & (Hd2 & Ho2 & Hf2 & Hc2) & _)
  end.
  set (doc := {| doc_id := unique_id env (created w1); doc_data := DMenu _ |}) in *.
  destruct (link_customizations_accepted cfg env accepts customizationMap item doc
              (add_event (Console log (MenuItemCreated (MenuItem.name item))) w2))
    as (w' & new & Hlink & Hd3 & Hnew & Hids & Hc3 & Ho3 & Hf3).
  exists (Table.set (MenuItem.name item) (doc_id doc) menuMap), w'.
  split; [by eapply create_menu_item_present |].
  (* the store of [w'], collection by collection *)
  assert (Hdocs1 : ∀ c', docs_of w1 c' = docs_of w c').
  { intros c'. by rewrite (docs_of_same w0 w1 c' Hd1). }
  assert (Ecat : docs_of w' (categoriesCollectionId cfg) = Dcat).
  { rewrite Ho3, docs_of_add_event, Ho2, Hdocs1 by done. done. }
  assert (Ecus : docs_of w' (customizationsCollectionId cfg) = Dcus).
  { rewrite Ho3, docs_of_add_event, Ho2, Hdocs1 by done. done. }
  assert (Emenu : docs_of w' (menuCollectionId cfg)
                  = docs_of w (menuCollectionId cfg) ++ [doc]).
  { rewrite Ho3, docs_of_add_event, Hd2, Hdocs1 by done. done. }
  assert (Elinks : docs_of w' (menuCustomizationsCollectionId cfg)
                   = docs_of w (menuCustomizationsCollectionId cfg) ++ new).
  { rewrite Hd3, docs_of_add_event, Ho2, Hdocs1 by done. done. }
  assert (Efiles : files_of w' (bucketId cfg) = files_of w (bucketId cfg) ++ fnew).
  { rewrite <- Hf1. unfold files_of. by rewrite Hf3, <- Hf2. }
  assert (Ecreated : created w' = S (created w1) + length new).
  { rewrite Hc3. simpl. by rewrite Hc2. }
  assert (Hcw1 : created w ≤ created w1) by lia.
  assert (Hdocin : doc ∈ docs_of w' (menuCollectionId cfg)).
  { rewrite Emenu. apply elem_of_app. right. left. }
  split; [done |]. split; [done |].
  split; [| split; [| split; [| split; [| split]]]].
  - rewrite Emenu, omap_app. apply Forall2_app.
    + eapply Forall2_impl; [exact Hmenu |]. intros d lm.
      apply menu_represents_mono; [by rewrite Ecat |].
      intros f Hf. rewrite Efiles. apply elem_of_app. by left.
    + unfold expected_menu. simpl. rewrite Hc. simpl. constructor; [| constructor].
      eexists _, _. split; [reflexivity |]. simpl. do 6 (split; [done |]).
      rewrite Ecat. split; [exact Hcdoc |]. rewrite (get_own _ _ _ Hcid). simpl.
      do 2 (split; [done |]).
      unfold image_represents in *. destruct (expected_image env item); [| done].
      destruct Himg as (f & Hf & ?). exists f. split; [| done].
      rewrite Efiles, <- Hf1. done.
  - rewrite Elinks, bind_app. apply Forall2_app.
    + eapply Forall2_impl; [exact Hlinks |]. intros d l.
      apply link_represents_mono; [by rewrite Ecus |].
      intros md Hmd. rewrite Emenu. apply elem_of_app. by left.
    + replace ([item] ≫= expected_links custs) with (expected_links custs item)
        by (simpl; by rewrite app_nil_r).
      unfold expected_links, resolvable_names.
      eapply (links_represent cfg env custs customizationMap w' doc);
        [by rewrite Ecus | done | done | reflexivity | reflexivity | done].
  - by rewrite Efiles, omap_app; apply Forall2_app.
  - rewrite Emenu, fmap_app, Ecreated. simpl.
    eapply (identified_mono env (S (created w1))); [lia |].
    apply identified_snoc. by eapply identified_mono.
  - rewrite Elinks, fmap_app, Hids, Ecreated. simpl. rewrite Hc2.
    apply identified_app_seq. eapply identified_mono; [| exact Hidl]. lia.
  - rewrite Efiles, fmap_app, Hfid.
    eapply (identified_mono env (created w + length fnew)); [lia |].
    by apply identified_app_seq.
Qed.

Lemma menu_loop_seeded (total : nat) (rest : list MenuItem.t) :
  ∀ (i : nat) (menuMap : gmap string string) (done : list MenuItem.t) (w : World),
    (∀ item, item ∈ rest →
             MenuItem.category_name item ∈ Category.name <$> cats) →
    (∀ item, item ∈ rest → Forall plain (MenuItem.customizations item)) →
    menu_phase cfg env cats custs Dcat Dcus done w →
    ∃ menuMap' w',
      for_index (create_menu_item cfg env categoryMap customizationMap total)
        i rest menuMap w = (Return menuMap', w') ∧
      menu_phase cfg env cats custs Dcat Dcus (done ++ rest) w'.
Proof.
  induction rest as [|item rest IH]; intros i menuMap done w Hcat Hplain Hinv; simpl.
  - exists menuMap, w. by rewrite app_nil_r.
  - unfold bind at 1.
    destruct (create_menu_item_step total i menuMap item done w)
      as (mm1 & w1 & -> & Hinv1); [apply Hcat; left | apply Hplain; left | done |].
    destruct (IH (S i) mm1 (done ++ [item]) w1) as (mm' & w' & Hrun & Hinv').
    + intros x Hx. apply Hcat. by right.
    + intros x Hx. apply Hplain. by right.
    + done.
    + exists mm', w'. by rewrite <- app_assoc in Hinv'.
Qed.

End MenuLoop.

(** *** The whole run *)

Section Seeded.
Variable cfg : AppwriteConfig.
Variable env : Env.
Variable data : DummyData.t.
Hypothesis accepts : ∀ n, store_rejects env n = false.
Hypothesis stable : ∀ n n' url, fetch env n url = fetch env n' url.
Hypothesis ids_inj : ∀ j k, unique_id env j = unique_id env k → j = k.
Hypothesis ids_nonempty : ∀ k, unique_id env k ≠ "".
Hypothesis distinct :
  NoDup [categoriesCollectionId cfg; customizationsCollectionId cfg;
         menuCollectionId cfg; menuCustomizationsCollectionId cfg].
Hypothesis categories_resolve :
  ∀ item, item ∈ DummyData.menu data →
          MenuItem.category_name item ∈ Category.name <$> DummyData.categories data.
Hypothesis categories_plain :
  ∀ cat, cat ∈ DummyData.categories data → plain (Category.name cat).
Hypothesis customizations_plain :
  ∀ cus, cus ∈ DummyData.customizations data → plain (Customization.name cus).
Hypothesis listed_plain :
  ∀ item, item ∈ DummyData.menu data → Forall plain (MenuItem.customizations item).

Lemma represents_add_event (e : Event) (w : World) (L : Logical.t) :
  represents cfg env w L → represents cfg env (add_event e w) L.
Proof. intros H. exact H. Qed.

Lemma seeded_counts_add_event (e : Event) (w : World) :
  seeded_counts cfg data w → seeded_counts cfg data (add_event e w).
Proof. intros H. exact H. Qed.

Lemma length_expected_menu (cats : list Category.t) (menu : list MenuItem.t) :
  (∀ item, item ∈ menu → MenuItem.category_name item ∈ Category.name <$> cats) →
  length (omap (expected_menu env cats) menu) = length menu.
Proof.
  induction menu as [|item menu IH]; intros H; [done |].
  rewrite omap_cons_match. unfold expected_menu at 1.
  destruct (named_is_Some Category.name cats (MenuItem.category_name item)) as [c ->].
  { apply H. left. }
  simpl. f_equal. apply IH. intros x Hx. apply H. by right.
Qed.

Lemma length_expected_links (custs : list Customization.t) (menu : list MenuItem.t) :
  length (menu ≫= expected_links custs) = length (menu ≫= resolvable_names custs).
Proof.
  induction menu as [|item menu IH]; [done |].
  rewrite !bind_cons, !length_app, IH. unfold expected_links.
  by rewrite length_fmap.
Qed.

Local Ltac run_log H :=
  unfold bind at 1 in H; unfold console at 1, observe at 1 in H;
  cbv beta iota in H.

Local Ltac run_with H E :=
  unfold bind at 1 in H; rewrite E in H; cbv beta iota in H.

(** Seeding any store, under a store that accepts every request and a
    network that answers the same every time, completes and leaves the
    logical content of the dataset. *)
Lemma seed_represents (w : World) :
  (seed cfg env data w).1 = Return tt ∧
  represents cfg env (seed cfg env data w).2 (expected env data) ∧
  seeded_counts cfg data (seed cfg env data w).2.
Proof.
  destruct (distinct_collections cfg distinct) as (Hcm & Hcl & Hum & Hul & Hml & Hcu).
  destruct (seed cfg env data w) as [c wf] eqn:Hseed.
  unfold seed, try_catch in Hseed.
  run_log Hseed. run_log Hseed. unfold bind at 1 in Hseed.
  match type of Hseed with context [clearAll env ?c0 ?w0] =>
    destruct (clearAll_clears env accepts c0 w0) as (w1 & H1 & E1 & O1 & F1 & C1)
  end.
  rewrite H1 in Hseed. cbv beta iota in Hseed.
  destruct (clearAll_clears env accepts (customizationsCollectionId cfg) w1)
    as (w2 & H2 & E2 & O2 & F2 & C2).
  run_with Hseed H2.
  destruct (clearAll_clears env accepts (menuCollectionId cfg) w2)
    as (w3 & H3 & E3 & O3 & F3 & C3).
  run_with Hseed H3.
  destruct (clearAll_clears env accepts (menuCustomizationsCollectionId cfg) w3)
    as (w4 & H4 & E4 & O4 & F4 & C4).
  run_with Hseed H4.
  destruct (clearStorage_clears cfg env accepts w4) as (w5 & H5 & E5 & D5 & C5).
  run_with Hseed H5. run_log Hseed.
  (* the four collections and the bucket are empty *)
  assert (Acat : docs_of w5 (categoriesCollectionId cfg) = []).
  { rewrite (docs_of_same w4 w5 _ D5), O4, O3, O2 by done. done. }
  assert (Acus : docs_of w5 (customizationsCollectionId cfg) = []).
  { rewrite (docs_of_same w4 w5 _ D5), O4, O3 by done. done. }
  assert (Amenu : docs_of w5 (menuCollectionId cfg) = []).
  { rewrite (docs_of_same w4 w5 _ D5), O4 by done. done. }
  assert (Alinks : docs_of w5 (menuCustomizationsCollectionId cfg) = []).
  { by rewrite (docs_of_same w4 w5 _ D5). }
  (* categories *)
  unfold bind at 1 in Hseed.
  match type of Hseed with context [for_of _ _ _ ?w0] =>
    destruct (table_loop env ids_nonempty Category.name DCategory
                (categoriesCollectionId cfg) (create_category cfg env)
                (create_category_run cfg env accepts)
                (DummyData.categories data) [] ∅ w0)
      as (cm & w7 & H7 & T7 & I7 & O7 & F7 & C7)
  end.
  { apply Forall_forall. intros cat Hcat. by apply plain_settable, categories_plain. }
  { rewrite docs_of_add_event, Acat. split; [done |]. intros name. apply lookup_empty. }
  { rewrite docs_of_add_event, Acat. apply identified_nil. }
  rewrite H7 in Hseed. cbv beta iota in Hseed. run_log Hseed.
  (* customizations *)
  unfold bind at 1 in Hseed.
  match type of Hseed with context [for_of _ _ _ ?w0] =>
    destruct (table_loop env ids_nonempty Customization.name DCustomization
                (customizationsCollectionId cfg) (create_customization cfg env)
                (create_customization_run cfg env accepts)
                (DummyData.customizations data) [] ∅ w0)
      as (cum & w9 & H9 & T9 & I9 & O9 & F9 & C9)
  end.
  { apply Forall_forall. intros cus Hcus. by apply plain_settable, customizations_plain. }
  { rewrite docs_of_add_event, O7, docs_of_add_event, Acus by done.
    split; [done |]. intros name. apply lookup_empty. }
  { rewrite docs_of_add_event, O7, docs_of_add_event, Acus by done.
    apply identified_nil. }
  rewrite H9 in Hseed. cbv beta iota in Hseed. run_log Hseed.
  unfold bind at 1 in Hseed.
  (* menu items *)
  assert (Bcat : docs_of w9 (categoriesCollectionId cfg)
                 = docs_of w7 (categoriesCollectionId cfg)).
  { by rewrite O9, docs_of_add_event. }
  match type of Hseed with context [for_index _ _ _ _ ?w0] =>
    destruct (menu_loop_seeded cfg env accepts stable distinct
                (DummyData.categories data) (DummyData.customizations data)
                (docs_of w7 (categoriesCollectionId cfg))
                (docs_of w9 (customizationsCollectionId cfg)) cm cum T7 T9
                (length (DummyData.menu data)) (DummyData.menu data) 0 ∅ [] w0)
      as (mm & w11 & H11 & Inv)
  end.
  { exact categories_resolve. }
  { exact listed_plain. }
  { rewrite <- Bcat. split; [done |]. split; [done |].
    rewrite !docs_of_add_event.
    rewrite (O9 (menuCollectionId cfg)), (O9 (menuCustomizationsCollectionId cfg))
      by done.
    rewrite !docs_of_add_event.
    rewrite (O7 (menuCollectionId cfg)), (O7 (menuCustomizationsCollectionId cfg))
      by done.
    rewrite !docs_of_add_event, Amenu, Alinks.
    assert (files_of w9 (bucketId cfg) = []) as Afiles.
    { unfold files_of. rewrite F9. simpl. rewrite F7. done. }
    change (files_of (add_event (Console log CreatingMenuItems) w9) (bucketId cfg))
      with (files_of w9 (bucketId cfg)).
    rewrite Afiles. simpl.
    repeat split; try constructor; apply identified_nil. }
  rewrite H11 in Hseed. cbv beta iota in Hseed.
  do 4 run_log Hseed. unfold console, observe in Hseed.
  injection Hseed as <- <-. split; [done |].
  destruct Inv as (Icat & Icus & Imenu & Ilinks & Ifiles & Jm & Jl & Jf).
  assert (Hrep : represents cfg env w11 (expected env data)).
  { unfold represents, expected. simpl. rewrite Icat, Icus.
    split; [apply T7 |]. split; [apply T9 |].
    split; [done |]. split; [done |]. split; [done |].
    split; [by eapply identified_NoDup |]. split; [by eapply identified_NoDup |].
    split; [by eapply identified_NoDup |]. split; by eapply identified_NoDup. }
  assert (Hcount : seeded_counts cfg data w11).
  { unfold seeded_counts. rewrite Icat, Icus.
    destruct T7 as [T7 _], T9 as [T9 _].
    apply (f_equal length) in T7, T9.
    rewrite 2!length_fmap in T7. rewrite 2!length_fmap in T9.
    split; [done |]. split; [done |]. split.
    - rewrite (Forall2_length _ _ _ Imenu). by apply length_expected_menu.
    - rewrite (Forall2_length _ _ _ Ilinks). apply length_expected_links. }
  split; [by repeat apply represents_add_event |].
  by repeat apply seeded_counts_add_event.
Qed.

End Seeded.

(** C4 (amended): under a store that accepts every request and assigns
    distinct, non-empty identifiers, a network that answers the same every
    time, four distinct collections, and a dataset whose menu items all
    name a category of the dataset and in which no category, no
    customization and no listed customization goes by the name of a member
    every object inherits: seeding once and seeding twice in succession
    both complete and leave the same logical content, that of the
    dataset; the categories, customizations and menu collections hold one
    document per dataset entry, and the join collection one per
    resolvable link. *)
Theorem seed_twice_same_logical_state (cfg : AppwriteConfig) (env : Env)
    (data : DummyData.t) (w : World) :
  (∀ n, store_rejects env n = false) →
  (∀ n n' url, fetch env n url = fetch env n' url) →
  (∀ j k, unique_id env j = unique_id env k → j = k) →
  (∀ k, unique_id env k ≠ "") →
  NoDup [categoriesCollectionId cfg; customizationsCollectionId cfg;
         menuCollectionId cfg; menuCustomizationsCollectionId cfg] →
  (∀ item, item ∈ DummyData.menu data →
           MenuItem.category_name item
           ∈ Category.name <$> DummyData.categories data) →
  (∀ cat, cat ∈ DummyData.categories data → plain (Category.name cat)) →
  (∀ cus, cus ∈ DummyData.customizations data → plain (Customization.name cus)) →
  (∀ item, item ∈ DummyData.menu data →
           Forall plain (MenuItem.customizations item)) →
  let once := (seed cfg env data w).2 in
  let twice := (seed cfg env data once).2 in
  (seed cfg env data w).1 = Return tt ∧
  (seed cfg env data once).1 = Return tt ∧
  represents cfg env once (expected env data) ∧
  represents cfg env twice (expected env data) ∧
  seeded_counts cfg data once ∧
  seeded_counts cfg data twice.
Proof.
  intros accepts stable ids_inj ids_nonempty distinct categories_resolve
    categories_plain customizations_plain listed_plain once twice.
  destruct (seed_represents cfg env data accepts stable ids_inj ids_nonempty
              distinct categories_resolve categories_plain customizations_plain
              listed_plain w) as (R1 & L1 & N1).
  destruct (seed_represents cfg env data accepts stable ids_inj ids_nonempty
              distinct categories_resolve categories_plain customizations_plain
              listed_plain once) as (R2 & L2 & N2).
  done.
Qed.

Lemma seed_twice_same_logical_state_witness :
  let once := (seed sample_config Sample.online Sample.data Sample.empty_world).2 in
  let twice := (seed sample_config Sample.online Sample.data once).2 in
  (seed sample_config Sample.online Sample.data Sample.empty_world).1 = Return tt ∧
  (seed sample_config Sample.online Sample.data once).1 = Return tt ∧
  represents sample_config Sample.online once (expected Sample.online Sample.data) ∧
  represents sample_config Sample.online twice (expected Sample.online Sample.data) ∧
  seeded_counts sample_config Sample.data once ∧
  seeded_counts sample_config Sample.data twice.
Proof.
  apply (seed_twice_same_logical_state sample_config Sample.online Sample.data
           Sample.empty_world).
  - intros n. reflexivity.
  - intros n n' url. reflexivity.
  - intros j k H. apply (inj (String.append "id")) in H. by apply (inj pretty) in H.
  - intros k H. discriminate H.
  - apply (bool_decide_unpack _). vm_compute. exact I.
  - intros item Hin.
    repeat (apply elem_of_cons in Hin as [-> | Hin];
            [apply (bool_decide_unpack _); vm_compute; exact I |]).
    by apply elem_of_nil in Hin.
  - intros cat Hin.
    repeat (apply elem_of_cons in Hin as [-> | Hin];
            [apply (bool_decide_unpack _); vm_compute; exact I |]).
    by apply elem_of_nil in Hin.
  - intros cus Hin.
    repeat (apply elem_of_cons in Hin as [-> | Hin];
            [apply (bool_decide_unpack _); vm_compute; exact I |]).
    by apply elem_of_nil in Hin.
  - intros item Hin.
    repeat (apply elem_of_cons in Hin as [-> | Hin];
            [apply (bool_decide_unpack _); vm_compute; exact I |]).
    by apply elem_of_nil in Hin.
Defined.

(** C4 as stated fails when the store rejects a join record: on the sample
    dataset, under a store that rejects the first join record of the first
    run and nothing else, both runs complete; the first leaves one join
    record where the dataset has two resolvable links, and the second
    leaves two, so that the two end states differ.  It also fails when
    the image host answers differently the second time: under a store
    that accepts everything, the first run leaves a copy of an image in
    the bucket and the second run none. *)
Lemma seed_twice_counterexample :
  (let once := seed sample_config Sample.flaky Sample.data Sample.empty_world in
   let twice := seed sample_config Sample.flaky Sample.data once.2 in
   once.1 = Return tt ∧
   twice.1 = Return tt ∧
   length (DummyData.menu Sample.data
             ≫= resolvable_names (DummyData.customizations Sample.data)) = 2 ∧
   length (docs_of once.2 (menuCustomizationsCollectionId sample_config)) = 1 ∧
   length (docs_of twice.2 (menuCustomizationsCollectionId sample_config)) = 2 ∧
   ¬ seeded_counts sample_config Sample.data once.2) ∧
  (let once :=
     seed sample_config Sample.host_goes_down Sample.data Sample.empty_world in
   let twice := seed sample_config Sample.host_goes_down Sample.data once.2 in
   once.1 = Return tt ∧
   twice.1 = Return tt ∧
   length (files_of once.2 (bucketId sample_config)) = 1 ∧
   length (files_of twice.2 (bucketId sample_config)) = 0).
Proof.
  cbv zeta. split.
  - assert (length (docs_of
              (seed sample_config Sample.flaky Sample.data Sample.empty_world).2
              (menuCustomizationsCollectionId sample_config)) = 1) as Hone
      by (vm_compute; reflexivity).
    assert (length (DummyData.menu Sample.data
              ≫= resolvable_names (DummyData.customizations Sample.data)) = 2)
      as Htwo by (vm_compute; reflexivity).
    split; [vm_compute; reflexivity |].
    split; [vm_compute; reflexivity |].
    split; [exact Htwo |]. split; [exact Hone |].
    split; [vm_compute; reflexivity |].
    intros (_ & _ & _ & Hlinks). rewrite Hone, Htwo in Hlinks. discriminate.
  - split; [vm_compute; reflexivity |].
    split; [vm_compute; reflexivity |].
    split; vm_compute; reflexivity.
Qed.

(** * Further properties of the sources *)

(** ** The normaliser applied twice, and the image slot *)

Section NormaliserTwice.
Variable cfg : AppwriteConfig.

Lemma app_empty (s t : string) : s +:+ t = "" → s = "" ∧ t = "".
Proof. destruct s; [rewrite app_nil; done | rewrite app_cons; done]. Qed.

Lemma app_assoc_str (s t u : string) : (s +:+ t) +:+ u = s +:+ (t +:+ u).
Proof. induction s as [|a s IH]; [done |]. rewrite !app_cons. by rewrite IH. Qed.

Lemma contains_app_l (s t part : string) : contains s part → contains (s +:+ t) part.
Proof.
  intros (b & a & ->). exists b, (a +:+ t). by rewrite !app_assoc_str.
Qed.



(** A prefix that does not hold the character [c] cannot reach past it. *)
Lemma prefix_app_fresh (p u s : string) (c : ascii) :
  p ≠ "" → JS.includes p (String c "") = false →
  String.prefix p (u +:+ String c s) = String.prefix p u.
Proof.
  revert u. induction p as [|a p IH]; [done |]. intros u _ Hc.
  cbn [JS.includes] in Hc. apply orb_false_iff in Hc as [Ha Hp].
  assert (a ≠ c) as Hac.
  { intros ->. simpl in Ha. destruct (ascii_dec c c); [| done].
    by destruct p. }
  destruct u as [|b u].
  - rewrite app_nil. simpl. by destruct (ascii_dec a c).
  - rewrite app_cons. simpl. destruct (ascii_dec a b); [| done].
    destruct p as [|a' p']; [by destruct u |].
    by apply IH.
Qed.

Lemma with_project_no_scheme (url : string) :
  ¬ has_scheme url → ¬ has_scheme (with_project cfg url).
Proof.
  intros Hno Hs. apply Hno. apply startsWith_scheme.
  apply startsWith_scheme in Hs. unfold with_project, JS.startsWith in *.
  change ("?project=" +:+ projectId cfg) with (String "?" ("project=" +:+ projectId cfg)) in Hs.
  by rewrite !prefix_app_fresh in Hs.
Qed.

Lemma getImageUrl_nonempty (url : string) :
  url ≠ "" → MenuCard.getImageUrl cfg url ≠ "".
Proof.
  intros Hne.
  destruct (JS.startsWith url "http://" || JS.startsWith url "https://") eqn:E.
  - apply startsWith_scheme in E. by rewrite getImageUrl_scheme.
  - rewrite getImageUrl_no_scheme; [| done | by rewrite <- startsWith_scheme, E].
    repeat case_match; unfold with_project, view_of_file; intros Hg.
    + by apply app_empty in Hg as [? _].
    + by apply app_empty in Hg as [? _].
    + apply app_empty in Hg as [_ Hg]. discriminate.
Qed.
End NormaliserTwice.


(** X19: a reference without a scheme that holds a path separator gets the
    access-project parameter appended again each time it is normalised. *)
Theorem getImageUrl_appends_again (cfg : AppwriteConfig) (url : string) :
  ¬ has_scheme url → contains url "/" →
  MenuCard.getImageUrl cfg (MenuCard.getImageUrl cfg url)
  = with_project cfg (with_project cfg url).
Proof.
  intros Hs Hc.
  assert (∀ u, ¬ has_scheme u → contains u "/" →
               MenuCard.getImageUrl cfg u = with_project cfg u) as Hstep.
  { intros u Hu Hcu.
    assert (u ≠ "") as Hne.
    { intros ->. destruct Hcu as (b & a & H). symmetry in H.
      apply app_empty in H as [_ H]. discriminate. }
    rewrite getImageUrl_no_scheme by done.
    apply includes_iff in Hcu. rewrite Hcu. by case_match. }
  rewrite (Hstep url) by done.
  apply Hstep; [by apply with_project_no_scheme | by apply contains_app_l].
Qed.

Lemma getImageUrl_appends_again_witness :
  MenuCard.getImageUrl sample_config
    (MenuCard.getImageUrl sample_config "/v1/storage/buckets/assets/files/f1/view")
  = with_project sample_config
      (with_project sample_config "/v1/storage/buckets/assets/files/f1/view").
Proof.
  apply (getImageUrl_appends_again sample_config "/v1/storage/buckets/assets/files/f1/view").
  - rewrite <- startsWith_scheme. done.
  - by apply includes_iff.
Defined.


(** X20: the card shows an image exactly when the reference is not empty
    and no load error has been recorded, and the image shown is the
    normalised reference. *)
Theorem imageSlot_shows_image_iff (cfg : AppwriteConfig) (image_url : string)
    (imageError : bool) (uri : string) :
  MenuCard.imageSlot cfg image_url imageError = MenuCard.Image uri
  ↔ image_url ≠ "" ∧ imageError = false ∧ uri = MenuCard.getImageUrl cfg image_url.
Proof.
  unfold MenuCard.imageSlot.
  destruct (decide (image_url = "")) as [-> | Hne].
  { simpl. split; [done | by intros [? _]]. }
  pose proof (getImageUrl_nonempty cfg image_url Hne) as Hg.
  apply truthy_iff in Hg. rewrite Hg.
  destruct imageError; simpl.
  - split; [done | by intros (_ & ? & _)].
  - split; [by intros [= <-] | by intros (_ & _ & ->)].
Qed.
(** ** The retry loop, in general *)

Section UploadRun.
Variable cfg : AppwriteConfig.
Variable env : Env.

Lemma files_of_same (w w' : World) (b : string) :
  files w' = files w → files_of w' b = files_of w b.
Proof. unfold files_of. by intros ->. Qed.

Lemma attempt_result {A} (m : M A) (w : World) (c : Completion A) :
  (m w).1 = c → m w = (c, (m w).2).
Proof. intros <-. by destruct (m w). Qed.

(** The retry loop, from attempt [a] with the [fuel] that takes it to the
    last attempt: it stops at the first attempt that goes through, or
    after the last one. *)
Lemma upload_loop_run (url : string) (retries fuel a : nat) (w : World) :
  a + fuel = S retries →
  ∃ k u w' t,
    upload_loop cfg env url retries fuel a w = (Return u, w') ∧
    trace w' = trace w ++ t ∧
    documents w' = documents w ∧
    k ≤ fuel ∧
    schedule_of t = backoff a k ∧
    ((0 < k ∧ (failures_of t).*1 = seq a (k - 1) ∧
      ∃ f n, attempt_ok env url n = true ∧
             stored_as env url n (created w) f ∧
             u = getFileView env (bucketId cfg) (file_id f) ∧
             files w' = <[bucketId cfg := files_of w (bucketId cfg) ++ [f]]> (files w) ∧
             created w' = S (created w))
     ∨ (k = fuel ∧ (failures_of t).*1 = seq a fuel ∧ u = url ∧
        files w' = files w ∧ created w' = created w)).
Proof.
  revert a w. induction fuel as [|fuel IH]; intros a w Hfuel.
  { exists 0, url, w, []. simpl. rewrite app_nil_r.
    do 5 (split; [done |]). by right. }
  cbn [upload_loop].
  assert ((a <=? retries)%nat = true) as -> by (apply Nat.leb_le; lia).
  destruct (upload_attempt_schedule cfg env url a retries w) as (t1 & Ht1 & Hs1 & Hf1).
  destruct (upload_attempt_effect cfg env url a retries w) as (Hd & _ & Heff).
  destruct (attempt_ok env url (requests w)) eqn:Hok.
  - destruct Heff as (f & Hf & Hr & Hfs & Hc).
    exists 1, (getFileView env (bucketId cfg) (file_id f)),
      (upload_attempt cfg env url a retries w).2, t1.
    split.
    { unfold bind at 1. by rewrite upload_round, Hr. }
    do 2 (split; [done |]). split; [lia |]. split; [done |]. left.
    split; [lia |]. split; [by rewrite Hf1 |]. by exists f, (requests w).
  - destruct Heff as ([e He] & Hfs & Hc).
    apply attempt_result in He.
    destruct (upload_round_fails cfg env url a retries w _ e He)
      as (w2 & t2 & Hround & Ht2 & Hs2 & Hf2).
    assert (same_store w w2) as (Hd2 & Hfs2 & Hc2).
    { pose proof (upload_round cfg env url a retries w) as Hr.
      rewrite Hround in Hr. rewrite He in Hr. simpl in Hr.
      destruct (upload_recover_effect url a retries e
                  (upload_attempt cfg env url a retries w).2) as (_ & Hs & _).
      rewrite <- Hr in Hs. simpl in Hs.
      eapply same_store_trans; [| exact Hs]. by repeat split. }
    unfold bind at 1. rewrite Hround.
    destruct (a =? retries)%nat eqn:Ha.
    + apply Nat.eqb_eq in Ha. assert (fuel = 0) as -> by lia.
      exists 1, url, w2, t2. split; [done |]. do 2 (split; [done |]).
      split; [lia |]. split; [done |]. right.
      split; [done |]. split; [by rewrite Hf2 |]. done.
    + apply Nat.eqb_neq in Ha.
      destruct (IH (S a) w2 ltac:(lia)) as (k & u & w' & t & Hrun & Ht & Hdoc & Hk & Hs & Hcase).
      assert (0 < k) as Hpos.
      { destruct Hcase as [[? _] | [-> _]]; lia. }
      exists (S k), u, w', (t2 ++ t). split; [done |].
      split; [by rewrite Ht, Ht2, app_assoc |].
      split; [congruence |]. split; [lia |].
      split.
      { unfold schedule_of in *. rewrite omap_app, Hs2, Hs.
        destruct k; [lia | done]. }
      unfold failures_of in *. rewrite omap_app, fmap_app, Hf2.
      destruct Hcase as [(_ & Hfl & f & n & Hn & Hst & Hu & Hfiles & Hcr)
                        | (-> & Hfl & -> & Hfiles & Hcr)].
      * left. split; [lia |]. split.
        { rewrite Hfl. replace (S k - 1) with (S (k - 1)) by lia. done. }
        exists f, n. rewrite Hc2 in Hst, Hcr.
        rewrite (files_of_same w w2) in Hfiles by done. rewrite Hfs2 in Hfiles.
        done.
      * right. split; [done |]. split; [by rewrite Hfl |].
        split; [done |]. split; congruence.
Qed.

End UploadRun.

(** X5: [uploadImageToStorage] never throws and never touches the
    documents; it returns either the URL it was given, leaving the bucket
    as it was, or the view URL of the one file it added to the bucket, a
    copy of the image served for that URL. *)
Theorem upload_returns_input_or_view (cfg : AppwriteConfig) (env : Env)
    (url : string) (retries : nat) (w : World) :
  ∃ u w',
    uploadImageToStorage cfg env url retries w = (Return u, w') ∧
    documents w' = documents w ∧
    ((u = url ∧ files w' = files w ∧ created w' = created w)
     ∨ (∃ f n, stored_as env url n (created w) f ∧
               u = getFileView env (bucketId cfg) (file_id f) ∧
               files w'
               = <[bucketId cfg := files_of w (bucketId cfg) ++ [f]]> (files w) ∧
               created w' = S (created w))).
Proof.
  destruct (upload_loop_run cfg env url retries retries 1 w ltac:(lia))
    as (k & u & w' & t & Hrun & _ & Hd & _ & _ & Hcase).
  exists u, w'. do 2 (split; [done |]).
  destruct Hcase as [(_ & _ & f & n & _ & Hst & Hu & Hf & Hc) | (_ & _ & Hu & Hf & Hc)].
  - right. by exists f, n.
  - by left.
Qed.

(** X6: an upload makes the attempts 1, 2, ... up to some [k] of at most
    [retries], waiting 2^a seconds after each failed attempt [a] but the
    last one allowed; either attempt [k] stored a file, whose view URL is
    returned, and the [k - 1] before it failed, or all [retries] attempts
    failed and the URL given is returned. *)
Theorem upload_schedule (cfg : AppwriteConfig) (env : Env)
    (url : string) (retries : nat) (w : World) :
  ∃ k u w' t,
    uploadImageToStorage cfg env url retries w = (Return u, w') ∧
    trace w' = trace w ++ t ∧
    k ≤ retries ∧
    schedule_of t = backoff 1 k ∧
    ((0 < k ∧ (failures_of t).*1 = seq 1 (k - 1) ∧
      ∃ f, files_of w' (bucketId cfg) = files_of w (bucketId cfg) ++ [f] ∧
           u = getFileView env (bucketId cfg) (file_id f))
     ∨ (k = retries ∧ (failures_of t).*1 = seq 1 retries ∧ u = url ∧
        files w' = files w)).
Proof.
  destruct (upload_loop_run cfg env url retries retries 1 w ltac:(lia))
    as (k & u & w' & t & Hrun & Ht & _ & Hk & Hs & Hcase).
  exists k, u, w', t. do 4 (split; [done |]).
  destruct Hcase as [(Hpos & Hfl & f & n & _ & _ & Hu & Hf & _) | (-> & Hfl & Hu & Hf & _)].
  - left. do 2 (split; [done |]). exists f. split; [| done].
    unfold files_of at 1. by rewrite Hf, lookup_insert_eq.
  - right. done.
Qed.

Section Fuel.
Variable cfg : AppwriteConfig.
Variable env : Env.

Lemma upload_loop_fuel (url : string) (retries : nat) :
  ∀ fuel fuel' a w,
    S retries ≤ a + fuel → S retries ≤ a + fuel' →
    upload_loop cfg env url retries fuel a w
    = upload_loop cfg env url retries fuel' a w.
Proof.
  induction fuel as [|fuel IH]; intros fuel' a w H H'.
  - assert ((a <=? retries)%nat = false) as Hgt by (apply Nat.leb_gt; lia).
    destruct fuel'; simpl; [done | by rewrite Hgt].
  - destruct fuel' as [|fuel'].
    + assert ((a <=? retries)%nat = false) as Hgt by (apply Nat.leb_gt; lia).
      simpl. by rewrite Hgt.
    + simpl. destruct (a <=? retries)%nat; [| done].
      unfold bind. destruct (try_catch _ _ w) as [[[v|]|e] w1]; try done.
      apply IH; lia.
Qed.

End Fuel.

(** X7: the retry loop is over after [retries] iterations: run with any
    larger bound it does what [uploadImageToStorage] does. *)
Theorem upload_loop_ends_within_retries (cfg : AppwriteConfig) (env : Env)
    (url : string) (retries extra : nat) (w : World) :
  upload_loop cfg env url retries (retries + extra) 1 w
  = uploadImageToStorage cfg env url retries w.
Proof. unfold uploadImageToStorage. apply upload_loop_fuel; lia. Qed.


Section Unserved.
Variable cfg : AppwriteConfig.
Variable env : Env.

(** An attempt on a valid URL whose image is not served stops after the
    fetch. *)
Lemma upload_attempt_unserved (url : string) (a n : nat) (w : World) :
  JS.truthy url && JS.startsWith url "http" = true →
  served env url (requests w) = None →
  upload_attempt cfg env url a n w
  = (Throw (fetch_error (fetch env (requests w) url)),
     count_request
       (add_event (Issued (requests w) (Fetch url))
          (add_event (Console log (UploadingImage a n url)) w))).
Proof.
  intros Hvalid Hserved. apply andb_true_iff in Hvalid as [Ht Hp].
  unfold served in Hserved.
  unfold upload_attempt, fetch_image, issue, console, observe, when, throw, ret, bind.
  rewrite Ht, Hp. simpl. unfold fetch_error.
  destruct (fetch env (requests w) url) as [|r]; [done |].
  destruct (ok r); simpl; [| done].
  destruct (body r) as [| |size type]; [done | done |].
  by destruct (size =? 0)%N.
Qed.

Lemma upload_loop_unserved (url : string) (retries fuel a : nat) (w : World) :
  JS.truthy url && JS.startsWith url "http" = true →
  (∀ n, served env url n = None) →
  a + fuel = S retries →
  ∃ w' t,
    upload_loop cfg env url retries fuel a w = (Return url, w') ∧
    trace w' = trace w ++ t ∧
    requests_of t = replicate fuel (Fetch url) ∧
    failures_of t
    = (fun i => (a + i, fetch_error (fetch env (requests w + i) url))) <$> seq 0 fuel ∧
    same_store w w'.
Proof.
  intros Hvalid Hserved. revert a w.
  induction fuel as [|fuel IH]; intros a w Hfuel.
  { exists w, []. by rewrite app_nil_r. }
  cbn [upload_loop].
  assert ((a <=? retries)%nat = true) as -> by (apply Nat.leb_le; lia).
  unfold bind at 1.
  rewrite upload_round, (upload_attempt_unserved url a retries w Hvalid (Hserved _)).
  cbn [fst snd].
  unfold upload_recover, console, sleep, observe, ret, bind. cbn [fst snd].
  assert (∀ (l : list nat) (f g : nat → nat * Error),
            (∀ i, f (S i) = g i) → f <$> (S <$> l) = g <$> l) as Hshift.
  { intros l f g Hfg. rewrite <- list_fmap_compose. apply list_fmap_ext.
    intros _ i _. apply Hfg. }
  destruct (a =? retries)%nat eqn:Ha.
  - apply Nat.eqb_eq in Ha. assert (fuel = 0) as -> by lia.
    eexists _, _. split; [reflexivity |]. cbn [trace add_event count_request].
    rewrite <- !app_assoc. split; [reflexivity |].
    split; [reflexivity |]. split; [| done].
    simpl. by rewrite !Nat.add_0_r.
  - edestruct (IH (S a)) as (w' & t & Hrun & Ht & Hreq & Hfl & Hsame); [lia |].
    rewrite Hrun. eexists _, _. split; [reflexivity |].
    rewrite Ht. cbn [trace add_event count_request requests] in *.
    rewrite <- !app_assoc. split; [reflexivity |].
    split; [| split].
    + unfold requests_of in *. cbn [app]. rewrite !omap_cons_match.
      cbn [request_of]. by rewrite Hreq.
    + unfold failures_of in *. cbn [app]. rewrite !omap_cons_match.
      cbn [reported_failure]. rewrite Hfl. cbn [seq fmap list_fmap].
      rewrite !Nat.add_0_r. f_equal. rewrite <- fmap_S_seq.
      symmetry. apply Hshift. intros i. f_equal; [lia |]. do 2 f_equal. lia.
    + destruct Hsame as (? & ? & ?). by repeat split.
Qed.

End Unserved.

(** X8: when the host never serves a usable image for a valid URL, the
    upload issues one fetch per attempt and no request to the store,
    reports for each attempt the error of its fetch (the status before
    the body), leaves the store as it was and returns the URL given. *)
Theorem upload_unserved_leaves_store (cfg : AppwriteConfig) (env : Env)
    (url : string) (retries : nat) (w : World) :
  JS.truthy url && JS.startsWith url "http" = true →
  (∀ n, served env url n = None) →
  ∃ w' t,
    uploadImageToStorage cfg env url retries w = (Return url, w') ∧
    trace w' = trace w ++ t ∧
    requests_of t = replicate retries (Fetch url) ∧
    failures_of t
    = (fun i => (S i, fetch_error (fetch env (requests w + i) url)))
        <$> seq 0 retries ∧
    same_store w w'.
Proof.
  intros Hvalid Hserved.
  by apply (upload_loop_unserved cfg env url retries retries 1 w).
Qed.

Lemma upload_unserved_leaves_store_witness :
  ∃ w' t,
    uploadImageToStorage sample_config Sample.unavailable
      "https://cdn.example/img/pizza.png" 3 Sample.empty_world
    = (Return "https://cdn.example/img/pizza.png", w') ∧
    trace w' = trace Sample.empty_world ++ t ∧
    requests_of t = replicate 3 (Fetch "https://cdn.example/img/pizza.png") ∧
    failures_of t
    = (fun i => (S i, fetch_error
                        (fetch Sample.unavailable (requests Sample.empty_world + i)
                           "https://cdn.example/img/pizza.png")))
        <$> seq 0 3 ∧
    same_store Sample.empty_world w'.
Proof.
  apply (upload_unserved_leaves_store sample_config Sample.unavailable
           "https://cdn.example/img/pizza.png" 3 Sample.empty_world).
  - reflexivity.
  - intros n. reflexivity.
Defined.

(** ** The file an upload stores *)

Section ExtensionDot.

Lemma split_nonempty (c : ascii) (s : string) : JS.split c s ≠ [].
Proof.
  induction s as [|a s IH]; simpl; [done |].
  destruct (Ascii.eqb a c); [done |]. by destruct (JS.split c s).
Qed.

Lemma split_app (c : ascii) (p e : string) :
  JS.split c (p +:+ String c e) = JS.split c p ++ JS.split c e.
Proof.
  induction p as [|a p IH].
  - rewrite app_nil. simpl. by rewrite Ascii.eqb_refl.
  - rewrite app_cons. simpl. destruct (Ascii.eqb a c); [by rewrite IH |].
    rewrite IH. pose proof (split_nonempty c p).
    by destruct (JS.split c p).
Qed.

Lemma truthy_toLowerCase (s : string) : JS.truthy (JS.toLowerCase s) = JS.truthy s.
Proof. by destruct s. Qed.

End ExtensionDot.

(** X10: for a path with a dot, the extension is what follows the last
    dot, in lower case, and ['jpg'] when nothing follows it. *)
Theorem extension_after_last_dot (p e : string) :
  ¬ contains e "." →
  extension_of (p +:+ "." +:+ e)
  = if JS.truthy e then JS.toLowerCase e else "jpg".
Proof.
  intros He. unfold extension_of, JS.pop.
  change ("." +:+ e) with (String "."%char e).
  rewrite split_app, (split_no_separator "."%char e He), last_snoc.
  by rewrite truthy_toLowerCase.
Qed.

Lemma extension_after_last_dot_witness :
  extension_of "/img/v1.2/Pizza.PNG" = "png".
Proof.
  apply (extension_after_last_dot "/img/v1.2/Pizza" "PNG").
  rewrite <- includes_iff. done.
Defined.

(** X9: when the first attempt goes through, the upload issues the fetch
    and one [createFile], waits for nothing, and adds to the bucket a
    file named after the time, the random tag and the extension of the
    URL path, of the type served (['image/jpeg'] when none is), readable
    and writable by anyone; it returns the view URL of that file. *)
Theorem upload_first_attempt_stores (cfg : AppwriteConfig) (env : Env)
    (url : string) (retries : nat) (w : World) (size : N) (type path : string) :
  0 < retries →
  JS.truthy url && JS.startsWith url "http" = true →
  served env url (requests w) = Some (size, type) →
  pathname env url = Some path →
  store_rejects env (S (requests w)) = false →
  let fileObj :=
    {| FileObj.name :=
         pretty (now env (S (requests w))) +:+ "-"
           +:+ random env (S (requests w)) +:+ "." +:+ extension_of path;
       FileObj.type := type_or_default type;
       FileObj.size := size;
       FileObj.uri := url |} in
  let file :=
    {| file_id := unique_id env (created w); file_obj := fileObj;
       file_permissions := [ReadAny; WriteAny] |} in
  ∃ w' t,
    uploadImageToStorage cfg env url retries w
    = (Return (getFileView env (bucketId cfg) (file_id file)), w') ∧
    trace w' = trace w ++ t ∧
    requests_of t = [Fetch url; CreateFile (bucketId cfg) fileObj] ∧
    schedule_of t = [inl 1] ∧
    failures_of t = [] ∧
    files_of w' (bucketId cfg) = files_of w (bucketId cfg) ++ [file] ∧
    documents w' = documents w.
Proof.
  intros Hpos Hvalid Hserved Hpath Hstore fileObj file.
  apply andb_true_iff in Hvalid as [Ht Hp]. unfold served in Hserved.
  destruct retries as [|retries]; [lia |].
  unfold uploadImageToStorage. cbn [upload_loop Nat.leb].
  unfold bind at 1. rewrite upload_round.
  unfold upload_attempt, fetch_image, createFile, store_call, issue, console,
    observe, when, throw, ret, bind, date_now, random_tag.
  rewrite Ht, Hp. simpl.
  destruct (fetch env (requests w) url) as [|r]; [done |].
  destruct (ok r); simpl; [| done].
  destruct (body r) as [| |size' type']; [done | done |].
  destruct (size' =? 0)%N; [done |]. injection Hserved as -> ->.
  simpl. rewrite Hpath. simpl. rewrite Hstore. simpl.
  eexists _, _. split; [reflexivity |]. simpl. rewrite <- !app_assoc.
  split; [reflexivity |]. split; [reflexivity |]. split; [reflexivity |].
  split; [reflexivity |]. split; [| done].
  unfold files_of at 1. simpl. by rewrite lookup_insert_eq.
Qed.

Lemma upload_first_attempt_stores_witness :
  ∃ w' t,
    uploadImageToStorage sample_config Sample.online
      "https://cdn.example/img/Pizza.PNG" 3 Sample.empty_world
    = (Return "https://cloud.example/v1/storage/buckets/assets/files/id0/view?project=proj", w') ∧
    trace w' = trace Sample.empty_world ++ t ∧
    requests_of t
    = [Fetch "https://cdn.example/img/Pizza.PNG";
       CreateFile "assets"
         {| FileObj.name := "1700000000001-k3j9x0abq.png";
            FileObj.type := "image/png";
            FileObj.size := 2048;
            FileObj.uri := "https://cdn.example/img/Pizza.PNG" |}] ∧
    schedule_of t = [inl 1] ∧
    failures_of t = [] ∧
    files_of w' "assets"
    = files_of Sample.empty_world "assets"
        ++ [{| file_id := "id0";
               file_obj :=
                 {| FileObj.name := "1700000000001-k3j9x0abq.png";
                    FileObj.type := "image/png";
                    FileObj.size := 2048;
                    FileObj.uri := "https://cdn.example/img/Pizza.PNG" |};
               file_permissions := [ReadAny; WriteAny] |}] ∧
    documents w' = documents Sample.empty_world.
Proof.
  apply (upload_first_attempt_stores sample_config Sample.online
           "https://cdn.example/img/Pizza.PNG" 3 Sample.empty_world
           2048 "image/png" "/img/Pizza.PNG").
  - lia.
  - reflexivity.
  - reflexivity.
  - reflexivity.
  - reflexivity.
Defined.
(** ** What a clear leaves in the store *)

Section ClearState.
Variable cfg : AppwriteConfig.
Variable env : Env.

Lemma accepted_subseteq {X} (n : nat) (l : list X) : accepted env n l ⊆ l.
Proof.
  revert n. induction l as [|x l IH]; intros n; simpl; [done |].
  destruct (store_rejects env n).
  - by apply list_subseteq_cons.
  - intros y. rewrite !elem_of_cons. intros [-> | Hy]; [by left |].
    right. by apply (IH (S n)).
Qed.

Lemma accepted_all {X} (n : nat) (l : list X) :
  rejections env n (length l) = [] → accepted env n l = l.
Proof.
  revert n. induction l as [|x l IH]; intros n; simpl; [done |].
  destruct (store_rejects env n); [done |]. intros H. by rewrite IH.
Qed.

Lemma elem_of_rejections (e : Error) (n k : nat) :
  e ∈ rejections env n k ↔
  ∃ m, e = StoreError m ∧ n ≤ m < n + k ∧ store_rejects env m = true.
Proof.
  revert n. induction k as [|k IH]; intros n; simpl.
  - split; [by intros ?%elem_of_nil | intros (m & _ & ? & _); lia].
  - destruct (store_rejects env n) eqn:Hrej.
    + rewrite elem_of_cons, IH. split.
      * intros [-> | (m & -> & Hm & Hr)]; [exists n | exists m];
          (split; [done |]); (split; [lia | done]).
      * intros (m & -> & Hm & Hr). destruct (decide (m = n)) as [-> | Hne]; [by left |].
        right. exists m. split; [done |]. split; [lia | done].
    + rewrite IH. split.
      * intros (m & -> & Hm & Hr). exists m. split; [done |]. split; [lia | done].
      * intros (m & -> & Hm & Hr). exists m. split; [done |]. split; [| done].
        destruct (decide (m = n)) as [-> | Hne]; [congruence | lia].
Qed.

(** The rejection a fan-out ends with is one of its rejections. *)
Lemma fan_result_Throw {A} (n k : nat) (c : Completion A) (e : Error) :
  fan_result env n k c → c = Throw e →
  ∃ m, e = StoreError m ∧ n ≤ m < n + k ∧ store_rejects env m = true.
Proof.
  unfold fan_result. intros Hres ->. apply elem_of_rejections.
  destruct (rejections env n k) as [|e0 errs]; [by destruct Hres |].
  injection Hres as ->.
  destruct ((e0 :: errs) !! settles_first env (e0 :: errs)) as [e'|] eqn:Hl; simpl.
  - by apply list_elem_of_lookup_2 in Hl.
  - by left.
Qed.

Lemma filter_ext_in {X} (P1 P2 : X → Prop)
    `{!∀ x, Decision (P1 x), !∀ x, Decision (P2 x)} (l : list X) :
  (∀ x, x ∈ l → P1 x ↔ P2 x) → filter P1 l = filter P2 l.
Proof.
  induction l as [|a l IH]; intros Hiff; [done |].
  assert (filter P1 l = filter P2 l) as Hl.
  { apply IH. intros x Hx. apply Hiff. by right. }
  destruct (decide (P1 a)) as [Ha | Ha].
  - rewrite !filter_cons_True; [by rewrite Hl | | done].
    apply Hiff; [by left | done].
  - rewrite !filter_cons_False; [done | | done].
    intros Ha'. apply Ha, Hiff; [by left | done].
Qed.

(** With distinct identifiers, what is left of [l] once the accepted
    deletions have taken their identifiers away is what was rejected. *)
Lemma survivors_rejected {X} (f : X → string) (n : nat) (l : list X) :
  NoDup (f <$> l) →
  filter (fun x => f x ∉ f <$> accepted env n l) l = rejected env n l.
Proof.
  revert n. induction l as [|x l IH]; intros n Hnd; [done |].
  rewrite fmap_cons in Hnd. apply NoDup_cons in Hnd as [Hx Hnd].
  cbn [accepted rejected]. destruct (store_rejects env n).
  - rewrite filter_cons_True.
    + by rewrite IH.
    + intros Hin. apply Hx. apply list_elem_of_fmap in Hin as (y & Hy & Hin).
      apply list_elem_of_fmap. exists y. split; [done |].
      by apply (accepted_subseteq (S n) l).
  - rewrite filter_cons_False.
    + rewrite <- (IH (S n)) by done. apply filter_ext_in. intros y Hy.
      rewrite fmap_cons, not_elem_of_cons.
      split; [by intros [_ ?] |]. intros Hin. split; [| done].
      intros Heq. apply Hx. rewrite <- Heq. by apply list_elem_of_fmap_2.
    + intros Hin. apply Hin. rewrite fmap_cons. by left.
Qed.

Lemma deleteDocument_run (c id : string) (w : World) :
  deleteDocument env c id w
  = let w1 := count_request (add_event (Issued (requests w) (DeleteDocument c id)) w) in
    if store_rejects env (requests w) then (Throw (StoreError (requests w)), w1)
    else (Return tt, set_docs c (filter (fun d => doc_id d ≠ id) (docs_of w c)) w1).
Proof.
  unfold deleteDocument, store_call, issue, throw, ret, bind. simpl.
  by destruct (store_rejects env (requests w)).
Qed.

Lemma deleteFile_run (b id : string) (w : World) :
  deleteFile env b id w
  = let w1 := count_request (add_event (Issued (requests w) (DeleteFile b id)) w) in
    if store_rejects env (requests w) then (Throw (StoreError (requests w)), w1)
    else (Return tt, set_files b (filter (fun f => file_id f ≠ id) (files_of w b)) w1).
Proof.
  unfold deleteFile, store_call, issue, throw, ret, bind. simpl.
  by destruct (store_rejects env (requests w)).
Qed.

Lemma files_of_set_files (b : string) (l : list StoredFile) (w : World) :
  files_of (set_files b l w) b = l.
Proof. unfold files_of, set_files. simpl. by rewrite lookup_insert_eq. Qed.

Lemma files_of_set_files_ne (b b' : string) (l : list StoredFile) (w : World) :
  b ≠ b' → files_of (set_files b l w) b' = files_of w b'.
Proof. intros. unfold files_of, set_files. simpl. by rewrite lookup_insert_ne. Qed.

Lemma filter_all {X} (P : X → Prop) `{!∀ x, Decision (P x)} (l : list X) :
  (∀ x, x ∈ l → P x) → filter P l = l.
Proof.
  induction l as [|a l IH]; intros HP; [done |].
  rewrite filter_cons_True by (apply HP; by left).
  rewrite IH; [done |]. intros x Hx. apply HP. by right.
Qed.

(** The deletions of a fan-out over the listing [l], once they have all
    settled: the identifiers of the accepted ones are gone from the
    collection, everything else is as it was, and the rejections are
    those of the store. *)
Lemma start_fan_documents (c : string) (l : list Document) (w : World) :
  let r := start_all (map (fun d => deleteDocument env c (doc_id d)) l) w in
  docs_of r.2 c
  = filter (fun d => doc_id d ∉ doc_id <$> accepted env (requests w) l) (docs_of w c) ∧
  (∀ c', c' ≠ c → docs_of r.2 c' = docs_of w c') ∧
  files r.2 = files w ∧
  created r.2 = created w ∧
  omap rejection r.1 = rejections env (requests w) (length l).
Proof.
  revert w. induction l as [|d l IH]; intros w.
  { simpl. split; [| by repeat split].
    symmetry. apply filter_all. intros x _. apply not_elem_of_nil. }
  cbn [map start_all]. rewrite deleteDocument_run. cbv zeta.
  cbn [accepted length rejections].
  destruct (store_rejects env (requests w)) eqn:Hrej.
  - match goal with |- context [start_all _ ?w0] => set (w1 := w0) end.
    pose proof (IH w1) as H. cbv zeta in H.
    destruct (start_all _ w1) as [rs w2]. cbn [fst snd] in *.
    destruct H as (Hd & Hother & Hf & Hc & Hres).
    split; [done |]. split; [done |]. split; [done |]. split; [done |].
    rewrite omap_cons_match. cbn [rejection]. by rewrite Hres.
  - match goal with |- context [start_all _ ?w0] => set (w1 := w0) end.
    pose proof (IH w1) as H. cbv zeta in H.
    destruct (start_all _ w1) as [rs w2]. cbn [fst snd] in *.
    destruct H as (Hd & Hother & Hf & Hc & Hres).
    split; [| split; [| split; [| split]]].
    + rewrite Hd. subst w1. rewrite docs_of_set_docs.
      change (requests (set_docs _ _ _)) with (S (requests w)).
      rewrite list_filter_filter. apply list_filter_iff. intros x.
      rewrite fmap_cons, not_elem_of_cons. tauto.
    + intros c' Hc'. rewrite Hother by done. subst w1.
      by rewrite docs_of_set_docs_ne.
    + by rewrite Hf.
    + by rewrite Hc.
    + rewrite omap_cons_match. cbn [rejection]. by rewrite Hres.
Qed.

Lemma fan_result_settled {A} (ms : list (M A)) (w : World) (n k : nat) :
  omap rejection (start_all ms w).1 = rejections env n k →
  fan_result env n k (promise_all env ms w).1.
Proof.
  intros H. rewrite promise_all_eq. cbn [fst]. unfold fan_result. rewrite H.
  destruct (rejections env n k); [by eexists | done].
Qed.

Lemma delete_fan_documents (c : string) (l : list Document) (w : World) :
  let r := promise_all env (map (fun d => deleteDocument env c (doc_id d)) l) w in
  docs_of r.2 c
  = filter (fun d => doc_id d ∉ doc_id <$> accepted env (requests w) l) (docs_of w c) ∧
  (∀ c', c' ≠ c → docs_of r.2 c' = docs_of w c') ∧
  files r.2 = files w ∧
  created r.2 = created w ∧
  fan_result env (requests w) (length l) r.1.
Proof.
  cbv zeta. pose proof (start_fan_documents c l w) as H. cbv zeta in H.
  destruct H as (Hd & Hother & Hf & Hc & Hres).
  split; [by rewrite promise_all_eq |]. split; [by rewrite promise_all_eq |].
  split; [by rewrite promise_all_eq |]. split; [by rewrite promise_all_eq |].
  by apply fan_result_settled.
Qed.

Lemma start_fan_files (b : string) (l : list StoredFile) (w : World) :
  let r := start_all (map (fun f => deleteFile env b (file_id f)) l) w in
  files_of r.2 b
  = filter (fun f => file_id f ∉ file_id <$> accepted env (requests w) l) (files_of w b) ∧
  (∀ b', b' ≠ b → files_of r.2 b' = files_of w b') ∧
  documents r.2 = documents w ∧
  created r.2 = created w ∧
  omap rejection r.1 = rejections env (requests w) (length l).
Proof.
  revert w. induction l as [|d l IH]; intros w.
  { simpl. split; [| by repeat split].
    symmetry. apply filter_all. intros x _. apply not_elem_of_nil. }
  cbn [map start_all]. rewrite deleteFile_run. cbv zeta.
  cbn [accepted length rejections].
  destruct (store_rejects env (requests w)) eqn:Hrej.
  - match goal with |- context [start_all _ ?w0] => set (w1 := w0) end.
    pose proof (IH w1) as H. cbv zeta in H.
    destruct (start_all _ w1) as [rs w2]. cbn [fst snd] in *.
    destruct H as (Hd & Hother & Hf & Hc & Hres).
    split; [done |]. split; [done |]. split; [done |]. split; [done |].
    rewrite omap_cons_match. cbn [rejection]. by rewrite Hres.
  - match goal with |- context [start_all _ ?w0] => set (w1 := w0) end.
    pose proof (IH w1) as H. cbv zeta in H.
    destruct (start_all _ w1) as [rs w2]. cbn [fst snd] in *.
    destruct H as (Hd & Hother & Hf & Hc & Hres).
    split; [| split; [| split; [| split]]].
    + rewrite Hd. subst w1. rewrite files_of_set_files.
      change (requests (set_files _ _ _)) with (S (requests w)).
      rewrite list_filter_filter. apply list_filter_iff. intros x.
      rewrite fmap_cons, not_elem_of_cons. tauto.
    + intros c' Hc'. rewrite Hother by done. subst w1.
      by rewrite files_of_set_files_ne.
    + by rewrite Hf.
    + by rewrite Hc.
    + rewrite omap_cons_match. cbn [rejection]. by rewrite Hres.
Qed.

Lemma delete_fan_files (b : string) (l : list StoredFile) (w : World) :
  let r := promise_all env (map (fun f => deleteFile env b (file_id f)) l) w in
  files_of r.2 b
  = filter (fun f => file_id f ∉ file_id <$> accepted env (requests w) l) (files_of w b) ∧
  (∀ b', b' ≠ b → files_of r.2 b' = files_of w b') ∧
  documents r.2 = documents w ∧
  created r.2 = created w ∧
  fan_result env (requests w) (length l) r.1.
Proof.
  cbv zeta. pose proof (start_fan_files b l w) as H. cbv zeta in H.
  destruct H as (Hd & Hother & Hf & Hc & Hres).
  split; [by rewrite promise_all_eq |]. split; [by rewrite promise_all_eq |].
  split; [by rewrite promise_all_eq |]. split; [by rewrite promise_all_eq |].
  by apply fan_result_settled.
Qed.

(** A clear whose listing is accepted: the fan-out it amounts to. *)
Lemma clearAll_run (collectionId : string) (w : World) :
  store_rejects env (requests w) = false →
  let r := clearAll env collectionId w in
  docs_of r.2 collectionId
  = filter (fun d => doc_id d
                     ∉ doc_id <$> accepted env (S (requests w))
                                    (docs_of w collectionId))
      (docs_of w collectionId) ∧
  (∀ c, c ≠ collectionId → docs_of r.2 c = docs_of w c) ∧
  files r.2 = files w ∧
  created r.2 = created w ∧
  fan_result env (S (requests w)) (length (docs_of w collectionId)) r.1.
Proof.
  intros Hlist. cbv zeta. rewrite clearAll_listed by done. cbv zeta.
  match goal with |- context [promise_all _ _ ?w0] => set (w1 := w0) end.
  pose proof (delete_fan_documents collectionId (docs_of w collectionId) w1) as H.
  cbv zeta in H. destruct H as (Hd & Hother & Hf & Hc & Hres).
  change (requests w1) with (S (requests w)) in *.
  change (docs_of w1) with (docs_of w) in *.
  unfold fan_result in *.
  destruct (rejections env (S (requests w)) _) as [|e errs].
  - destruct Hres as [a ->]. cbn [fst snd]. rewrite docs_of_add_event.
    do 4 (split; [done |]). by exists tt.
  - rewrite Hres. cbn [fst snd]. rewrite docs_of_add_event.
    do 4 (split; [done |]). done.
Qed.

Lemma clearAll_Return (c : string) (w w' : World) (u : unit) :
  clearAll env c w = (Return u, w') →
  docs_of w' c = [] ∧ ∀ c', c' ≠ c → docs_of w' c' = docs_of w c'.
Proof.
  intros Hrun. destruct (store_rejects env (requests w)) eqn:Hlist.
  { unfold clearAll, listDocuments, store_call, issue, console, observe,
      throw, ret, bind, try_catch in Hrun. simpl in Hrun.
    rewrite Hlist in Hrun. discriminate. }
  pose proof (clearAll_run c w Hlist) as H. cbv zeta in H.
  rewrite Hrun in H. cbn [fst snd] in H. destruct H as (Hd & Ho & _ & _ & Hres).
  split; [| done]. unfold fan_result in Hres.
  destruct (rejections env (S (requests w)) _) eqn:Hfirst; [| discriminate].
  rewrite Hd, accepted_all by done.
  apply no_elements. intros x Hx. apply list_elem_of_filter in Hx as [Hx Hin].
  apply Hx. by apply list_elem_of_fmap_2.
Qed.

Lemma clearStorage_documents (w : World) :
  documents (clearStorage cfg env w).2 = documents w.
Proof.
  destruct (store_rejects env (requests w)) eqn:Hlist.
  - unfold clearStorage, listFiles, store_call, issue, console, observe,
      throw, ret, bind, try_catch. simpl. by rewrite Hlist.
  - rewrite clearStorage_listed by done. cbv zeta.
    match goal with |- context [promise_all _ _ ?w0] => set (w1 := w0) end.
    pose proof (delete_fan_files (bucketId cfg) (files_of w (bucketId cfg)) w1) as H.
    cbv zeta in H. destruct H as (_ & _ & Hdocs & _ & _).
    by destruct (promise_all _ _ w1).1.
Qed.

End ClearState.

(** X1: when the listing is accepted and the identifiers listed are
    distinct, [clearAll] leaves in the collection exactly the documents
    whose deletion the store rejected, in their order; it returns when no
    deletion is rejected, and else throws the rejection that settles
    first, which is the error of one of the rejected deletions. *)
Theorem clearAll_leaves_rejected (env : Env) (collectionId : string) (w : World) :
  store_rejects env (requests w) = false →
  NoDup (doc_id <$> docs_of w collectionId) →
  let r := clearAll env collectionId w in
  let n := S (requests w) in
  let k := length (docs_of w collectionId) in
  docs_of r.2 collectionId = rejected env n (docs_of w collectionId) ∧
  match rejections env n k with
  | [] => r.1 = Return tt
  | e :: errs => r.1 = Throw (default e ((e :: errs) !! settles_first env (e :: errs)))
  end ∧
  (∀ e, r.1 = Throw e →
        ∃ m, e = StoreError m ∧ n ≤ m < n + k ∧ store_rejects env m = true).
Proof.
  intros Hlist Hnd. cbv zeta.
  pose proof (clearAll_run env collectionId w Hlist) as H. cbv zeta in H.
  destruct H as (Hd & _ & _ & _ & Hres).
  rewrite (survivors_rejected env doc_id) in Hd by done. split; [done |].
  split; [| intros e; by apply fan_result_Throw].
  unfold fan_result in Hres.
  destruct (rejections env (S (requests w)) _) as [|e errs]; [| done].
  destruct Hres as [[] Ha]. done.
Qed.

Lemma clearAll_leaves_rejected_witness :
  let r := clearAll Sample.later_settles_first "categories" Sample.stale_world in
  let n := S (requests Sample.stale_world) in
  let k := length (docs_of Sample.stale_world "categories") in
  docs_of r.2 "categories"
  = rejected Sample.later_settles_first n (docs_of Sample.stale_world "categories") ∧
  match rejections Sample.later_settles_first n k with
  | [] => r.1 = Return tt
  | e :: errs =>
      r.1 = Throw (default e ((e :: errs)
                                !! settles_first Sample.later_settles_first (e :: errs)))
  end ∧
  (∀ e, r.1 = Throw e →
        ∃ m, e = StoreError m ∧ n ≤ m < n + k ∧
             store_rejects Sample.later_settles_first m = true).
Proof.
  apply (clearAll_leaves_rejected Sample.later_settles_first "categories"
           Sample.stale_world).
  - reflexivity.
  - apply (bool_decide_unpack _). vm_compute. exact I.
Defined.

(** X2: however it ends, [clearAll] touches no other collection and no
    file, creates nothing, only removes documents from its collection,
    and has emptied it when it returns. *)
Theorem clearAll_frame (env : Env) (collectionId : string) (w : World) :
  let r := clearAll env collectionId w in
  (∀ c, c ≠ collectionId → docs_of r.2 c = docs_of w c) ∧
  files r.2 = files w ∧
  created r.2 = created w ∧
  docs_of r.2 collectionId `sublist_of` docs_of w collectionId ∧
  (r.1 = Return tt → docs_of r.2 collectionId = []).
Proof.
  cbv zeta. destruct (store_rejects env (requests w)) eqn:Hlist.
  - unfold clearAll, listDocuments, store_call, issue, console, observe,
      throw, ret, bind, try_catch. simpl. rewrite Hlist. simpl.
    by repeat split.
  - pose proof (clearAll_run env collectionId w Hlist) as H. cbv zeta in H.
    destruct H as (Hd & Hother & Hf & Hc & Hres).
    do 3 (split; [done |]). rewrite Hd. split; [apply sublist_filter |].
    intros Hret. unfold fan_result in Hres.
    destruct (rejections env (S (requests w)) _) eqn:Hfirst; [| congruence].
    rewrite (accepted_all env) by done.
    apply no_elements. intros x Hx. apply list_elem_of_filter in Hx as [Hx Hin].
    apply Hx. by apply list_elem_of_fmap_2.
Qed.

(** X3: when the store rejects the listing, [clearAll] issues no deletion,
    reports the error and rethrows it, and the store is as it was. *)
Theorem clearAll_listing_rejected (env : Env) (collectionId : string) (w : World) :
  store_rejects env (requests w) = true →
  ∃ w',
    clearAll env collectionId w = (Throw (StoreError (requests w)), w') ∧
    trace w'
    = trace w
        ++ [Issued (requests w) (ListDocuments collectionId);
            Console error
              (ErrorClearingCollection collectionId (StoreError (requests w)))] ∧
    same_store w w'.
Proof.
  intros Hlist.
  unfold clearAll, listDocuments, store_call, issue, console, observe,
    throw, ret, bind, try_catch. simpl. rewrite Hlist. simpl.
  eexists. split; [reflexivity |]. simpl. by rewrite <- app_assoc.
Qed.

Lemma clearAll_listing_rejected_witness :
  ∃ w',
    clearAll Sample.listing_rejected "categories" Sample.stale_world
    = (Throw (StoreError (requests Sample.stale_world)), w') ∧
    trace w'
    = trace Sample.stale_world
        ++ [Issued (requests Sample.stale_world) (ListDocuments "categories");
            Console error
              (ErrorClearingCollection "categories"
                 (StoreError (requests Sample.stale_world)))] ∧
    same_store Sample.stale_world w'.
Proof.
  apply (clearAll_listing_rejected Sample.listing_rejected "categories"
           Sample.stale_world).
  reflexivity.
Defined.

(** X4: when the listing is accepted and the file identifiers listed are
    distinct, [clearStorage] leaves in the bucket exactly the files whose
    deletion the store rejected, touches no other bucket and no document;
    it returns when no deletion is rejected, and else throws the rejection
    that settles first, which is the error of one of the rejected
    deletions. *)
Theorem clearStorage_leaves_rejected (cfg : AppwriteConfig) (env : Env) (w : World) :
  store_rejects env (requests w) = false →
  NoDup (file_id <$> files_of w (bucketId cfg)) →
  let r := clearStorage cfg env w in
  let n := S (requests w) in
  let k := length (files_of w (bucketId cfg)) in
  files_of r.2 (bucketId cfg) = rejected env n (files_of w (bucketId cfg)) ∧
  (∀ b, b ≠ bucketId cfg → files_of r.2 b = files_of w b) ∧
  documents r.2 = documents w ∧
  created r.2 = created w ∧
  match rejections env n k with
  | [] => r.1 = Return tt
  | e :: errs => r.1 = Throw (default e ((e :: errs) !! settles_first env (e :: errs)))
  end ∧
  (∀ e, r.1 = Throw e →
        ∃ m, e = StoreError m ∧ n ≤ m < n + k ∧ store_rejects env m = true).
Proof.
  intros Hlist Hnd. cbv zeta. rewrite clearStorage_listed by done. cbv zeta.
  match goal with |- context [promise_all _ _ ?w0] => set (w1 := w0) end.
  pose proof (delete_fan_files env (bucketId cfg) (files_of w (bucketId cfg)) w1) as H.
  cbv zeta in H. destruct H as (Hd & Hother & Hdocs & Hc & Hres).
  change (requests w1) with (S (requests w)) in *.
  change (files_of w1) with (files_of w) in *.
  rewrite (survivors_rejected env file_id) in Hd by done.
  pose proof (fun e => fan_result_Throw env _ _ _ e Hres) as Hthrown.
  unfold fan_result in Hres.
  destruct (rejections env (S (requests w)) _) as [|e0 errs] eqn:Hrej.
  - destruct Hres as [a Ha]. rewrite Ha in *. cbn [fst snd]. by repeat split.
  - rewrite Hres in *. cbn [fst snd]. do 5 (split; [done |]).
    intros e [= <-]. by apply Hthrown.
Qed.

Lemma clearStorage_leaves_rejected_witness :
  let r := clearStorage sample_config Sample.later_settles_first Sample.stale_bucket in
  let n := S (requests Sample.stale_bucket) in
  let k := length (files_of Sample.stale_bucket (bucketId sample_config)) in
  files_of r.2 (bucketId sample_config)
  = rejected Sample.later_settles_first n
      (files_of Sample.stale_bucket (bucketId sample_config)) ∧
  (∀ b, b ≠ bucketId sample_config → files_of r.2 b = files_of Sample.stale_bucket b) ∧
  documents r.2 = documents Sample.stale_bucket ∧
  created r.2 = created Sample.stale_bucket ∧
  match rejections Sample.later_settles_first n k with
  | [] => r.1 = Return tt
  | e :: errs =>
      r.1 = Throw (default e ((e :: errs)
                                !! settles_first Sample.later_settles_first (e :: errs)))
  end ∧
  (∀ e, r.1 = Throw e →
        ∃ m, e = StoreError m ∧ n ≤ m < n + k ∧
             store_rejects Sample.later_settles_first m = true).
Proof.
  apply (clearStorage_leaves_rejected sample_config Sample.later_settles_first
           Sample.stale_bucket).
  - reflexivity.
  - apply (bool_decide_unpack _). vm_compute. exact I.
Defined.

(** ** The creation loops and their lookup tables *)

Section TableLoop.
Variable env : Env.
Context {X : Type} (name_of : X → string) (mk : X → Payload) (c : string).
Variable body : gmap string string → X → M (gmap string string).
Hypothesis mk_name : ∀ x k,
  record_name {| doc_id := k; doc_data := mk x |} = Some (name_of x).
Hypothesis body_step :
  ∀ table x w,
    ∃ w', requests w' = S (requests w) ∧
      if store_rejects env (requests w) then
        body table x w = (Throw (StoreError (requests w)), w') ∧
        documents w' = documents w ∧ files w' = files w ∧ created w' = created w
      else
        body table x w
        = (Return (Table.set (name_of x) (unique_id env (created w)) table), w') ∧
        creates env c (mk x) w w'.

Lemma last_named_cons (d : Document) (docs : list Document) (name : string) :
  last_named (d :: docs) name
  = match last_named docs name with
    | Some id => Some id
    | None => if decide (record_name d = Some name) then Some (doc_id d) else None
    end.
Proof.
  unfold last_named. rewrite filter_cons.
  destruct (decide (record_name d = Some name)) as [Hd | Hd].
  - destruct (filter _ docs) as [|d' l] eqn:E; [done |].
    rewrite last_cons_cons.
    destruct (last (d' :: l)) eqn:E2; [done |]. by apply last_None in E2.
  - by destruct (last (filter _ docs)).
Qed.

Lemma table_loop_run (xs : list X) :
  ∀ (table : gmap string string) (w : World),
    let r := for_of body xs table w in
    let new := created_from env mk (created w) (accepted_prefix env (requests w) xs) in
    docs_of r.2 c = docs_of w c ++ new ∧
    (∀ c', c' ≠ c → docs_of r.2 c' = docs_of w c') ∧
    files r.2 = files w ∧
    match first_rejected env (requests w) (length xs) with
    | Some m => r.1 = Throw (StoreError m)
    | None =>
        ∃ table', r.1 = Return table' ∧
          ∀ name, table' !! name
                  = match assigned new name with
                    | Some id => Some id
                    | None => table !! name
                    end
    end.
Proof.
  induction xs as [|x xs IH]; intros table w; cbv zeta.
  { simpl. rewrite app_nil_r. do 3 (split; [done |]). exists table.
    split; [done |]. intros name. unfold assigned. by destruct (bool_decide _). }
  cbn [accepted_prefix length first_rejected].
  destruct (body_step table x w) as (w1 & Hreq & Hstep).
  destruct (store_rejects env (requests w)) eqn:Hrej.
  - destruct Hstep as (Hbody & Hd & Hf & Hc).
    assert (for_of body (x :: xs) table w = (Throw (StoreError (requests w)), w1))
      as -> by (cbn [for_of]; unfold bind; by rewrite Hbody).
    cbn [fst snd].
    rewrite app_nil_r. split; [by apply docs_of_same |].
    split; [by intros; apply docs_of_same |]. done.
  - destruct Hstep as (Hbody & Happ & Hother & Hf & Hc).
    assert (for_of body (x :: xs) table w
            = for_of body xs (Table.set (name_of x) (unique_id env (created w)) table) w1)
      as -> by (cbn [for_of]; unfold bind; by rewrite Hbody).
    specialize (IH (Table.set (name_of x) (unique_id env (created w)) table) w1).
    cbv zeta in IH. rewrite Hreq, Hc in IH.
    destruct IH as (Hdocs & Hothers & Hfiles & Hres).
    split; [| split; [| split]].
    + rewrite Hdocs, Happ, <- app_assoc. done.
    + intros c' Hc'. rewrite Hothers, Hother; done.
    + congruence.
    + destruct (first_rejected env (S (requests w)) (length xs)) as [m|]; [done |].
      destruct Hres as (table' & Hret & Hlook). exists table'. split; [done |].
      intros name. rewrite Hlook. cbn [created_from]. unfold assigned.
      rewrite last_named_cons. unfold Table.set.
      destruct (decide (name = "__proto__")) as [-> | Hname].
      { rewrite !bool_decide_eq_true_2 by done.
        destruct (bool_decide (name_of x = "__proto__")) eqn:Hx; [done |].
        apply bool_decide_eq_false in Hx. by rewrite lookup_insert_ne. }
      rewrite !(bool_decide_eq_false_2 (name = "__proto__")) by done.
      destruct (last_named _ name); [done |]. cbn [doc_id].
      rewrite mk_name.
      destruct (decide (Some (name_of x) = Some name)) as [[= <-] | Hne].
      * rewrite bool_decide_eq_false_2 by done. by rewrite lookup_insert_eq.
      * destruct (bool_decide (name_of x = "__proto__")); [done |].
        rewrite lookup_insert_ne; [done | congruence].
Qed.

End TableLoop.

Section CreationSteps.
Variable cfg : AppwriteConfig.
Variable env : Env.

Lemma create_category_step (table : gmap string string) (cat : Category.t) (w : World) :
  ∃ w', requests w' = S (requests w) ∧
    if store_rejects env (requests w) then
      create_category cfg env table cat w = (Throw (StoreError (requests w)), w') ∧
      documents w' = documents w ∧ files w' = files w ∧ created w' = created w
    else
      create_category cfg env table cat w
      = (Return (Table.set (Category.name cat) (unique_id env (created w)) table), w') ∧
      creates env (categoriesCollectionId cfg) (DCategory cat) w w'.
Proof.
  unfold create_category, createDocument, store_call, issue, console, observe,
    throw, ret, bind, try_catch, creates. simpl.
  destruct (store_rejects env (requests w)); simpl.
  - eexists. split; [| split; [reflexivity |]]; done.
  - eexists. split; [| split; [reflexivity |]]; [done |].
    rewrite docs_of_add_event, docs_of_count_created, docs_of_set_docs.
    split; [done |]. split; [| done].
    intros c' Hc'. rewrite docs_of_add_event, docs_of_count_created.
    by rewrite docs_of_set_docs_ne.
Qed.

Lemma create_customization_step (table : gmap string string)
    (cus : Customization.t) (w : World) :
  ∃ w', requests w' = S (requests w) ∧
    if store_rejects env (requests w) then
      create_customization cfg env table cus w
      = (Throw (StoreError (requests w)), w') ∧
      documents w' = documents w ∧ files w' = files w ∧ created w' = created w
    else
      create_customization cfg env table cus w
      = (Return (Table.set (Customization.name cus) (unique_id env (created w)) table),
         w') ∧
      creates env (customizationsCollectionId cfg) (DCustomization cus) w w'.
Proof.
  destruct cus as [name price type].
  unfold create_customization, createDocument, store_call, issue, console, observe,
    throw, ret, bind, try_catch, creates. simpl.
  destruct (store_rejects env (requests w)); simpl.
  - eexists. split; [| split; [reflexivity |]]; done.
  - eexists. split; [| split; [reflexivity |]]; [done |].
    rewrite docs_of_add_event, docs_of_count_created, docs_of_set_docs.
    split; [done |]. split; [| done].
    intros c' Hc'. rewrite docs_of_add_event, docs_of_count_created.
    by rewrite docs_of_set_docs_ne.
Qed.

End CreationSteps.

(** X11: the category loop creates, in dataset order, the categories
    before the first one the store rejects, and nothing else; it throws
    the error of that rejection, or, when there is none, returns a table
    whose own keys are the names of the documents created, other than
    [__proto__], each with the identifier of the last document created
    under it; so a name that no object inherits is looked up as that
    identifier, or as [undefined] when no document goes by it. *)
Theorem category_loop_creates_accepted_prefix (cfg : AppwriteConfig) (env : Env)
    (cats : list Category.t) (w : World) :
  let r := for_of (create_category cfg env) cats ∅ w in
  let new :=
    created_from env DCategory (created w) (accepted_prefix env (requests w) cats) in
  docs_of r.2 (categoriesCollectionId cfg)
  = docs_of w (categoriesCollectionId cfg) ++ new ∧
  (∀ c, c ≠ categoriesCollectionId cfg → docs_of r.2 c = docs_of w c) ∧
  files r.2 = files w ∧
  match first_rejected env (requests w) (length cats) with
  | Some m => r.1 = Throw (StoreError m)
  | None =>
      ∃ categoryMap,
        r.1 = Return categoryMap ∧
        (∀ name, categoryMap !! name
                 = if bool_decide (name = "__proto__") then None
                   else last_named new name) ∧
        (∀ name, name ∉ Table.inherited →
                 Table.get categoryMap name
                 = match last_named new name with
                   | Some id => Table.Str id
                   | None => Table.Undefined
                   end)
  end.
Proof.
  pose proof (table_loop_run env Category.name DCategory (categoriesCollectionId cfg)
                (create_category cfg env) ltac:(done)
                (create_category_step cfg env) cats ∅ w) as H.
  cbv zeta in *. destruct H as (Hd & Ho & Hf & Hres).
  do 3 (split; [done |]).
  destruct (first_rejected env (requests w) (length cats)); [done |].
  destruct Hres as (table & Hr & Hl). exists table. split; [done |].
  assert (∀ name, table !! name = assigned
            (created_from env DCategory (created w)
               (accepted_prefix env (requests w) cats)) name) as Hown.
  { intros name. rewrite Hl, lookup_empty. by destruct (assigned _ name). }
  split; [exact Hown |]. intros name Hplain.
  unfold Table.get. rewrite Hown. unfold assigned.
  rewrite (bool_decide_eq_false_2 (name = "__proto__"))
    by (by apply plain_settable).
  destruct (last_named _ name); [done |]. by rewrite bool_decide_eq_false_2.
Qed.

(** X12: the same of the customization loop. *)
Theorem customization_loop_creates_accepted_prefix (cfg : AppwriteConfig) (env : Env)
    (custs : list Customization.t) (w : World) :
  let r := for_of (create_customization cfg env) custs ∅ w in
  let new :=
    created_from env DCustomization (created w)
      (accepted_prefix env (requests w) custs) in
  docs_of r.2 (customizationsCollectionId cfg)
  = docs_of w (customizationsCollectionId cfg) ++ new ∧
  (∀ c, c ≠ customizationsCollectionId cfg → docs_of r.2 c = docs_of w c) ∧
  files r.2 = files w ∧
  match first_rejected env (requests w) (length custs) with
  | Some m => r.1 = Throw (StoreError m)
  | None =>
      ∃ customizationMap,
        r.1 = Return customizationMap ∧
        (∀ name, customizationMap !! name
                 = if bool_decide (name = "__proto__") then None
                   else last_named new name) ∧
        (∀ name, name ∉ Table.inherited →
                 Table.get customizationMap name
                 = match last_named new name with
                   | Some id => Table.Str id
                   | None => Table.Undefined
                   end)
  end.
Proof.
  pose proof (table_loop_run env Customization.name DCustomization
                (customizationsCollectionId cfg)
                (create_customization cfg env) ltac:(done)
                (create_customization_step cfg env) custs ∅ w) as H.
  cbv zeta in *. destruct H as (Hd & Ho & Hf & Hres).
  do 3 (split; [done |]).
  destruct (first_rejected env (requests w) (length custs)); [done |].
  destruct Hres as (table & Hr & Hl). exists table. split; [done |].
  assert (∀ name, table !! name = assigned
            (created_from env DCustomization (created w)
               (accepted_prefix env (requests w) custs)) name) as Hown.
  { intros name. rewrite Hl, lookup_empty. by destruct (assigned _ name). }
  split; [exact Hown |]. intros name Hplain.
  unfold Table.get. rewrite Hown. unfold assigned.
  rewrite (bool_decide_eq_false_2 (name = "__proto__"))
    by (by apply plain_settable).
  destruct (last_named _ name); [done |]. by rewrite bool_decide_eq_false_2.
Qed.

(** ** Nothing is created in a store that was not cleared *)

Section Cleared.
Variable cfg : AppwriteConfig.
Variable env : Env.

Lemma emits_and {A} (m : M A) (P Q : Completion A → list Event → Prop) :
  emits m P → emits m Q → emits m (fun c t => P c t ∧ Q c t).
Proof.
  intros HP HQ w. destruct (HP w) as (t & Ht & Hp), (HQ w) as (t' & Ht' & Hq).
  exists t. split; [done |]. split; [done |].
  rewrite Ht in Ht'. apply app_inv_head in Ht'. by subst t'.
Qed.

Lemma in_phase_issued (p : Phase) (t : list Event) (n : nat) (r : Request) :
  in_phase p t → Issued n r ∈ t → phase_of r = p.
Proof.
  unfold in_phase, requests_of. intros H Hin.
  apply (proj1 (Forall_forall _ _) H). apply list_elem_of_omap.
  by exists (Issued n r).
Qed.

Lemma cleared_bind {A B} (L1 L2 L : list Request) (m : M A) (k : A → M B) :
  L = L1 ++ L2 →
  emits m (fun _ t => in_phase Clearing t ∧ listings_of t = L1) →
  (∀ a, emits (k a) (cleared L2)) →
  emits (bind m k) (cleared L).
Proof.
  intros -> Hm Hk. eapply emits_bind; [exact Hm | exact Hk | |]; simpl.
  - intros a t1 c t2 [Hp H1] H2 (n & r & Hin & Hr).
    rewrite listings_of_app, H1. f_equal. apply H2. exists n, r. split; [| done].
    apply elem_of_app in Hin as [Hin | Hin]; [| done].
    by apply (in_phase_issued _ _ _ _ Hp) in Hin.
  - intros e t1 [Hp _] (n & r & Hin & Hr).
    by apply (in_phase_issued _ _ _ _ Hp) in Hin.
Qed.

Lemma clearing_console (lvl : Level) (msg : Message) :
  emits (console lvl msg) (fun _ t => in_phase Clearing t ∧ listings_of t = []).
Proof. apply emits_console. split; [by apply in_phase_quiet | done]. Qed.

Lemma seed_cleared (data : DummyData.t) :
  emits (seed cfg env data) (cleared (clear_listings cfg)).
Proof.
  unfold seed.
  eapply (emits_try_catch _ _ (cleared (clear_listings cfg))
            (fun e c t => t = [Console error (SeedingFailed e)])).
  2: { intros e w. unfold console, observe, throw, bind. simpl. eauto. }
  2: { done. }
  2: { intros e t1 c t2 H -> (n & r & Hin & Hr).
       rewrite listings_of_app, app_nil_r. apply H. exists n, r. split; [| done].
       apply elem_of_app in Hin as [Hin | Hin]; [done |].
       by apply list_elem_of_singleton in Hin. }
  do 2 (eapply (cleared_bind []); [reflexivity | apply clearing_console | intros _]).
  unfold clear_listings.
  do 4 (eapply (cleared_bind [_]);
        [reflexivity
        | apply emits_and;
          [eapply emits_weaken; [apply phase_clearAll | by intros c t [? _]]
          | apply listed_clearAll]
        | intros _]).
  eapply (cleared_bind [_] []);
    [reflexivity
    | apply emits_and;
      [eapply emits_weaken; [apply phase_clearStorage | by intros c t [? _]]
      | apply listed_clearStorage]
    | intros _].
  eapply emits_weaken; [| by intros c t H _; exact H].
  eapply (listed_bind_l []); [apply listed_console | intros _].
  eapply (listed_bind_l []); [| intros categoryMap].
  { apply (listed_phase env Categories); [done |].
    apply phase_for_of. intros s x. apply phase_create_category. }
  eapply (listed_bind_l []); [apply listed_console | intros _].
  eapply (listed_bind_l []); [| intros customizationMap].
  { apply (listed_phase env Customizations); [done |].
    apply phase_for_of. intros s x. apply phase_create_customization. }
  eapply (listed_bind_l []); [apply listed_console | intros _].
  eapply (listed_bind_l []); [| intros menuMap].
  { apply (listed_phase env MenuItems); [done |].
    apply phase_for_index. intros i s x. apply phase_create_menu_item. }
  do 4 (eapply (listed_bind_l []); [apply listed_console | intros _]).
  apply listed_console.
Qed.

Lemma clearing_fatal (r : Request) : phase_of r = Clearing → fatal r = true.
Proof. by destruct r as [| |c [| | |]| | | |]. Qed.

Lemma clearing_delete (r : Request) : is_delete r = true → phase_of r = Clearing.
Proof. by destruct r. Qed.

End Cleared.

(** X13: a run asks the store to create something, or fetches an image,
    only after it has listed the four collections and the bucket and the
    store has accepted every listing and every deletion. *)
Theorem seed_creates_after_clean_clear (cfg : AppwriteConfig) (env : Env)
    (data : DummyData.t) (w : World) :
  ∃ t, trace (seed cfg env data w).2 = trace w ++ t ∧
       ((∃ n r, Issued n r ∈ t ∧ phase_of r ≠ Clearing) →
        listings_of t = clear_listings cfg ∧
        ∀ n r, Issued n r ∈ t → phase_of r = Clearing →
               store_rejects env n = false).
Proof.
  destruct (emits_and _ _ _ (seed_cleared cfg env data) (seed_runs_from cfg env data) w)
    as (t & Ht & Hcl & Hseq & _ & Hab).
  exists t. split; [done |]. intros (n & r & Hin & Hr). split; [by apply Hcl; eauto |].
  intros n' r' Hin' Hr'. destruct (store_rejects env n') eqn:Hrej; [| done].
  exfalso. apply list_elem_of_split in Hin' as (ta & tb & ->).
  destruct (Hab ta n' r' tb eq_refl (clearing_fatal r' Hr') Hrej) as [_ Hdel].
  apply elem_of_app in Hin as [Hin | Hin].
  - unfold in_sequence in Hseq. rewrite requests_of_issued in Hseq.
    assert (not_before r r') as Hle.
    { eapply StronglySorted_app_1_elem_of; [exact Hseq | | by left].
      apply list_elem_of_omap. by exists (Issued n r). }
    unfold not_before in Hle. rewrite Hr' in Hle.
    destruct (phase_of r); simpl in Hle; [done | lia..].
  - apply elem_of_cons in Hin as [[= -> ->] | Hin]; [done |].
    assert (r ∈ requests_of tb) as Hreq.
    { apply list_elem_of_omap. by exists (Issued n r). }
    apply (proj1 (Forall_forall _ _) Hdel) in Hreq as [_ Hd].
    by apply clearing_delete in Hd.
Qed.
(** ** The records a run asks for, in order *)

Section Asked.
Variable cfg : AppwriteConfig.
Variable env : Env.

Lemma asked_app (t1 t2 : list Event) : asked (t1 ++ t2) = asked t1 ++ asked t2.
Proof. apply omap_app. Qed.

Lemma asked_nonfatal (t : list Event) :
  Forall (fun r => fatal r = false) (requests_of t) → asked t = [].
Proof.
  unfold asked, requests_of.
  induction t as [|e t IH]; [done |]. rewrite !omap_cons_match.
  destruct e as [lvl m|n r|ms]; cbn [request_of asked_of]; try exact IH.
  intros H. apply Forall_cons in H as [Hr H].
  destruct r as [| |c [| | |]| | | |]; simpl in Hr; try (by apply IH); congruence.
Qed.

Lemma asked_clearing (t : list Event) : in_phase Clearing t → asked t = [].
Proof.
  unfold in_phase, asked, requests_of.
  induction t as [|e t IH]; [done |]. rewrite !omap_cons_match.
  destruct e as [lvl m|n r|ms]; cbn [request_of asked_of]; try exact IH.
  intros H. apply Forall_cons in H as [Hr H].
  destruct r as [| |c [| | |]| | | |]; simpl in Hr; try (by apply IH); congruence.
Qed.

Lemma asks_exact {A} (L : list (Phase * string)) (m : M A) :
  emits m (fun _ t => asked t = L) → emits m (asks_upto L).
Proof.
  intros Hm. eapply emits_weaken; [exact Hm |].
  intros c t H. split; [by rewrite H | done].
Qed.

Lemma asks_bind {A B} (L1 L2 L : list (Phase * string)) (m : M A) (k : A → M B) :
  L = L1 ++ L2 →
  emits m (asks_upto L1) → (∀ a, emits (k a) (asks_upto L2)) →
  emits (bind m k) (asks_upto L).
Proof.
  intros -> Hm Hk. eapply emits_bind; [exact Hm | exact Hk | |].
  - intros a t1 c t2 [_ H1] [Hp2 H2]. unfold asks_upto.
    rewrite asked_app, H1 by eauto.
    split; [by apply prefix_app | intros Hc; by rewrite H2].
  - intros e t1 [Hp _]. split; [by apply prefix_app_r |].
    intros [a Ha]. discriminate.
Qed.

Lemma asks_rethrow {A} (L : list (Phase * string)) (m : M A) (msg : Error → Message) :
  emits m (asks_upto L) →
  emits (try_catch m (fun e => console error (msg e);; throw e)) (asks_upto L).
Proof.
  intros Hm.
  eapply (emits_try_catch _ _ _
            (fun e c t => c = Throw e ∧ t = [Console error (msg e)]));
    [exact Hm | | done |].
  - intros e w. by exists [Console error (msg e)].
  - intros e t1 c t2 [Hp _] [-> ->]. unfold asks_upto.
    rewrite asked_app, app_nil_r.
    split; [done |]. intros [a Ha]. discriminate.
Qed.

Lemma asks_console (lvl : Level) (msg : Message) :
  emits (console lvl msg) (asks_upto []).
Proof. by apply asks_exact, emits_console. Qed.

Lemma asks_clearing {A} (m : M A) :
  emits m (phase_run env Clearing) → emits m (asks_upto []).
Proof.
  intros Hm. apply asks_exact. eapply emits_weaken; [exact Hm |].
  intros c t [H _]. by apply asked_clearing.
Qed.

Lemma asks_harmless {A} (m : M A) :
  emits m (fun _ t => harmless MenuItems t) → emits m (asks_upto []).
Proof.
  intros Hm. apply asks_exact. eapply emits_weaken; [exact Hm |].
  intros c t [_ H]. by apply asked_nonfatal.
Qed.

Lemma asks_for_of {X T} (f : X → Phase * string) (body : T → X → M T) (xs : list X) :
  (∀ s x, emits (body s x) (asks_upto [f x])) →
  ∀ s, emits (for_of body xs s) (asks_upto (f <$> xs)).
Proof.
  intros Hbody. induction xs as [|x xs IH]; intros s; simpl.
  - apply emits_ret. by split.
  - eapply (asks_bind [_]); [reflexivity | apply Hbody | intros s'; apply IH].
Qed.

Lemma asks_for_index {X T} (f : X → Phase * string) (body : nat → T → X → M T)
    (xs : list X) :
  (∀ i s x, emits (body i s x) (asks_upto [f x])) →
  ∀ i s, emits (for_index body i xs s) (asks_upto (f <$> xs)).
Proof.
  intros Hbody. induction xs as [|x xs IH]; intros i s; simpl.
  - apply emits_ret. by split.
  - eapply (asks_bind [_]); [reflexivity | apply Hbody | intros s'; apply IH].
Qed.

Lemma asks_createDocument (c : string) (data : Payload) :
  emits (createDocument env c data)
    (asks_upto (asked [Issued 0 (CreateDocument c data)])).
Proof.
  apply asks_exact. eapply emits_weaken; [apply emits_createDocument |].
  by intros r t (n & -> & _).
Qed.

Lemma asks_create_category (categoryMap : gmap string string) (cat : Category.t) :
  emits (create_category cfg env categoryMap cat)
    (asks_upto [(Categories, Category.name cat)]).
Proof.
  unfold create_category. apply asks_rethrow.
  eapply (asks_bind [_] []); [reflexivity | apply asks_createDocument | intros doc].
  eapply (asks_bind [] []); [reflexivity | apply asks_console | intros _].
  apply emits_ret. by split.
Qed.

Lemma asks_create_customization (customizationMap : gmap string string)
    (cus : Customization.t) :
  emits (create_customization cfg env customizationMap cus)
    (asks_upto [(Customizations, Customization.name cus)]).
Proof.
  unfold create_customization. apply asks_rethrow.
  eapply (asks_bind [_] []); [reflexivity | apply asks_createDocument | intros doc].
  eapply (asks_bind [] []); [reflexivity | apply asks_console | intros _].
  apply emits_ret. by split.
Qed.

Lemma asks_create_menu_item (categoryMap customizationMap : gmap string string)
    (total i : nat) (menuMap : gmap string string) (item : MenuItem.t) :
  emits (create_menu_item cfg env categoryMap customizationMap total i menuMap item)
    (asks_upto [(MenuItems, MenuItem.name item)]).
Proof.
  unfold create_menu_item.
  eapply (asks_bind []); [reflexivity | apply asks_console | intros _].
  apply asks_rethrow.
  eapply (asks_bind []); [reflexivity | | intros uploadedImageUrl].
  { apply asks_harmless, harmless_upload_loop. }
  eapply (asks_bind []); [reflexivity | | intros _].
  { destruct (missing categoryMap (MenuItem.category_name item)); simpl.
    - apply emits_throw. split; [done |]. intros [a Ha]. discriminate.
    - apply emits_ret. by split. }
  eapply (asks_bind [_] []); [reflexivity | apply asks_createDocument | intros doc].
  eapply (asks_bind [] []); [reflexivity | apply asks_console | intros _].
  eapply (asks_bind [] []); [reflexivity | | intros _].
  { apply asks_harmless, harmless_link_customizations. }
  apply emits_ret. by split.
Qed.

Lemma seed_asks (data : DummyData.t) :
  emits (seed cfg env data) (asks_upto (wanted data)).
Proof.
  unfold seed, wanted. apply asks_rethrow.
  do 2 (eapply (asks_bind []); [reflexivity | apply asks_console | intros _]).
  do 4 (eapply (asks_bind []);
        [reflexivity | apply asks_clearing, phase_clearAll | intros _]).
  eapply (asks_bind []);
    [reflexivity | apply asks_clearing, phase_clearStorage | intros _].
  eapply (asks_bind []); [reflexivity | apply asks_console | intros _].
  eapply asks_bind; [reflexivity | | intros categoryMap].
  { apply (asks_for_of (fun c => (Categories, Category.name c))).
    intros s x. apply asks_create_category. }
  eapply (asks_bind []); [reflexivity | apply asks_console | intros _].
  eapply asks_bind; [reflexivity | | intros customizationMap].
  { apply (asks_for_of (fun c => (Customizations, Customization.name c))).
    intros s x. apply asks_create_customization. }
  eapply (asks_bind []); [reflexivity | apply asks_console | intros _].
  eapply (asks_bind _ []); [by rewrite app_nil_r | | intros menuMap].
  { apply (asks_for_index (fun m => (MenuItems, MenuItem.name m))).
    intros i s x. apply asks_create_menu_item. }
  do 4 (eapply (asks_bind []); [reflexivity | apply asks_console | intros _]).
  apply asks_console.
Qed.

End Asked.

(** ** The clear of the bucket, and the run phase by phase *)

Section BucketFanOut.
Variable cfg : AppwriteConfig.
Variable env : Env.



End BucketFanOut.


(** X14: a run asks for the category, customization and menu records in
    dataset order, one request per entry; a run that throws has asked for
    an initial part of them, a run that completes for all. *)
Theorem seed_asks_in_dataset_order (cfg : AppwriteConfig) (env : Env)
    (data : DummyData.t) (w : World) :
  ∃ t, trace (seed cfg env data w).2 = trace w ++ t ∧
       asked t `prefix_of` wanted data ∧
       ((seed cfg env data w).1 = Return tt → asked t = wanted data).
Proof.
  destruct (seed_asks cfg env data w) as (t & Ht & Hp & Hr).
  exists t. do 2 (split; [done |]). intros H. apply Hr. by exists tt.
Qed.
(** ** Where the errors of a run come from *)

Section Reports.
Variable cfg : AppwriteConfig.
Variable env : Env.
Variable names : list string.

Lemma origin_app_l (e : Error) (t1 t2 : list Event) :
  origin env names e t1 → origin env names e (t1 ++ t2).
Proof.
  intros [(n & r & -> & Hin & Hf & Hr) | H]; [left | by right].
  exists n, r. repeat split; try done. apply elem_of_app. by left.
Qed.

Lemma origin_app_r (e : Error) (t1 t2 : list Event) :
  origin env names e t2 → origin env names e (t1 ++ t2).
Proof.
  intros [(n & r & -> & Hin & Hf & Hr) | H]; [left | by right].
  exists n, r. repeat split; try done. apply elem_of_app. by right.
Qed.

Lemma raises_bind {A B} (m : M A) (k : A → M B) :
  emits m (raises env names) → (∀ a, emits (k a) (raises env names)) →
  emits (bind m k) (raises env names).
Proof.
  intros Hm Hk. eapply emits_bind; [exact Hm | exact Hk | |].
  - intros a t1 c t2 _ H2 e He. by apply origin_app_r, H2.
  - intros e t1 H1 e' [= <-]. by apply H1.
Qed.

Lemma raises_returns {A} (m : M A) (P : Completion A → list Event → Prop) :
  emits m P → never_throws m → emits m (raises env names).
Proof.
  intros Hm Hn w. destruct (Hm w) as (t & Ht & _). exists t. split; [done |].
  intros e He. destruct (Hn w) as [a Ha]. congruence.
Qed.

Lemma raises_console (lvl : Level) (msg : Message) :
  emits (console lvl msg) (raises env names).
Proof. by apply emits_console. Qed.

Lemma raises_ret {A} (a : A) : emits (ret a) (raises env names).
Proof. by apply emits_ret. Qed.

Local Ltac request_tac :=
  let w := fresh "w" in
  intros _ w;
  unfold listDocuments, deleteDocument, createDocument, listFiles, deleteFile,
    store_call, issue, throw, ret, bind;
  simpl;
  destruct (store_rejects env (requests w)) eqn:?; simpl;
  (eexists; split; [reflexivity |]);
  intros e [= <-]; left; eexists _, _;
  (split; [reflexivity |]); (split; [by left |]); by split.

Lemma raises_listDocuments (c : string) :
  fatal (ListDocuments c) = true → emits (listDocuments env c) (raises env names).
Proof. request_tac. Qed.

Lemma raises_deleteDocument (c id : string) :
  fatal (DeleteDocument c id) = true →
  emits (deleteDocument env c id) (raises env names).
Proof. request_tac. Qed.

Lemma raises_listFiles (b : string) :
  fatal (ListFiles b) = true → emits (listFiles env b) (raises env names).
Proof. request_tac. Qed.

Lemma raises_deleteFile (b id : string) :
  fatal (DeleteFile b id) = true → emits (deleteFile env b id) (raises env names).
Proof. request_tac. Qed.

Lemma raises_createDocument (c : string) (data : Payload) :
  fatal (CreateDocument c data) = true →
  emits (createDocument env c data) (raises env names).
Proof.
  intros Hf w.
  unfold createDocument, store_call, issue, throw, ret, bind. simpl.
  destruct (store_rejects env (requests w)) eqn:?; simpl;
    (eexists; split; [reflexivity |]); intros e [= <-].
  left. eexists _, _. split; [reflexivity |]. split; [by left |]. by split.
Qed.

Lemma origin_concat (e : Error) (t : list Event) (ts : list (list Event)) :
  t ∈ ts → origin env names e t → origin env names e (concat ts).
Proof.
  intros Hin Ho. apply list_elem_of_split in Hin as (l1 & l2 & ->).
  rewrite concat_app. simpl. by apply origin_app_r, origin_app_l.
Qed.

Lemma raises_promise_all {A} (ms : list (M A)) :
  Forall (fun m => emits m (raises env names)) ms →
  emits (promise_all env ms) (raises env names).
Proof.
  intros Hms. eapply emits_promise_all; [exact Hms | |].
  - intros cs ts l _ _ e He. discriminate.
  - intros cs ts e H Hin e' [= <-].
    destruct (Forall2_elem_of_l _ _ _ _ H Hin) as (t & Ht & Hr).
    eapply origin_concat; [exact Ht |]. by apply Hr.
Qed.

(** A [catch] that reports with context and rethrows. *)
Lemma reports_rethrow {A} (m : M A) (msg : Error → Message) :
  (∀ e, context_error (msg e) = Some e) →
  emits m (raises env names) →
  emits (try_catch m (fun e => console error (msg e);; throw e)) (reports env names).
Proof.
  intros Hmsg Hm.
  eapply (emits_try_catch _ _ _
            (fun e c t => c = Throw e ∧ t = [Console error (msg e)]));
    [exact Hm | | done |].
  - intros e w. by exists [Console error (msg e)].
  - intros e t1 c t2 H1 [-> ->] e' [= <-]. split; [by apply origin_app_l, H1 |].
    by exists t1, (msg e).
Qed.

Lemma reports_bind {A B} (m : M A) (k : A → M B) :
  emits m (reports env names) → (∀ a, emits (k a) (reports env names)) →
  emits (bind m k) (reports env names).
Proof.
  intros Hm Hk. eapply emits_bind; [exact Hm | exact Hk | |].
  - intros a t1 c t2 _ H2 e He. destruct (H2 e He) as (Ho & t0 & msg & -> & Hc).
    split; [by apply origin_app_r |]. exists (t1 ++ t0), msg.
    by rewrite app_assoc.
  - intros e t1 H1 e' [= <-]. by apply H1.
Qed.

Lemma reports_console (lvl : Level) (msg : Message) :
  emits (console lvl msg) (reports env names).
Proof. by apply emits_console. Qed.

Lemma reports_for_of {X T} (body : T → X → M T) (xs : list X) :
  (∀ s x, emits (body s x) (reports env names)) →
  ∀ s, emits (for_of body xs s) (reports env names).
Proof.
  intros Hbody. induction xs as [|x xs IH]; intros s; simpl.
  - by apply emits_ret.
  - apply reports_bind; [apply Hbody | intros s'; apply IH].
Qed.

Lemma reports_clearAll (collectionId : string) :
  emits (clearAll env collectionId) (reports env names).
Proof.
  unfold clearAll. apply reports_rethrow; [done |].
  apply raises_bind; [by apply raises_listDocuments | intros l].
  apply raises_bind; [| intros _; apply raises_console].
  apply raises_promise_all, Forall_map, Forall_true. intros doc.
  by apply raises_deleteDocument.
Qed.

Lemma reports_clearStorage : emits (clearStorage cfg env) (reports env names).
Proof.
  unfold clearStorage. apply reports_rethrow; [done |].
  apply raises_bind; [by apply raises_listFiles | intros l].
  apply raises_bind; [| intros _; apply raises_console].
  apply raises_promise_all, Forall_map, Forall_true. intros file.
  by apply raises_deleteFile.
Qed.

Lemma reports_create_category (categoryMap : gmap string string) (cat : Category.t) :
  emits (create_category cfg env categoryMap cat) (reports env names).
Proof.
  unfold create_category. apply reports_rethrow; [done |].
  apply raises_bind; [by apply raises_createDocument | intros doc].
  apply raises_bind; [apply raises_console | intros _; apply raises_ret].
Qed.

Lemma reports_create_customization (customizationMap : gmap string string)
    (cus : Customization.t) :
  emits (create_customization cfg env customizationMap cus) (reports env names).
Proof.
  unfold create_customization. apply reports_rethrow; [done |].
  apply raises_bind; [by apply raises_createDocument | intros doc].
  apply raises_bind; [apply raises_console | intros _; apply raises_ret].
Qed.

Lemma never_throws_for_of {X T} (body : T → X → M T) (xs : list X) :
  (∀ s x, never_throws (body s x)) → ∀ s, never_throws (for_of body xs s).
Proof.
  intros Hbody. induction xs as [|x xs IH]; intros s; simpl.
  - apply never_throws_ret.
  - apply never_throws_bind; [apply Hbody | intros s'; apply IH].
Qed.

Lemma link_customizations_never_throws (customizationMap : gmap string string)
    (item : MenuItem.t) (doc : Document) :
  never_throws (link_customizations cfg env customizationMap item doc).
Proof.
  unfold link_customizations, when.
  destruct (0 <? length (MenuItem.customizations item))%nat;
    [| apply never_throws_ret].
  apply never_throws_bind; [apply never_throws_console | intros _].
  apply never_throws_for_of. intros s x. unfold link_customization.
  apply never_throws_catch. intros e. apply never_throws_console.
Qed.

End Reports.

Section ReportsMenu.
Variable cfg : AppwriteConfig.
Variable env : Env.

Lemma reports_create_menu_item (names : list string)
    (categoryMap customizationMap : gmap string string)
    (total i : nat) (menuMap : gmap string string) (item : MenuItem.t) :
  MenuItem.category_name item ∈ names →
  emits (create_menu_item cfg env categoryMap customizationMap total i menuMap item)
    (reports env names).
Proof.
  intros Hin. unfold create_menu_item.
  apply reports_bind; [apply reports_console | intros _].
  apply reports_rethrow; [done |].
  apply raises_bind; [| intros uploadedImageUrl].
  { eapply raises_returns; [apply harmless_upload_loop |].
    apply upload_loop_never_throws. }
  apply raises_bind; [| intros _].
  { destruct (missing categoryMap (MenuItem.category_name item)); simpl.
    - apply emits_throw. intros e [= <-]. right. by eexists.
    - by apply emits_ret. }
  apply raises_bind; [by apply raises_createDocument | intros doc].
  apply raises_bind; [apply raises_console | intros _].
  apply raises_bind; [| intros _; apply raises_ret].
  eapply raises_returns; [apply harmless_link_customizations |].
  apply link_customizations_never_throws.
Qed.

Lemma reports_menu_loop (names : list string)
    (categoryMap customizationMap : gmap string string) (total : nat)
    (items : list MenuItem.t) :
  MenuItem.category_name <$> items ⊆ names →
  ∀ i menuMap,
    emits (for_index (create_menu_item cfg env categoryMap customizationMap total)
             i items menuMap)
      (reports env names).
Proof.
  induction items as [|item items IH]; intros Hsub i menuMap; simpl.
  - by apply emits_ret.
  - apply reports_bind.
    + apply reports_create_menu_item. apply Hsub. by left.
    + intros s. apply IH. intros x Hx. apply Hsub. by right.
Qed.

Lemma seed_reports (data : DummyData.t) :
  emits (seed cfg env data)
    (fun c t =>
       ∀ e, c = Throw e →
            ∃ t0 msg,
              t = t0 ++ [Console error msg; Console error (SeedingFailed e)] ∧
              context_error msg = Some e ∧
              origin env (MenuItem.category_name <$> DummyData.menu data) e t0).
Proof.
  unfold seed.
  eapply (emits_try_catch _ _
            (reports env (MenuItem.category_name <$> DummyData.menu data))
            (fun e c t => c = Throw e ∧ t = [Console error (SeedingFailed e)])).
  2: { intros e w. by exists [Console error (SeedingFailed e)]. }
  2: { done. }
  2: { intros e t1 c t2 H1 [-> ->] e' [= <-].
       destruct (H1 e eq_refl) as (Ho & t0 & msg & -> & Hc).
       exists t0, msg. rewrite <- !app_assoc.
       split; [done |]. split; [done |].
       destruct Ho as [(n & r & -> & Hin & Hf & Hr) | Ho]; [left | by right].
       exists n, r. repeat split; try done.
       apply elem_of_app in Hin as [Hin | Hin]; [done |].
       by apply list_elem_of_singleton in Hin. }
  do 2 (apply reports_bind; [apply reports_console | intros _]).
  do 4 (apply reports_bind; [apply reports_clearAll | intros _]).
  apply reports_bind; [apply reports_clearStorage | intros _].
  apply reports_bind; [apply reports_console | intros _].
  apply reports_bind; [| intros categoryMap].
  { apply reports_for_of. intros s x. apply reports_create_category. }
  apply reports_bind; [apply reports_console | intros _].
  apply reports_bind; [| intros customizationMap].
  { apply reports_for_of. intros s x. apply reports_create_customization. }
  apply reports_bind; [apply reports_console | intros _].
  apply reports_bind; [| intros menuMap].
  { by apply reports_menu_loop. }
  do 4 (apply reports_bind; [apply reports_console | intros _]).
  apply reports_console.
Qed.

End ReportsMenu.

(** X15: an error thrown by [seed] is the rejection of a fatal request of
    the run, or the missing category of a menu item; no error of an image
    upload or of a join record gets out.  The two last console lines of
    such a run report it: first with the context of the step that failed,
    then as the failure of the seeding. *)
Theorem seed_throws_only_fatal (cfg : AppwriteConfig) (env : Env)
    (data : DummyData.t) (w w' : World) (e : Error) :
  seed cfg env data w = (Throw e, w') →
  ∃ t0 msg,
    trace w'
    = trace w ++ t0 ++ [Console error msg; Console error (SeedingFailed e)] ∧
    context_error msg = Some e ∧
    ((∃ n r, e = StoreError n ∧ Issued n r ∈ t0 ∧ fatal r = true ∧
             store_rejects env n = true)
     ∨ (∃ item, item ∈ DummyData.menu data ∧
                e = CategoryNotFound (MenuItem.category_name item))).
Proof.
  intros Hrun. destruct (seed_reports cfg env data w) as (t & Ht & H).
  rewrite Hrun in Ht, H. simpl in *.
  destruct (H e eq_refl) as (t0 & msg & -> & Hc & Ho).
  exists t0, msg. do 2 (split; [done |]).
  destruct Ho as [Ho | (name & -> & Hin)]; [by left | right].
  apply list_elem_of_fmap in Hin as (item & -> & Hin). by exists item.
Qed.

Lemma seed_throws_only_fatal_witness :
  ∃ t0 msg,
    trace (seed sample_config Sample.online Sample.data_with_stray Sample.empty_world).2
    = trace Sample.empty_world
        ++ t0 ++ [Console error msg;
                  Console error (SeedingFailed (CategoryNotFound "Salads"))] ∧
    context_error msg = Some (CategoryNotFound "Salads") ∧
    ((∃ n r, CategoryNotFound "Salads" = StoreError n ∧ Issued n r ∈ t0 ∧
             fatal r = true ∧ store_rejects Sample.online n = true)
     ∨ (∃ item, item ∈ DummyData.menu Sample.data_with_stray ∧
                CategoryNotFound "Salads"
                = CategoryNotFound (MenuItem.category_name item))).
Proof.
  apply (seed_throws_only_fatal sample_config Sample.online Sample.data_with_stray
           Sample.empty_world).
  vm_compute. reflexivity.
Defined.
(** ** The summary of a completed run *)

Section Inversion.

Lemma bind_Return {A B} (m : M A) (k : A → M B) (w w' : World) (b : B) :
  bind m k w = (Return b, w') →
  ∃ a w1, m w = (Return a, w1) ∧ k a w1 = (Return b, w').
Proof.
  unfold bind. destruct (m w) as [[a|e] w1]; [eauto | discriminate].
Qed.

Lemma rethrow_Return {A} (m : M A) (msg : Error → Message) (w w' : World) (a : A) :
  try_catch m (fun e => console error (msg e);; throw e) w = (Return a, w') →
  m w = (Return a, w').
Proof.
  unfold try_catch. destruct (m w) as [[a'|e] w1]; [done |].
  unfold console, observe, throw, bind. simpl. discriminate.
Qed.

Lemma console_Return (lvl : Level) (msg : Message) (w w' : World) (u : unit) :
  console lvl msg w = (Return u, w') → w' = add_event (Console lvl msg) w.
Proof. unfold console, observe. by intros [= _ <-]. Qed.

Lemma names_counted (l : list string) :
  size (list_to_set (C := gset string) l) = length (remove_dups l).
Proof.
  rewrite <- (size_list_to_set (C := gset string) (remove_dups l))
    by apply NoDup_remove_dups.
  f_equal. apply set_eq. intros x.
  by rewrite !elem_of_list_to_set, elem_of_remove_dups.
Qed.

Context {X : Type} (name_of : X → string).

Lemma dom_set (key id : string) (table : gmap string string) :
  dom (Table.set key id table)
  = dom table ∪ list_to_set (filter (fun name => name ≠ "__proto__") [key]).
Proof.
  unfold Table.set. destruct (decide (key = "__proto__")) as [-> | Hne].
  - rewrite bool_decide_eq_true_2 by done. rewrite filter_cons_False by (by intros H).
    by rewrite filter_nil, list_to_set_nil, union_empty_r_L.
  - rewrite bool_decide_eq_false_2 by done. rewrite filter_cons_True by done.
    rewrite filter_nil, dom_insert_L, list_to_set_cons, list_to_set_nil.
    rewrite union_empty_r_L. apply (comm_L (∪)).
Qed.

Lemma for_of_keys (body : gmap string string → X → M (gmap string string)) :
  (∀ table x w table' w',
     body table x w = (Return table', w') →
     ∃ id, table' = Table.set (name_of x) id table) →
  ∀ xs table w table' w',
    for_of body xs table w = (Return table', w') →
    dom table'
    = dom table
        ∪ list_to_set (filter (fun name => name ≠ "__proto__") (name_of <$> xs)).
Proof.
  intros Hbody xs. induction xs as [|x xs IH]; intros table w table' w' Hrun.
  - simpl in Hrun. injection Hrun as -> _.
    by rewrite fmap_nil, filter_nil, list_to_set_nil, union_empty_r_L.
  - simpl in Hrun. apply bind_Return in Hrun as (t1 & w1 & Hx & Hrest).
    apply Hbody in Hx as [id ->]. apply IH in Hrest. rewrite Hrest.
    rewrite dom_set, fmap_cons.
    change (name_of x :: (name_of <$> xs)) with ([name_of x] ++ (name_of <$> xs)).
    rewrite (filter_app _ [name_of x]), list_to_set_app_L. by rewrite (assoc_L (∪)).
Qed.

Lemma for_index_keys (body : nat → gmap string string → X → M (gmap string string)) :
  (∀ i table x w table' w',
     body i table x w = (Return table', w') →
     ∃ id, table' = Table.set (name_of x) id table) →
  ∀ xs i table w table' w',
    for_index body i xs table w = (Return table', w') →
    dom table'
    = dom table
        ∪ list_to_set (filter (fun name => name ≠ "__proto__") (name_of <$> xs)).
Proof.
  intros Hbody xs. induction xs as [|x xs IH]; intros i table w table' w' Hrun.
  - simpl in Hrun. injection Hrun as -> _.
    by rewrite fmap_nil, filter_nil, list_to_set_nil, union_empty_r_L.
  - simpl in Hrun. apply bind_Return in Hrun as (t1 & w1 & Hx & Hrest).
    apply Hbody in Hx as [id ->]. apply IH in Hrest. rewrite Hrest.
    rewrite dom_set, fmap_cons.
    change (name_of x :: (name_of <$> xs)) with ([name_of x] ++ (name_of <$> xs)).
    rewrite (filter_app _ [name_of x]), list_to_set_app_L. by rewrite (assoc_L (∪)).
Qed.

Lemma keys_counted (table : gmap string string) (l : list string) :
  dom table = ∅ ∪ list_to_set (filter (fun name => name ≠ "__proto__") l) →
  Table.keys_length table = counted l.
Proof.
  intros H. unfold Table.keys_length, counted.
  by rewrite <- size_dom, H, union_empty_l_L, names_counted.
Qed.

End Inversion.

Section Summary.
Variable cfg : AppwriteConfig.
Variable env : Env.

Lemma create_customization_table (customizationMap customizationMap' : gmap string string)
    (cus : Customization.t) (w w' : World) :
  create_customization cfg env customizationMap cus w = (Return customizationMap', w') →
  ∃ id, customizationMap' = Table.set (Customization.name cus) id customizationMap.
Proof.
  unfold create_customization. intros H. apply rethrow_Return in H.
  apply bind_Return in H as (doc & w1 & _ & H).
  apply bind_Return in H as (u & w2 & _ & H).
  injection H as <- _. by eexists.
Qed.

Lemma create_menu_item_table (categoryMap customizationMap : gmap string string)
    (total i : nat) (menuMap menuMap' : gmap string string) (item : MenuItem.t)
    (w w' : World) :
  create_menu_item cfg env categoryMap customizationMap total i menuMap item w
  = (Return menuMap', w') →
  ∃ id, menuMap' = Table.set (MenuItem.name item) id menuMap.
Proof.
  unfold create_menu_item. intros H.
  apply bind_Return in H as (u0 & w0 & _ & H).
  apply rethrow_Return in H.
  apply bind_Return in H as (url & w1 & _ & H).
  apply bind_Return in H as (u1 & w2 & _ & H).
  apply bind_Return in H as (doc & w3 & _ & H).
  apply bind_Return in H as (u2 & w4 & _ & H).
  apply bind_Return in H as (u3 & w5 & _ & H).
  injection H as <- _. by eexists.
Qed.

End Summary.

(** X16: the summary of a completed run counts the distinct names of the
    categories, of the customizations and of the menu items of the
    dataset, the name [__proto__] apart, and not the documents created. *)
Theorem seed_summary_counts_names (cfg : AppwriteConfig) (env : Env)
    (data : DummyData.t) (w w' : World) :
  seed cfg env data w = (Return tt, w') →
  ∃ t,
    trace w'
    = t ++ [Console log SeedingCompleted;
            Console log Summary;
            Console log
              (SummaryCategories
                 (length (remove_dups
                            (filter (fun name => name ≠ "__proto__")
                               (Category.name <$> DummyData.categories data)))));
            Console log
              (SummaryCustomizations
                 (length (remove_dups
                            (filter (fun name => name ≠ "__proto__")
                               (Customization.name
                                  <$> DummyData.customizations data)))));
            Console log
              (SummaryMenuItems
                 (length (remove_dups
                            (filter (fun name => name ≠ "__proto__")
                               (MenuItem.name <$> DummyData.menu data)))))].
Proof.
  unfold seed. intros H. apply rethrow_Return in H.
  do 2 apply bind_Return in H as (? & ? & _ & H).
  do 5 apply bind_Return in H as (? & ? & _ & H).
  apply bind_Return in H as (? & ? & _ & H).
  apply bind_Return in H as (categoryMap & ? & Hcat & H).
  apply bind_Return in H as (? & ? & _ & H).
  apply bind_Return in H as (customizationMap & ? & Hcus & H).
  apply bind_Return in H as (? & ? & _ & H).
  apply bind_Return in H as (menuMap & w5 & Hmenu & H).
  apply bind_Return in H as (? & ? & ->%console_Return & H).
  apply bind_Return in H as (? & ? & ->%console_Return & H).
  apply bind_Return in H as (? & ? & ->%console_Return & H).
  apply bind_Return in H as (? & ? & ->%console_Return & H).
  apply console_Return in H as ->.
  apply (for_of_keys Category.name) in Hcat;
    [| intros ?????; apply create_category_table].
  apply (for_of_keys Customization.name) in Hcus;
    [| intros ?????; apply create_customization_table].
  apply (for_index_keys MenuItem.name) in Hmenu;
    [| intros ??????; apply create_menu_item_table].
  rewrite dom_empty_L in Hcat, Hcus, Hmenu.
  rewrite (keys_counted _ _ Hcat), (keys_counted _ _ Hcus), (keys_counted _ _ Hmenu).
  exists (trace w5). simpl. by rewrite <- !app_assoc.
Qed.

Lemma seed_summary_counts_names_witness :
  ∃ t,
    trace (seed sample_config Sample.online Sample.data_repeated Sample.empty_world).2
    = t ++ [Console log SeedingCompleted;
            Console log Summary;
            Console log (SummaryCategories 2);
            Console log (SummaryCustomizations 2);
            Console log (SummaryMenuItems 2)].
Proof.
  apply (seed_summary_counts_names sample_config Sample.online Sample.data_repeated
           Sample.empty_world).
  vm_compute. reflexivity.
Defined.
(** ** The store a completed run leaves *)

Section Integrity.
Variable cfg : AppwriteConfig.
Variable env : Env.

Lemma createDocument_Return (c : string) (data : Payload) (w w' : World)
    (doc : Document) :
  createDocument env c data w = (Return doc, w') →
  doc = {| doc_id := unique_id env (created w); doc_data := data |} ∧
  creates env c data w w'.
Proof.
  unfold createDocument, store_call, issue, throw, ret, bind, creates. simpl.
  destruct (store_rejects env (requests w)); [discriminate |].
  intros [= <- <-]. split; [done |].
  rewrite docs_of_count_created, docs_of_set_docs. split; [done |].
  split; [| done]. intros c' Hc'.
  by rewrite docs_of_count_created, docs_of_set_docs_ne.
Qed.

Lemma link_customizations_effect (customizationMap : gmap string string)
    (item : MenuItem.t) (doc : Document) (w : World) :
  ∃ w' new,
    link_customizations cfg env customizationMap item doc w = (Return tt, w') ∧
    docs_of w' (menuCustomizationsCollectionId cfg)
    = docs_of w (menuCustomizationsCollectionId cfg) ++ new ∧
    doc_data <$> new
    = link_of (doc_id doc)
        <$> accepted env (requests w)
              (resolvable customizationMap (MenuItem.customizations item)) ∧
    (∀ c, c ≠ menuCustomizationsCollectionId cfg → docs_of w' c = docs_of w c) ∧
    files w' = files w.
Proof.
  unfold link_customizations.
  destruct (MenuItem.customizations item) as [|c names] eqn:Hnames.
  - exists w, []. simpl. by rewrite app_nil_r.
  - cbn [length Nat.ltb Nat.leb when]. unfold bind at 1, console, observe. simpl.
    destruct (link_loop_effect cfg env customizationMap item doc (c :: names)
                (add_event (Console log (AddingCustomizations (MenuItem.name item))) w))
      as (w' & t & new & Hrun & _ & _ & _ & _ & Hd & Hnew & Hother & Hf).
    by exists w', new.
Qed.

Lemma upload_effect (url : string) (w : World) :
  ∃ u w1,
    uploadImageToStorage cfg env url 3 w = (Return u, w1) ∧
    documents w1 = documents w ∧
    (∀ f, f ∈ files_of w (bucketId cfg) → f ∈ files_of w1 (bucketId cfg)) ∧
    (u = url
     ∨ ∃ f, f ∈ files_of w1 (bucketId cfg) ∧
            u = getFileView env (bucketId cfg) (file_id f) ∧
            FileObj.uri (file_obj f) = url).
Proof.
  destruct (upload_loop_run cfg env url 3 3 1 w ltac:(lia))
    as (k & u & w' & t & Hrun & _ & Hd & _ & _ & Hcase).
  exists u, w'. do 2 (split; [done |]).
  destruct Hcase as [(_ & _ & f & n & _ & Hst & Hu & Hf & Hc) | (_ & _ & Hu & Hf & Hc)].
  - assert (files_of w' (bucketId cfg) = files_of w (bucketId cfg) ++ [f]) as Hfiles.
    { unfold files_of at 1. by rewrite Hf, lookup_insert_eq. }
    rewrite Hfiles. split; [intros f' Hf'; apply elem_of_app; by left |].
    right. exists f. split; [apply elem_of_app; right; by left |].
    split; [done |]. by destruct Hst as (_ & ? & _).
  - rewrite (files_of_same w w') by done. split; [done | by left].
Qed.

(** An iteration of the menu loop that returns: what it adds to the
    store. *)
Lemma create_menu_item_Return (categoryMap customizationMap : gmap string string)
    (total i : nat) (menuMap menuMap' : gmap string string) (item : MenuItem.t)
    (w w' : World) :
  create_menu_item cfg env categoryMap customizationMap total i menuMap item w
  = (Return menuMap', w') →
  ∃ u doc w1 w2 new,
    missing categoryMap (MenuItem.category_name item) = false ∧
    doc_data doc
    = DMenu
        {| MenuDoc.name := MenuItem.name item;
           MenuDoc.description := MenuItem.description item;
           MenuDoc.image_url := u;
           MenuDoc.price := MenuItem.price item;
           MenuDoc.rating := MenuItem.rating item;
           MenuDoc.calories := MenuItem.calories item;
           MenuDoc.protein := MenuItem.protein item;
           MenuDoc.categories :=
             Table.get categoryMap (MenuItem.category_name item) |} ∧
    documents w1 = documents w ∧
    (∀ f, f ∈ files_of w (bucketId cfg) → f ∈ files_of w1 (bucketId cfg)) ∧
    (u = MenuItem.image_url item
     ∨ ∃ f, f ∈ files_of w1 (bucketId cfg) ∧
            u = getFileView env (bucketId cfg) (file_id f) ∧
            FileObj.uri (file_obj f) = MenuItem.image_url item) ∧
    docs_of w2 (menuCollectionId cfg) = docs_of w1 (menuCollectionId cfg) ++ [doc] ∧
    (∀ c, c ≠ menuCollectionId cfg → docs_of w2 c = docs_of w1 c) ∧
    files w2 = files w1 ∧
    docs_of w' (menuCustomizationsCollectionId cfg)
    = docs_of w2 (menuCustomizationsCollectionId cfg) ++ new ∧
    doc_data <$> new
    = link_of (doc_id doc)
        <$> accepted env (requests w2)
              (resolvable customizationMap (MenuItem.customizations item)) ∧
    (∀ c, c ≠ menuCustomizationsCollectionId cfg → docs_of w' c = docs_of w2 c) ∧
    files w' = files w2.
Proof.
  unfold create_menu_item. intros H.
  apply bind_Return in H as (u0 & w0 & ->%console_Return & H).
  apply rethrow_Return in H.
  apply bind_Return in H as (u & w1 & Hup & H).
  apply bind_Return in H as (u1 & w1' & Hwhen & H).
  apply bind_Return in H as (doc & w2 & Hdoc & H).
  apply bind_Return in H as (u2 & w3 & ->%console_Return & H).
  apply bind_Return in H as (u3 & w4 & Hlink & H).
  injection H as _ <-.
  destruct (missing categoryMap (MenuItem.category_name item)) eqn:Hmiss;
    [discriminate |].
  injection Hwhen as _ <-.
  destruct (upload_effect (MenuItem.image_url item)
              (add_event
                 (Console log (ProcessingMenuItem (i + 1) total (MenuItem.name item)))
                 w))
    as (u' & w1'' & Hup' & Hd1 & Hf1 & Hu).
  rewrite Hup in Hup'. injection Hup' as <- <-.
  apply createDocument_Return in Hdoc as (-> & Happ & Hother & Hf2 & _).
  match type of Hlink with
  | link_customizations _ _ _ _ ?d ?w0 = _ =>
      destruct (link_customizations_effect customizationMap item d w0)
        as (w4' & new & Hlink' & Hl & Hnew & Hlo & Hlf)
  end.
  rewrite Hlink in Hlink'. injection Hlink' as _ <-.
  eexists u, (Build_Document _ _), _, w2, new.
  split; [done |]. split; [reflexivity |].
  do 3 (split; [done |]). do 3 (split; [done |]).
  split; [exact Hl |]. split; [exact Hnew |]. split; [exact Hlo | exact Hlf].
Qed.

Lemma resolvable_elem (table : gmap string string) (names : list string)
    (p : string * Table.value) :
  p ∈ resolvable table names →
  p.1 ∈ names ∧ missing table p.1 = false ∧ Table.get table p.1 = p.2.
Proof.
  unfold resolvable. intros H. apply list_elem_of_omap in H as (c & Hc & H).
  destruct (missing table c) eqn:Hm; [discriminate |].
  injection H as <-. by repeat split.
Qed.

End Integrity.

Section IntegrityLoop.
Variable cfg : AppwriteConfig.
Variable env : Env.
Hypothesis distinct :
  NoDup [categoriesCollectionId cfg; customizationsCollectionId cfg;
         menuCollectionId cfg; menuCustomizationsCollectionId cfg].
Variable categoryMap customizationMap : gmap string string.

Lemma links_item_weaken (w : World) (item : MenuItem.t) (items : list MenuItem.t)
    (ld : Document) :
  links_item cfg w items ld → links_item cfg w (item :: items) ld.
Proof.
  intros (it & c & Hin & Hc & Hl). exists it, c. split; [by right | done].
Qed.

Lemma menu_loop_Return (total : nat) (items : list MenuItem.t) :
  ∀ i menuMap w menuMap' w',
    for_index (create_menu_item cfg env categoryMap customizationMap total)
      i items menuMap w = (Return menuMap', w') →
    table_sound Category.name DCategory categoryMap
      (docs_of w (categoriesCollectionId cfg)) →
    table_sound Customization.name DCustomization customizationMap
      (docs_of w (customizationsCollectionId cfg)) →
    (∀ item, item ∈ items →
             plain (MenuItem.category_name item) ∧
             Forall plain (MenuItem.customizations item)) →
    ∃ new_menu new_links,
      docs_of w' (menuCollectionId cfg)
      = docs_of w (menuCollectionId cfg) ++ new_menu ∧
      Forall2 (stands_for cfg env w') new_menu items ∧
      docs_of w' (menuCustomizationsCollectionId cfg)
      = docs_of w (menuCustomizationsCollectionId cfg) ++ new_links ∧
      Forall (links_item cfg w' items) new_links ∧
      docs_of w' (categoriesCollectionId cfg)
      = docs_of w (categoriesCollectionId cfg) ∧
      docs_of w' (customizationsCollectionId cfg)
      = docs_of w (customizationsCollectionId cfg) ∧
      (∀ f, f ∈ files_of w (bucketId cfg) → f ∈ files_of w' (bucketId cfg)).
Proof.
  destruct (distinct_collections cfg distinct) as (Hcm & Hcl & Hum & Hul & Hml & Hcu).
  induction items as [|item items IH];
    intros i menuMap w menuMap' w' Hrun Hcat Hcus Hplain.
  { simpl in Hrun. injection Hrun as _ <-. exists [], [].
    rewrite !app_nil_r. by repeat split. }
  destruct (Hplain item) as [Hpc Hpl]; [by left |].
  simpl in Hrun. apply bind_Return in Hrun as (menuMap1 & ws & Hstep & Hrest).
  apply create_menu_item_Return in Hstep
    as (u & doc & w1 & w2 & new & Hmiss & Hdata & Hd1 & Hf1 & Hu & Hmenu2 & Ho2
        & Hf2 & Hlinks & Hnew & Hos & Hfs).
  assert (docs_of ws (categoriesCollectionId cfg)
          = docs_of w (categoriesCollectionId cfg)) as Hcats.
  { rewrite Hos, Ho2 by done. by apply docs_of_same. }
  assert (docs_of ws (customizationsCollectionId cfg)
          = docs_of w (customizationsCollectionId cfg)) as Hcusts.
  { rewrite Hos, Ho2 by done. by apply docs_of_same. }
  assert (docs_of ws (menuCollectionId cfg)
          = docs_of w (menuCollectionId cfg) ++ [doc]) as Hmenu.
  { rewrite Hos, Hmenu2 by done. f_equal. by apply docs_of_same. }
  assert (docs_of ws (menuCustomizationsCollectionId cfg)
          = docs_of w (menuCustomizationsCollectionId cfg) ++ new) as Hlnk.
  { rewrite Hlinks, Ho2 by done. f_equal. by apply docs_of_same. }
  assert (∀ f, f ∈ files_of w1 (bucketId cfg) → f ∈ files_of ws (bucketId cfg))
    as Hfiles1.
  { intros f Hf. rewrite (files_of_same w1 ws); [done | congruence]. }
  destruct (IH (S i) menuMap1 ws menuMap' w' Hrest) as
    (new_menu & new_links & Hm' & Hst & Hl' & Hli & Hc' & Hu' & Hf');
    [by rewrite Hcats | by rewrite Hcusts | intros x Hx; apply Hplain; by right |].
  exists (doc :: new_menu), (new ++ new_links).
  split; [by rewrite Hm', Hmenu, <- app_assoc |].
  split; [| split; [by rewrite Hl', Hlnk, <- app_assoc |]].
  { constructor; [| done].
    destruct (Hcat _ Hpc Hmiss) as (cat & cid & Hget & Hcd & Hname).
    assert (∃ img,
              image_represents cfg env ws u img ∧
              (img = Linked (MenuItem.image_url item)
               ∨ ∃ size type, img = Hosted (MenuItem.image_url item) size type))
      as (img & Himg & Hkind).
    { destruct Hu as [-> | (f & Hf & -> & Huri)].
      - exists (Linked (MenuItem.image_url item)). split; [done | by left].
      - exists (Hosted (MenuItem.image_url item) (FileObj.size (file_obj f))
                  (FileObj.type (file_obj f))).
        split; [| right; by eexists _, _].
        exists f. split; [by apply Hfiles1 |]. by repeat split. }
    exists cat, img. split; [| done].
    apply (menu_represents_mono cfg env ws w'); [done | done |].
    eexists _, _. split; [exact Hdata |]. simpl.
    do 6 (split; [done |]). split; [rewrite Hcats; exact Hcd |]. done. }
  split.
  { apply Forall_app. split.
    - apply Forall_forall. intros ld Hld.
      assert (doc_data ld ∈ doc_data <$> new) as Hin by (by apply list_elem_of_fmap_2).
      rewrite Hnew in Hin. apply list_elem_of_fmap in Hin as (p & Hp & Hacc).
      apply accepted_subseteq in Hacc.
      apply resolvable_elem in Hacc as (Hpn & Hpm & Hpget).
      assert (plain p.1) as Hpp by (by apply (proj1 (Forall_forall _ _) Hpl)).
      destruct (Hcus _ Hpp Hpm) as (cus & cid & Hget & Hcd & Hcname).
      exists item, p.1. split; [by left |]. split; [done |].
      apply (link_represents_mono cfg ws w'); [done | |].
      { intros md Hmd. rewrite Hm'. apply elem_of_app. by left. }
      eexists _, doc, _, _, cus. split; [exact Hp |]. simpl.
      split; [rewrite Hmenu; apply elem_of_app; right; by left |].
      split; [done |]. split; [exact Hdata |]. split; [done |].
      split; [rewrite Hcusts; exact Hcd |]. simpl. by rewrite <- Hpget, Hget.
    - eapply Forall_impl; [exact Hli |]. intros ld. apply links_item_weaken. }
  split; [by rewrite Hc', Hcats |]. split; [by rewrite Hu', Hcusts |].
  intros f Hf. apply Hf', Hfiles1, Hf1. exact Hf.
Qed.

End IntegrityLoop.

Section TableSound.
Variable env : Env.
Context {X : Type} (name_of : X → string) (mk : X → Payload).
Hypothesis mk_name : ∀ x k,
  record_name {| doc_id := k; doc_data := mk x |} = Some (name_of x).

Lemma created_from_data (k : nat) (xs : list X) :
  doc_data <$> created_from env mk k xs = mk <$> xs.
Proof. revert k. induction xs as [|x xs IH]; intros k; simpl; [done |]. by rewrite IH. Qed.

Lemma created_from_elem (k : nat) (xs : list X) (d : Document) :
  d ∈ created_from env mk k xs → ∃ x, d = {| doc_id := doc_id d; doc_data := mk x |}.
Proof.
  revert k. induction xs as [|x xs IH]; intros k; simpl.
  - intros H. by apply elem_of_nil in H.
  - intros H. apply elem_of_cons in H as [-> | H]; [by exists x | by eapply IH].
Qed.

Lemma accepted_prefix_all (n : nat) (l : list X) :
  first_rejected env n (length l) = None → accepted_prefix env n l = l.
Proof.
  revert n. induction l as [|x l IH]; intros n; simpl; [done |].
  destruct (store_rejects env n); [done |]. intros H. by rewrite IH.
Qed.

Lemma table_sound_of_lookup (table : gmap string string) (docs : list Document) :
  (∀ d, d ∈ docs → ∃ x, d = {| doc_id := doc_id d; doc_data := mk x |}) →
  (∀ name, table !! name = assigned docs name) →
  table_sound name_of mk table docs.
Proof.
  intros Hdocs Hlook name Hplain Hmiss.
  destruct (present_own _ _ Hplain Hmiss) as (id & Hid & Hget & _).
  rewrite Hlook in Hid. unfold assigned in Hid.
  rewrite bool_decide_eq_false_2 in Hid by (by apply plain_settable).
  unfold last_named in Hid.
  destruct (last (filter _ docs)) as [d|] eqn:Hlast; [| discriminate].
  injection Hid as <-.
  apply last_Some_elem_of, list_elem_of_filter in Hlast as [Hname Hd].
  destruct (Hdocs d Hd) as [x Hx]. exists x, (doc_id d). split; [done |].
  rewrite <- Hx. split; [done |].
  rewrite Hx, mk_name in Hname. by injection Hname.
Qed.

End TableSound.

Section LoopsReturn.
Variable cfg : AppwriteConfig.
Variable env : Env.

Lemma category_loop_Return (cats : list Category.t) (w w' : World)
    (categoryMap : gmap string string) :
  for_of (create_category cfg env) cats ∅ w = (Return categoryMap, w') →
  ∃ new,
    docs_of w' (categoriesCollectionId cfg)
    = docs_of w (categoriesCollectionId cfg) ++ new ∧
    doc_data <$> new = DCategory <$> cats ∧
    table_sound Category.name DCategory categoryMap new ∧
    (∀ c, c ≠ categoriesCollectionId cfg → docs_of w' c = docs_of w c) ∧
    files w' = files w.
Proof.
  intros Hrun.
  pose proof (table_loop_run env Category.name DCategory (categoriesCollectionId cfg)
                (create_category cfg env) ltac:(done)
                (create_category_step cfg env) cats ∅ w) as H.
  cbv zeta in H. rewrite Hrun in H. simpl in H.
  destruct H as (Hd & Ho & Hf & Hres).
  destruct (first_rejected env (requests w) (length cats)) eqn:Hfirst;
    [discriminate |].
  destruct Hres as (table & [= <-] & Hlook).
  rewrite accepted_prefix_all in * by done.
  eexists. split; [exact Hd |]. split; [apply created_from_data |].
  split; [| done].
  apply table_sound_of_lookup; [done | by apply created_from_elem |].
  intros name. rewrite Hlook, lookup_empty. by destruct (assigned _ name).
Qed.

Lemma customization_loop_Return (custs : list Customization.t) (w w' : World)
    (customizationMap : gmap string string) :
  for_of (create_customization cfg env) custs ∅ w = (Return customizationMap, w') →
  ∃ new,
    docs_of w' (customizationsCollectionId cfg)
    = docs_of w (customizationsCollectionId cfg) ++ new ∧
    doc_data <$> new = DCustomization <$> custs ∧
    table_sound Customization.name DCustomization customizationMap new ∧
    (∀ c, c ≠ customizationsCollectionId cfg → docs_of w' c = docs_of w c) ∧
    files w' = files w.
Proof.
  intros Hrun.
  pose proof (table_loop_run env Customization.name DCustomization
                (customizationsCollectionId cfg)
                (create_customization cfg env) ltac:(done)
                (create_customization_step cfg env) custs ∅ w) as H.
  cbv zeta in H. rewrite Hrun in H. simpl in H.
  destruct H as (Hd & Ho & Hf & Hres).
  destruct (first_rejected env (requests w) (length custs)) eqn:Hfirst;
    [discriminate |].
  destruct Hres as (table & [= <-] & Hlook).
  rewrite accepted_prefix_all in * by done.
  eexists. split; [exact Hd |]. split; [apply created_from_data |].
  split; [| done].
  apply table_sound_of_lookup; [done | by apply created_from_elem |].
  intros name. rewrite Hlook, lookup_empty. by destruct (assigned _ name).
Qed.

End LoopsReturn.

(** X17: whatever the image host does and whichever join records the store
    rejects, a run that completes on a configuration with four distinct
    collections and a dataset whose menu items name no category and list
    no customization by the name of a member every object inherits
    leaves in the store one category record per category and
    one customization record per customization of the dataset, with
    their fields, in dataset order; one menu record per menu item, in
    order, that stands for it; and join records only between menu and
    customization records that are there, each for a customization the
    item lists. *)
Theorem seed_completed_store_resolves (cfg : AppwriteConfig) (env : Env)
    (data : DummyData.t) (w w' : World) :
  NoDup [categoriesCollectionId cfg; customizationsCollectionId cfg;
         menuCollectionId cfg; menuCustomizationsCollectionId cfg] →
  (∀ item, item ∈ DummyData.menu data →
           plain (MenuItem.category_name item) ∧
           Forall plain (MenuItem.customizations item)) →
  seed cfg env data w = (Return tt, w') →
  doc_data <$> docs_of w' (categoriesCollectionId cfg)
  = DCategory <$> DummyData.categories data ∧
  doc_data <$> docs_of w' (customizationsCollectionId cfg)
  = DCustomization <$> DummyData.customizations data ∧
  Forall2 (stands_for cfg env w') (docs_of w' (menuCollectionId cfg))
    (DummyData.menu data) ∧
  Forall (links_item cfg w' (DummyData.menu data))
    (docs_of w' (menuCustomizationsCollectionId cfg)).
Proof.
  intros distinct Hplain.
  destruct (distinct_collections cfg distinct) as (Hcm & Hcl & Hum & Hul & Hml & Hcu).
  unfold seed. intros H. apply rethrow_Return in H.
  apply bind_Return in H as (? & ? & ->%console_Return & H).
  apply bind_Return in H as (? & ? & ->%console_Return & H).
  apply bind_Return in H as (? & w1 & [E1 O1]%clearAll_Return & H).
  apply bind_Return in H as (? & w2 & [E2 O2]%clearAll_Return & H).
  apply bind_Return in H as (? & w3 & [E3 O3]%clearAll_Return & H).
  apply bind_Return in H as (? & w4 & [E4 O4]%clearAll_Return & H).
  apply bind_Return in H as (? & w5 & Hst & H).
  apply bind_Return in H as (? & ? & ->%console_Return & H).
  apply bind_Return in H as (categoryMap & w6 & Hcat & H).
  apply bind_Return in H as (? & ? & ->%console_Return & H).
  apply bind_Return in H as (customizationMap & w7 & Hcus & H).
  apply bind_Return in H as (? & ? & ->%console_Return & H).
  apply bind_Return in H as (menuMap & w8 & Hmenu & H).
  apply bind_Return in H as (? & ? & ->%console_Return & H).
  apply bind_Return in H as (? & ? & ->%console_Return & H).
  apply bind_Return in H as (? & ? & ->%console_Return & H).
  apply bind_Return in H as (? & ? & ->%console_Return & H).
  apply console_Return in H as ->.
  assert (∀ c, docs_of w5 c = docs_of w4 c) as D5.
  { intros c. apply docs_of_same. pose proof (clearStorage_documents cfg env w4) as Hd.
    by rewrite Hst in Hd. }
  assert (docs_of w5 (categoriesCollectionId cfg) = []) as C5.
  { by rewrite D5, O4, O3, O2. }
  assert (docs_of w5 (customizationsCollectionId cfg) = []) as U5.
  { by rewrite D5, O4, O3. }
  assert (docs_of w5 (menuCollectionId cfg) = []) as M5.
  { by rewrite D5, O4. }
  assert (docs_of w5 (menuCustomizationsCollectionId cfg) = []) as L5.
  { by rewrite D5. }
  apply category_loop_Return in Hcat as (Dcat & Hc6 & Hcdata & Hcsound & Ho6 & _).
  rewrite docs_of_add_event, C5 in Hc6. simpl in Hc6.
  apply customization_loop_Return in Hcus as (Dcus & Hu7 & Hudata & Husound & Ho7 & _).
  rewrite docs_of_add_event, Ho6, docs_of_add_event, U5 in Hu7 by done.
  simpl in Hu7.
  apply (menu_loop_Return cfg env distinct) in Hmenu
    as (new_menu & new_links & Hm8 & Hstands & Hl8 & Hlinks & Hc8 & Hu8 & _).
  2: { rewrite docs_of_add_event, Ho7, docs_of_add_event, Hc6 by done. done. }
  2: { rewrite docs_of_add_event, Hu7. done. }
  2: { exact Hplain. }
  rewrite docs_of_add_event, Ho7, docs_of_add_event, Ho6, docs_of_add_event in Hm8, Hl8
    by done.
  rewrite M5 in Hm8. rewrite L5 in Hl8. simpl in Hm8, Hl8.
  rewrite docs_of_add_event, Ho7, docs_of_add_event, Hc6 in Hc8 by done.
  rewrite docs_of_add_event, Hu7 in Hu8.
  assert (∀ e1 e2 e3 e4 e5 c,
            docs_of (add_event e1 (add_event e2 (add_event e3 (add_event e4
                       (add_event e5 w8))))) c = docs_of w8 c) as Dend by done.
  rewrite !Dend. rewrite Hc8, Hu8, Hm8, Hl8.
  do 2 (split; [done |]). split.
  - eapply Forall2_impl; [exact Hstands |]. intros md item (cat & img & Hrep & Hn & Hi).
    exists cat, img. split; [| done].
    eapply menu_represents_mono; [| | exact Hrep]; done.
  - eapply Forall_impl; [exact Hlinks |]. intros ld (item & c & Hin & Hc & Hrep).
    exists item, c. do 2 (split; [done |]).
    eapply link_represents_mono; [| | exact Hrep]; done.
Qed.


Lemma seed_completed_store_resolves_witness :
  let w' := (seed sample_config Sample.flaky Sample.data Sample.empty_world).2 in
  doc_data <$> docs_of w' (categoriesCollectionId sample_config)
  = DCategory <$> DummyData.categories Sample.data ∧
  doc_data <$> docs_of w' (customizationsCollectionId sample_config)
  = DCustomization <$> DummyData.customizations Sample.data ∧
  Forall2 (stands_for sample_config Sample.flaky w')
    (docs_of w' (menuCollectionId sample_config)) (DummyData.menu Sample.data) ∧
  Forall (links_item sample_config w' (DummyData.menu Sample.data))
    (docs_of w' (menuCustomizationsCollectionId sample_config)).
Proof.
  apply (seed_completed_store_resolves sample_config Sample.flaky Sample.data
           Sample.empty_world).
  - apply (bool_decide_unpack _). vm_compute. exact I.
  - intros item Hin.
    repeat (apply elem_of_cons in Hin as [-> | Hin];
            [split; apply (bool_decide_unpack _); vm_compute; exact I |]).
    by apply elem_of_nil in Hin.
  - vm_compute. reflexivity.
Defined.

(** ** The script at work on the sample dataset *)

(** A clear whose first deletion is rejected still issues the second one,
    which goes through, and the run stops there. *)
Example rejected_deletion_stops_the_run :
  let r := seed sample_config Sample.second_rejected Sample.data Sample.stale_world in
  r.1 = Throw (StoreError 1) ∧
  requests_of (trace r.2)
  = [ListDocuments "categories";
     DeleteDocument "categories" "old1";
     DeleteDocument "categories" "old2"] ∧
  doc_id <$> docs_of r.2 "categories" = ["old1"].
Proof. vm_compute. done. Qed.

(** The join records of the Margherita under a table that knows one of
    its two customizations. *)
Example margherita_links :
  let doc := {| doc_id := "id5"; doc_data := DCategory (Category.Build_t "" "") |} in
  let r := link_customizations sample_config Sample.online
             {[ "Extra Cheese" := "id2" ]} Sample.margherita doc Sample.empty_world in
  r.1 = Return tt ∧
  omap warning_of (trace r.2) = ["Olives"] ∧
  doc_data <$> docs_of r.2 "menu_customizations"
  = [DLink {| LinkDoc.menu := "id5"; LinkDoc.customizations := Table.Str "id2" |}].
Proof. vm_compute. done. Qed.

(** Seeding the stale store twice: the old documents are gone and each
    collection holds what the dataset gives it. *)
Example reseeded_sample :
  let once := (seed sample_config Sample.online Sample.data Sample.stale_world).2 in
  let twice := (seed sample_config Sample.online Sample.data once).2 in
  (doc_id <$> docs_of once "categories", doc_id <$> docs_of twice "categories")
  = (["id0"; "id1"], ["id9"; "id10"]) ∧
  length (docs_of twice "menu") = 2 ∧
  length (docs_of twice "menu_customizations") = 2 ∧
  length (files_of twice "assets") = 1.
Proof. vm_compute. done. Qed.
